(** * Tile events and the push coordinator of goldensun_html5

    A shallow embedding of [src/base/tile_events/TileEvent.ts] and
    [src/interactable_objects/push.js], and the properties of the tile-event
    registry, the activation flags and the push protocol proved over it.

    Modelling conventions.
    - JavaScript objects that are shared and mutated (tile events) live in a
      heap [gmap loc TileEvent.t]; the per-map registry and the event list of
      an interactable object hold references ([loc]) into it.  The arrays
      held by an event ([active], [affected_by_reveal]) belong to that event
      alone.
    - Numbers that the code uses as tile coordinates, layers, ids and pixel
      positions are integers ([Z], [nat] for the id counter); the model covers
      the range where JavaScript's doubles represent them exactly.
    - A function returns [None] where the JavaScript code throws (reading
      [.filter] of a missing bucket) or where a reference is dangling, which
      JavaScript cannot express.
    - The physics engine, the tween engine and the two caller-supplied hooks
      are effects: the model records in a trace that they were called, in
      program order, together with every write to the registry.
    - The functions that [push.js] imports from files outside [src/] are
      parameters of the push; what the proofs need to know of them is stated
      as an assumption, and a model of each, written from the spec, shows that
      the assumptions can be met. *)

From Stdlib Require Import QArith_base Ascii.
From stdpp Require Import gmap strings list pretty.

Open Scope Z_scope.

(** ** JavaScript helpers *)

(** [Array.prototype.indexOf]: the first index holding [v], or [-1]. *)
Definition indexOf {A} `{EqDecision A} (l : list A) (v : A) : Z :=
  match list_find (λ a, a = v) l with
  | Some (i, _) => Z.of_nat i
  | None => -1
  end.

(** [Array.prototype.includes]. *)
Definition includes {A} `{EqDecision A} (l : list A) (v : A) : bool :=
  bool_decide (v ∈ l).

(** A JavaScript array of booleans, as the [active] field uses one: the
    indexed elements ([None] is a hole, read as [undefined]) and the own
    properties stored under negative keys, which the "not found" result of
    [indexOf] addresses. *)
Record js_array := JsArray {
  items : list (option bool);
  props : gmap Z bool
}.

(** [new Array(n).fill(v)]. *)
Definition array_fill (n : nat) (v : bool) : js_array :=
  JsArray (replicate n (Some v)) ∅.

(** An array literal. *)
Definition array_of_list (l : list bool) : js_array :=
  JsArray (Some <$> l) ∅.

(** [a[i]]: [None] stands for [undefined]. *)
Definition array_get (a : js_array) (i : Z) : option bool :=
  if decide (0 ≤ i) then mjoin (items a !! Z.to_nat i) else props a !! i.

(** Writing a list element, extending the list with holes as JavaScript
    does when the index is past the end. *)
Definition set_item (l : list (option bool)) (n : nat) (b : bool)
  : list (option bool) :=
  if decide (n < length l)%nat then <[n := Some b]> l
  else l ++ replicate (n - length l) None ++ [Some b].

(** [a[i] = b]. *)
Definition array_set (a : js_array) (i : Z) (b : bool) : js_array :=
  if decide (0 ≤ i) then JsArray (set_item (items a) (Z.to_nat i) b) (props a)
  else JsArray (items a) (<[i := b]> (props a)).

(** [a.map(() => b)]: a fresh array of the same length; holes stay holes and
    non-index properties are not copied. *)
Definition array_map_const (a : js_array) (b : bool) : js_array :=
  JsArray ((λ o : option bool, (λ _, b) <$> o) <$> items a) ∅.

(** Truthiness of a value read from a boolean array. *)
Definition truthy (o : option bool) : bool :=
  match o with Some true => true | _ => false end.

(** A constructor argument that may be missing, a single value or an array. *)
Inductive js_arg (A : Type) :=
| Undefined
| Single (a : A)
| Many (l : list A).
Arguments Undefined {A}.
Arguments Single {A} a.
Arguments Many {A} l.

(** Identity of a JavaScript object in the heap. *)
Definition loc := nat.

(** Modelled from the spec: the direction enumeration of [utils] (not in
    [src/]); the four cardinal directions and the four composite (diagonal)
    ones.  [TileEvent.ts] stores them as numbers and only compares them. *)
Inductive directions :=
| right | down_right | down | down_left | left | up_left | up | up_right.

#[global] Instance directions_eq_dec : EqDecision directions.
Proof. solve_decision. Defined.

(** Modelled from the spec: [split_direction] of [utils] (not in [src/]),
    which decomposes a composite direction into its constituent cardinal
    directions and returns a cardinal direction alone. *)
Definition split_direction (d : directions) : list directions :=
  match d with
  | right => [right]
  | down => [down]
  | left => [left]
  | up => [up]
  | down_right => [right; down]
  | down_left => [down; left]
  | up_left => [left; up]
  | up_right => [up; right]
  end.

(** Modelled from the spec: [get_opposite_direcion] of [utils] (not in
    [src/]), the opposite-direction lookup. *)
Definition opposite_direction (d : directions) : directions :=
  match d with
  | right => left
  | down_right => up_left
  | down => up
  | down_left => up_right
  | left => right
  | up_left => down_right
  | up => down
  | up_right => down_left
  end.

(** Modelled from the spec: [get_directions(true)] of [utils] (not in
    [src/]), every direction, diagonals included. *)
Definition all_directions : list directions :=
  [right; down_right; down; down_left; left; up_left; up; up_right].

(** ** [TileEvent.ts] *)

Inductive event_types :=
| CLIMB | SPEED | TELEPORT | JUMP | STEP | COLLISION | SLIDER
| EVENT_TRIGGER | ICE_SLIDE.

#[global] Instance event_types_eq_dec : EqDecision event_types.
Proof. solve_decision. Defined.

Module TileEvent.

(** The fields of a [TileEvent] object ([game] and [data] are engine
    handles and are left out). *)
Record t := Build {
  type : event_types;
  x : Z;
  y : Z;
  location_key : string;
  id : nat;
  activation_collision_layers : list Z;
  activation_directions : list directions;
  dynamic : bool;
  active : js_array;
  affected_by_reveal : js_array;
  origin_interactable_object : option nat;
  collision_layer_shift_from_source : Z
}.

(** The static members [TileEvent.id_incrementer] and [TileEvent.events]. *)
Record statics := Statics {
  id_incrementer : nat;
  events : gmap nat loc
}.

(** [static get_location_key(x, y)]: the template string [`${x}_${y}`]. *)
Definition get_location_key (x y : Z) : string :=
  pretty x +:+ "_" +:+ pretty y.

Definition set_active (a : js_array) (e : t) : t :=
  Build (type e) (x e) (y e) (location_key e) (id e)
        (activation_collision_layers e) (activation_directions e) (dynamic e)
        a (affected_by_reveal e) (origin_interactable_object e)
        (collision_layer_shift_from_source e).

(** The three assignments of a relocation: [event.x], [event.y] and
    [event.location_key]. *)
Definition set_position (nx ny : Z) (key : string) (e : t) : t :=
  Build (type e) nx ny key (id e)
        (activation_collision_layers e) (activation_directions e) (dynamic e)
        (active e) (affected_by_reveal e) (origin_interactable_object e)
        (collision_layer_shift_from_source e).

(** [is_active(direction)], with the direction splitter as a parameter. *)
Definition is_active_with (split : directions → list directions)
  (e : t) (direction : directions) : bool :=
  existsb (λ d, truthy (array_get (active e) (indexOf (activation_directions e) d)))
          (split direction).

Definition is_active : t → directions → bool := is_active_with split_direction.

(** [activate_at(direction)]. *)
Definition activate_at (e : t) (direction : directions) : t :=
  set_active (array_set (active e) (indexOf (activation_directions e) direction) true) e.

(** [deactivate_at(direction)]. *)
Definition deactivate_at (e : t) (direction : directions) : t :=
  set_active (array_set (active e) (indexOf (activation_directions e) direction) false) e.

(** [activate()]. *)
Definition activate (e : t) : t := set_active (array_map_const (active e) true) e.

(** [deactivate()]. *)
Definition deactivate (e : t) : t := set_active (array_map_const (active e) false) e.

(** [check_position()], given the hero's tile position. *)
Definition check_position (hero_tile_x_pos hero_tile_y_pos : Z) (e : t) : bool :=
  bool_decide (hero_tile_x_pos = x e) && bool_decide (hero_tile_y_pos = y e).

(** The arguments of the constructor; [c_activation_directions] is the value
    after [map_directions], with [None] for [undefined] and for ["all"]. *)
Record ctor_args := CtorArgs {
  c_type : event_types;
  c_x : Z;
  c_y : Z;
  c_activation_directions : option (js_arg directions);
  c_activation_collision_layers : js_arg Z;
  c_dynamic : bool;
  c_active : js_arg bool;
  c_origin_interactable_object : option nat;
  c_affected_by_reveal : js_arg bool
}.

Definition init_layers (a : js_arg Z) : list Z :=
  match a with
  | Undefined => [0]
  | Single n => if decide (n = 0) then [0] else [n]
  | Many l => l
  end.

Definition init_directions (a : option (js_arg directions)) : list directions :=
  match a with
  | None | Some Undefined => all_directions
  | Some (Single d) => [d]
  | Some (Many l) => l
  end.

Definition init_flags (n : nat) (default : bool) (a : js_arg bool) : js_array :=
  match a with
  | Undefined => array_fill n default
  | Single b => array_fill n b
  | Many l => array_of_list l
  end.

(** The object the constructor builds when the counter stands at [next_id]. *)
Definition init (next_id : nat) (a : ctor_args) : t :=
  let dirs := init_directions (c_activation_directions a) in
  Build (c_type a) (c_x a) (c_y a) (get_location_key (c_x a) (c_y a)) next_id
        (init_layers (c_activation_collision_layers a)) dirs (c_dynamic a)
        (init_flags (length dirs) true (c_active a))
        (init_flags (length dirs) false (c_affected_by_reveal a))
        (c_origin_interactable_object a) 0.

(** [new TileEvent(...)]: allocates the object, takes the next id
    ([this.id = TileEvent.id_incrementer++]) and records the object in
    [TileEvent.events].  Returns the new reference. *)
Definition new (a : ctor_args) (s : statics * gmap loc t)
  : loc * (statics * gmap loc t) :=
  let '(st, h) := s in
  let r : loc := fresh (dom h) in
  let e := init (id_incrementer st) a in
  (r, (Statics (S (id_incrementer st)) (<[id e := r]> (events st)), <[r := e]> h)).

(** [static get_event(id)]. *)
Definition get_event (st : statics) (i : nat) : option loc := events st !! i.

(** [static reset()]. *)
Definition reset (st : statics) : statics := Statics 0 ∅.

End TileEvent.

(** ** [push.js] *)

(** The three Phaser bodies a push moves, compared by identity in the code. *)
Inductive body := ObjectBody | Shadow | HeroBody.

#[global] Instance body_eq_dec : EqDecision body.
Proof. solve_decision. Defined.

(** What the push does to its collaborators, in program order. *)
Inductive effect :=
| PhysicsPause                               (* game.physics.p2.pause() *)
| PhysicsResume                              (* game.physics.p2.resume() *)
| RegistryWrite (key : string)               (* a write to maps[..].events[key] *)
| BeforeMove (tween_x tween_y : Z)           (* before_move(tween_x, tween_y) *)
| TweenStart (b : body) (dest_x dest_y : Q)  (* game.add.tween(body).to(..) *)
| PushEnd.                                   (* push_end() *)

#[global] Instance Q_eq_dec : EqDecision Q.
Proof. solve_decision. Defined.

#[global] Instance effect_eq_dec : EqDecision effect.
Proof. solve_decision. Defined.

(** The mutable world a push works on: the tile events, the event location
    registry of the current map ([maps[data.map_name].events]) and the
    effects issued so far. *)
Record World := MkWorld {
  heap : gmap loc TileEvent.t;
  events : gmap string (list loc);
  trace : list effect
}.

Definition set_heap (h : gmap loc TileEvent.t) (w : World) : World :=
  MkWorld h (events w) (trace w).

Definition emit (e : effect) (w : World) : World :=
  MkWorld (heap w) (events w) (trace w ++ [e]).

(** A write to the registry at [key], recorded in the trace. *)
Definition write_registry (key : string) (m : gmap string (list loc)) (w : World)
  : World :=
  MkWorld (heap w) m (trace w ++ [RegistryWrite key]).

(** The fields of the game [data] object that [push.js] reads and writes.
    [tileWidth] and [tileHeight] are those of [maps[data.map_name].sprite]. *)
Record Data := MkData {
  trying_to_push : bool;
  trying_to_push_direction : string;
  actual_direction : string;
  casting_psynergy : bool;
  jumping : bool;
  pushing : bool;
  actual_action : string;
  push_timer : option nat;
  hero_x : Z;
  hero_y : Z;
  hero_body_x : Z;
  hero_body_y : Z;
  shadow_x : Z;
  shadow_y : Z;
  hero_tile_pos_x : Z;
  hero_tile_pos_y : Z;
  tileWidth : Z;
  tileHeight : Z
}.

Definition set_pushing (b : bool) (action : string) (d : Data) : Data :=
  MkData (trying_to_push d) (trying_to_push_direction d) (actual_direction d)
         (casting_psynergy d) (jumping d) b action (push_timer d)
         (hero_x d) (hero_y d) (hero_body_x d) (hero_body_y d)
         (shadow_x d) (shadow_y d) (hero_tile_pos_x d) (hero_tile_pos_y d)
         (tileWidth d) (tileHeight d).

(** [data.trying_to_push = false; data.push_timer = null]. *)
Definition clear_request (d : Data) : Data :=
  MkData false (trying_to_push_direction d) (actual_direction d)
         (casting_psynergy d) (jumping d) (pushing d) (actual_action d) None
         (hero_x d) (hero_y d) (hero_body_x d) (hero_body_y d)
         (shadow_x d) (shadow_y d) (hero_tile_pos_x d) (hero_tile_pos_y d)
         (tileWidth d) (tileHeight d).

(** The fields of an interactable object that [push.js] uses.  [sprite_x] is
    [interactable_object_sprite.x], [body_x] is
    [interactable_object_sprite.body.x], [get_events] is the result of
    [get_events()] and [jump_collide_layer_shift] is
    [events_info.jump.collide_layer_shift]. *)
Record InteractableObject := MkObject {
  sprite_x : Z;
  sprite_y : Z;
  body_x : Z;
  body_y : Z;
  get_events : list loc;
  jump_collide_layer_shift : Z;
  base_collider_layer : Z;
  current_x : Z;
  current_y : Z
}.

Definition shift_current (dx dy : Z) (o : InteractableObject) : InteractableObject :=
  MkObject (sprite_x o) (sprite_y o) (body_x o) (body_y o) (get_events o)
           (jump_collide_layer_shift o) (base_collider_layer o)
           (current_x o + dx) (current_y o + dy).

(** An element of the array [get_surroundings] returns. *)
Record surrounding := MkSurrounding {
  sur_x : Z;
  sur_y : Z;
  sur_direction : directions
}.

(** The promises collected by a push and joined by [Promise.all]: one per
    scheduled tween, still unresolved, and whether a [push_end] hook was
    supplied for the continuation. *)
Record join := MkJoin {
  unresolved : list body;
  push_end_supplied : bool
}.

(** What a call leaves behind. *)
Record outcome := MkOutcome {
  o_data : Data;
  o_object : InteractableObject;
  o_world : World;
  o_join : option join
}.

(** The quadrant test of lines 23-31 on the two limits. *)
Definition classify (positive_limit negative_limit hero_y : Z) : option string :=
  if (- hero_y >=? positive_limit) && (- hero_y >=? negative_limit) then Some "down"
  else if (- hero_y <=? positive_limit) && (- hero_y >=? negative_limit) then Some "left"
  else if (- hero_y <=? positive_limit) && (- hero_y <=? negative_limit) then Some "up"
  else if (- hero_y >=? positive_limit) && (- hero_y <=? negative_limit) then Some "right"
  else None.

Definition positive_limit (d : Data) (o : InteractableObject) : Z :=
  hero_x d + (- sprite_y o - sprite_x o).

Definition negative_limit (d : Data) (o : InteractableObject) : Z :=
  - hero_x d + (- sprite_y o + sprite_x o).

(** [expected_position] after lines 20-32 of a push that is not target-only;
    [None] is [undefined]. *)
Definition expected_position (d : Data) (o : InteractableObject) : option string :=
  classify (positive_limit d o) (negative_limit d o) (hero_y d).

(** The entry test of [normal_push]. *)
Definition push_requested (d : Data) : bool :=
  trying_to_push d
  && includes ["up"; "down"; "left"; "right"]%string (trying_to_push_direction d)
  && bool_decide (trying_to_push_direction d = actual_direction d)
  && negb (casting_psynergy d)
  && negb (jumping d).

(** The bucket filter of line 62: keeps the references whose event has another
    id than [i]. *)
Fixpoint filter_out_id (h : gmap loc TileEvent.t) (i : nat) (l : list loc)
  : option (list loc) :=
  match l with
  | [] => Some []
  | r :: l' =>
      e ← h !! r;
      rest ← filter_out_id h i l';
      Some (if decide (TileEvent.id e = i) then rest else r :: rest)
  end.

Section Push.

(** Parts of the repository that [push.js] imports and that are not in
    [src/]: [get_surroundings] and [get_opposite_direcion] of [utils],
    [JumpEvent.active_jump_surroundings] and the constant [PUSH_SHIFT] of
    [magic_numbers]. *)
Variable get_surroundings : Z → Z → bool → Z → list surrounding.
Variable get_opposite_direcion : directions → directions.
Variable active_jump_surroundings : World → list surrounding → Z → World.
Variable PUSH_SHIFT : Z.

(** The switch of lines 41-58:
    [(event_shift_x, event_shift_y, tween_x, tween_y)]. *)
Definition shifts (direction : string) : Z * Z * Z * Z :=
  if decide (direction = "up"%string) then (0, -1, 0, - PUSH_SHIFT)
  else if decide (direction = "down"%string) then (0, 1, 0, PUSH_SHIFT)
  else if decide (direction = "left"%string) then (-1, 0, - PUSH_SHIFT, 0)
  else if decide (direction = "right"%string) then (1, 0, PUSH_SHIFT, 0)
  else (0, 0, 0, 0).

(** [interactable_object.events_info.jump.collide_layer_shift +
    interactable_object.base_collider_layer]. *)
Definition target_layer (o : InteractableObject) : Z :=
  jump_collide_layer_shift o + base_collider_layer o.

(** Lines 88-94 for one event of a bucket. *)
Definition deactivate_old_surr_event (o : InteractableObject) (s : surrounding)
  (r : loc) (w : World) : option World :=
  old_surr_event ← heap w !! r;
  if decide (TileEvent.type old_surr_event = JUMP) then
    if includes (TileEvent.activation_collision_layers old_surr_event) (target_layer o)
       && bool_decide (TileEvent.dynamic old_surr_event = false)
    then Some (set_heap (<[r := TileEvent.deactivate_at old_surr_event
                                  (get_opposite_direcion (sur_direction s))]> (heap w)) w)
    else Some w
  else Some w.

(** The loop of lines 87-95 over one bucket. *)
Fixpoint deactivate_bucket (o : InteractableObject) (s : surrounding)
  (bucket : list loc) (w : World) : option World :=
  match bucket with
  | [] => Some w
  | r :: rest =>
      w' ← deactivate_old_surr_event o s r w;
      deactivate_bucket o s rest w'
  end.

(** The loop of lines 83-97 over the old surroundings. *)
Fixpoint deactivate_old_surroundings (o : InteractableObject)
  (old_surroundings : list surrounding) (w : World) : option World :=
  match old_surroundings with
  | [] => Some w
  | old_surrounding :: rest =>
      let old_key :=
        TileEvent.get_location_key (sur_x old_surrounding) (sur_y old_surrounding) in
      w' ← match events w !! old_key with
            | Some bucket => deactivate_bucket o old_surrounding bucket w
            | None => Some w
            end;
      deactivate_old_surroundings o rest w'
  end.

(** Lines 62-67: the bucket of [key] loses the events of id [i] and is
    deleted when nothing is left. *)
Definition leave_bucket (key : string) (i : nat) (w : World) : option World :=
  bucket ← events w !! key;
  filtered ← filter_out_id (heap w) i bucket;
  let w := write_registry key (<[key := filtered]> (events w)) w in
  Some (if decide (length filtered = 0%nat)
        then write_registry key (delete key (events w)) w else w).

(** Lines 76-79: the bucket of [key] is created when missing and receives
    the event. *)
Definition enter_bucket (key : string) (event : loc) (w : World) : World :=
  let w := if decide (is_Some (events w !! key)) then w
           else write_registry key (<[key := []]> (events w)) w in
  write_registry key (<[key := default [] (events w !! key) ++ [event]]> (events w)) w.

(** Lines 62-79: the event leaves its bucket, takes its new coordinates and
    key, and enters the bucket of the new key. *)
Definition move_event (event_shift_x event_shift_y : Z) (event : loc) (w : World)
  : option World :=
  ev ← heap w !! event;
  w ← leave_bucket (TileEvent.location_key ev) (TileEvent.id ev) w;
  let new_x := TileEvent.x ev + event_shift_x in
  let new_y := TileEvent.y ev + event_shift_y in
  let new_event_location_key := TileEvent.get_location_key new_x new_y in
  let w := set_heap (<[event := TileEvent.set_position new_x new_y
                                  new_event_location_key ev]> (heap w)) w in
  Some (enter_bucket new_event_location_key event w).

(** The body of the loop of lines 60-98 for one owned event. *)
Definition relocate_event (o : InteractableObject) (event_shift_x event_shift_y : Z)
  (event : loc) (w : World) : option World :=
  ev ← heap w !! event;
  let old_x := TileEvent.x ev in
  let old_y := TileEvent.y ev in
  w ← move_event event_shift_x event_shift_y event w;
  let new_surroundings :=
    get_surroundings (old_x + event_shift_x) (old_y + event_shift_y) false 2 in
  let w := active_jump_surroundings w new_surroundings (target_layer o) in
  let old_surroundings := get_surroundings old_x old_y false 2 in
  deactivate_old_surroundings o old_surroundings w.

(** The loop of lines 60-98. *)
Fixpoint relocate_events (o : InteractableObject) (event_shift_x event_shift_y : Z)
  (object_events : list loc) (w : World) : option World :=
  match object_events with
  | [] => Some w
  | event :: rest =>
      w' ← relocate_event o event_shift_x event_shift_y event w;
      relocate_events o event_shift_x event_shift_y rest w'
  end.

(** [body.x] and [body.y] of each of the three bodies. *)
Definition body_pos (d : Data) (o : InteractableObject) (b : body) : Z * Z :=
  match b with
  | ObjectBody => (body_x o, body_y o)
  | Shadow => (shadow_x d, shadow_y d)
  | HeroBody => (hero_body_x d, hero_body_y d)
  end.

(** Lines 110-125 for one body: the destination of its tween. *)
Definition tween_of (d : Data) (o : InteractableObject)
  (event_shift_x event_shift_y tween_x tween_y : Z) (b : body) : effect :=
  let dest_x := inject_Z (fst (body_pos d o b) + tween_x) in
  let dest_y := inject_Z (snd (body_pos d o b) + tween_y) in
  if bool_decide (b = Shadow) || bool_decide (b = HeroBody) then
    if decide (tween_x = 0) then
      TweenStart b (inject_Z (tileWidth d)
                    * (inject_Z (hero_tile_pos_x d + event_shift_x) + (1 # 2)))%Q dest_y
    else if decide (tween_y = 0) then
      TweenStart b dest_x (inject_Z (tileHeight d)
                    * (inject_Z (hero_tile_pos_y d + event_shift_y) + (1 # 2)))%Q
    else TweenStart b dest_x dest_y
  else TweenStart b dest_x dest_y.

(** [fire_push_movement(data, interactable_object, push_end, before_move,
    target_only)].  The hooks are opaque: the model records that they ran.
    The outcome carries the join that [Promise.all] waits on. *)
Definition fire_push_movement (d : Data) (o : InteractableObject)
  (push_end before_move : bool) (target_only : bool) (w : World) : option outcome :=
  if target_only
     || bool_decide (expected_position d o = Some (trying_to_push_direction d)) then
    let d := if target_only then d else set_pushing true "push" d in
    let w := emit PhysicsPause w in
    let '(event_shift_x, event_shift_y, tween_x, tween_y) :=
      shifts (trying_to_push_direction d) in
    w ← relocate_events o event_shift_x event_shift_y (get_events o) w;
    let sprites := ObjectBody :: (if target_only then [] else [Shadow; HeroBody]) in
    let o' := shift_current event_shift_x event_shift_y o in
    let w := if before_move then emit (BeforeMove tween_x tween_y) w else w in
    let w := foldl (λ w b, emit (tween_of d o event_shift_x event_shift_y
                                          tween_x tween_y b) w) w sprites in
    Some (MkOutcome d o' w (Some (MkJoin sprites push_end)))
  else Some (MkOutcome d o w None).

(** [normal_push(data, interactable_object)]. *)
Definition normal_push (d : Data) (o : InteractableObject) (w : World)
  : option outcome :=
  r ← (if push_requested d then fire_push_movement d o false false false w
       else Some (MkOutcome d o w None));
  Some (MkOutcome (clear_request (o_data r)) (o_object r) (o_world r) (o_join r)).

(** [target_only_push(data, interactable_object, before_move, push_end)]. *)
Definition target_only_push (d : Data) (o : InteractableObject)
  (before_move push_end : bool) (w : World) : option outcome :=
  fire_push_movement d o push_end before_move true w.

(** The continuation of lines 127-133, run once every promise is resolved. *)
Definition all_resolved (j : join) (s : Data * World) : Data * World :=
  let d := set_pushing false (actual_action (fst s)) (fst s) in
  let w := emit PhysicsResume (snd s) in
  (d, if push_end_supplied j then emit PushEnd w else w).

(** The tween of body [b] signals completion.  [onComplete.addOnce] runs the
    promise's resolver at most once; [Promise.all] runs the continuation when
    the last unresolved promise resolves. *)
Definition tween_complete (b : body) (s : Data * World * join) : Data * World * join :=
  let '(d, w, j) := s in
  if bool_decide (b ∈ unresolved j) then
    let rest := filter (λ b', b' ≠ b) (unresolved j) in
    let j' := MkJoin rest (push_end_supplied j) in
    match rest with
    | [] => (all_resolved j (d, w), j')
    | _ => (d, w, j')
    end
  else s.

(** A run of completion signals, in the order they arrive. *)
Definition tweens_complete (signals : list body) (s : Data * World * join)
  : Data * World * join :=
  foldl (λ s b, tween_complete b s) s signals.

(** A call of one of the two entry points of [push.js]. *)
Inductive push_call :=
| NormalPush (d : Data) (o : InteractableObject)
| TargetOnlyPush (d : Data) (o : InteractableObject) (before_move push_end : bool).

Definition run_push (c : push_call) (w : World) : option World :=
  o_world <$> match c with
              | NormalPush d o => normal_push d o w
              | TargetOnlyPush d o before_move push_end =>
                  target_only_push d o before_move push_end w
              end.

(** A sequence of pushes on the same map, each with whatever [data] and
    object the game hands in. *)
Fixpoint run_pushes (calls : list push_call) (w : World) : option World :=
  match calls with
  | [] => Some w
  | c :: rest => w' ← run_push c w; run_pushes rest w'
  end.

End Push.

(** ** Models of the parts that are not in [src/] *)

(** Modelled from the spec: [get_surroundings(x, y, with_diagonals, shift)] of
    [utils] (not in [src/]), the surrounding tile coordinates at the given
    radius, each with the direction of its offset. *)
Definition get_surroundings_model (x y : Z) (with_diagonals : bool) (shift : Z)
  : list surrounding :=
  [MkSurrounding (x - shift) y left; MkSurrounding (x + shift) y right;
   MkSurrounding x (y - shift) up; MkSurrounding x (y + shift) down]
  ++ (if with_diagonals then
        [MkSurrounding (x - shift) (y - shift) up_left;
         MkSurrounding (x + shift) (y - shift) up_right;
         MkSurrounding (x - shift) (y + shift) down_left;
         MkSurrounding (x + shift) (y + shift) down_right]
      else []).

(** Modelled from the spec: what [JumpEvent.active_jump_surroundings] (not in
    [src/]) does to one event of a surrounding tile: a Jump-type event whose
    activation layers contain the target layer is activated. *)
Definition activate_jump_event (target : Z) (r : loc) (w : World) : World :=
  match heap w !! r with
  | Some ev =>
      if decide (TileEvent.type ev = JUMP) then
        if includes (TileEvent.activation_collision_layers ev) target
        then set_heap (<[r := TileEvent.activate ev]> (heap w)) w
        else w
      else w
  | None => w
  end.

(** Modelled from the spec: [JumpEvent.active_jump_surroundings(data,
    surroundings, target_layer)] (not in [src/]), step 4 of the relocation
    procedure. *)
Definition active_jump_surroundings_model (w : World) (surroundings : list surrounding)
  (target : Z) : World :=
  foldl (λ w s,
           match events w !! TileEvent.get_location_key (sur_x s) (sur_y s) with
           | Some bucket => foldl (λ w r, activate_jump_event target r w) w bucket
           | None => w
           end) w surroundings.

(** A run of constructor calls with no reset in between; returns the
    references in creation order. *)
Fixpoint create_all (specs : list TileEvent.ctor_args)
  (s : TileEvent.statics * gmap loc TileEvent.t)
  : list loc * (TileEvent.statics * gmap loc TileEvent.t) :=
  match specs with
  | [] => ([], s)
  | a :: rest =>
      let '(r, s1) := TileEvent.new a s in
      let '(rs, s2) := create_all rest s1 in
      (r :: rs, s2)
  end.

(** The operations on the static members of [TileEvent]. *)
Inductive static_op :=
| OpReset
| OpNew (a : TileEvent.ctor_args).

Definition is_reset (op : static_op) : bool :=
  match op with OpReset => true | OpNew _ => false end.

Definition run_static_op (op : static_op)
  (s : TileEvent.statics * gmap loc TileEvent.t)
  : TileEvent.statics * gmap loc TileEvent.t :=
  match op with
  | OpReset => (TileEvent.reset (fst s), snd s)
  | OpNew a => snd (TileEvent.new a s)
  end.

(** Modelled from the spec: a map (re)load (the map loader is not in [src/]),
    which resets the identity registry and then creates the events of the
    map. *)
Definition load_map (specs : list TileEvent.ctor_args) : list static_op :=
  OpReset :: (OpNew <$> specs).

(** Modelled from the spec: [insert(key, event)] of the event registry, as
    the map loader (not in [src/]) files a new event under its location key. *)
Definition register (r : loc) (w : World) : World :=
  match heap w !! r with
  | Some ev =>
      MkWorld (heap w)
              (<[TileEvent.location_key ev :=
                   default [] (events w !! TileEvent.location_key ev) ++ [r]]>
                 (events w))
              (trace w)
  | None => w
  end.

(** Following the spec's words on [active]: "parallel sequence of booleans,
    one per activation direction".  The flag of [d] is the element of
    [active] at the index of [d] in [activation_directions]; a direction that
    is not among them has no flag. *)
Definition flag_set (e : TileEvent.t) (d : directions) : bool :=
  match list_find (λ a, a = d) (TileEvent.activation_directions e) with
  | Some (i, _) => truthy (mjoin (items (TileEvent.active e) !! i))
  | None => false
  end.

(** ** A concrete scene

    The scenario of the spec: an object owning two events, at (3,3) and
    (3,4), a static Jump event two tiles to the left of the first and a
    dynamic one two tiles above it; the hero stands left of the object,
    faces right and asks to push right. *)

Definition jump_at (x y : Z) (dynamic : bool) : TileEvent.ctor_args :=
  TileEvent.CtorArgs JUMP x y (Some (Many [left; right; up; down]))
                     (Single 0) dynamic (Single true) None Undefined.

Definition scene_created : list loc * (TileEvent.statics * gmap loc TileEvent.t) :=
  create_all [jump_at 3 3 false; jump_at 3 4 false; jump_at 1 3 false; jump_at 3 1 true]
             (TileEvent.Statics 0 ∅, ∅).

Definition scene_world : World :=
  foldl (λ w r, register r w) (MkWorld (snd (snd scene_created)) ∅ [])
        (fst scene_created).

Definition scene_object : InteractableObject :=
  MkObject 56 56 56 56 (take 2 (fst scene_created)) 0 0 3 3.

Definition scene_data : Data :=
  MkData true "right" "right" false false false "walk" (Some 1%nat)
         40 56 40 56 40 56 2 3 16 16.

(** The same request while the hero casts a psynergy. *)
Definition scene_data_casting : Data :=
  MkData true "right" "right" true false false "cast" (Some 1%nat)
         40 56 40 56 40 56 2 3 16 16.

(** The outcome of that push, with the models above for the imported parts
    and a push shift of 16 pixels. *)
Definition scene_pushed : outcome :=
  default (MkOutcome scene_data scene_object scene_world None)
          (fire_push_movement get_surroundings_model opposite_direction
                              active_jump_surroundings_model 16
                              scene_data scene_object false false false scene_world).

Definition scene_normal_push : outcome :=
  default (MkOutcome scene_data scene_object scene_world None)
          (normal_push get_surroundings_model opposite_direction
                       active_jump_surroundings_model 16
                       scene_data scene_object scene_world).

(** The world after the relocation of the first owned event alone. *)
Definition scene_first_relocated : World :=
  default scene_world
          (relocate_event get_surroundings_model opposite_direction
                          active_jump_surroundings_model scene_object 1 0 0%nat
                          scene_world).

(** The world after the push, run as a sequence of one call. *)
Definition scene_after_pushes : World :=
  default scene_world
          (run_pushes get_surroundings_model opposite_direction
                      active_jump_surroundings_model 16
                      [NormalPush scene_data scene_object] scene_world).

(** The hero standing above the object while asking to push right. *)
Definition scene_data_misaligned : Data :=
  MkData true "right" "right" false false false "walk" (Some 1%nat)
         56 40 56 40 56 40 3 2 16 16.

(** A Jump event that only knows the direction [up], created inactive. *)
Definition up_only_event : TileEvent.t :=
  TileEvent.init 0 (TileEvent.CtorArgs JUMP 0 0 (Some (Single up)) Undefined
                                       false (Single false) None Undefined).

(** The hero standing right of the object, facing left and asking to push
    left. *)
Definition scene_data_left : Data :=
  MkData true "left" "left" false false false "walk" (Some 1%nat)
         72 56 72 56 72 56 4 3 16 16.

(** The outcome of the push to the right followed by a push to the left. *)
Definition scene_pushed_back : outcome :=
  default scene_pushed
          (fire_push_movement get_surroundings_model opposite_direction
                              active_jump_surroundings_model 16
                              scene_data_left (o_object scene_pushed) false false false
                              (o_world scene_pushed)).

(** A request with a direction that is none of the four cardinals. *)
Definition scene_data_diagonal : Data :=
  MkData true "up_left" "up_left" false false false "walk" (Some 1%nat)
         40 56 40 56 40 56 2 3 16 16.

(** The outcome of a target-only push with that request. *)
Definition scene_target_only_diagonal : outcome :=
  default (MkOutcome scene_data_diagonal scene_object scene_world None)
          (target_only_push get_surroundings_model opposite_direction
                            active_jump_surroundings_model 16
                            scene_data_diagonal scene_object true true scene_world).

(** The events of the scene with an empty registry. *)
Definition scene_world_unfiled : World :=
  MkWorld (heap scene_world) ∅ [].

(** The scene on other layers: an object with a jump collide layer shift of
    1 on base collider layer 2 owns one event at (3,3); around it stand a
    static Jump event on layer 3 two tiles to the left, a static one on layer
    0 two tiles to the right, a static one on layer 1 two tiles below and a
    dynamic one on layer 3 two tiles above. *)
Definition jump_on (layer x y : Z) (dynamic : bool) : TileEvent.ctor_args :=
  TileEvent.CtorArgs JUMP x y (Some (Many [left; right; up; down]))
                     (Single layer) dynamic (Single true) None Undefined.

Definition layered_created : list loc * (TileEvent.statics * gmap loc TileEvent.t) :=
  create_all [jump_on 3 3 3 false; jump_on 3 1 3 false; jump_on 0 5 3 false;
              jump_on 1 3 5 false; jump_on 3 3 1 true]
             (TileEvent.Statics 0 ∅, ∅).

Definition layered_world : World :=
  foldl (λ w r, register r w) (MkWorld (snd (snd layered_created)) ∅ [])
        (fst layered_created).

Definition layered_object : InteractableObject :=
  MkObject 56 56 56 56 (take 1 (fst layered_created)) 1 2 3 3.

(** The world after the relocation of the owned event one tile to the
    right. *)
Definition layered_relocated : World :=
  default layered_world
          (relocate_event get_surroundings_model opposite_direction
                          active_jump_surroundings_model layered_object 1 0 0%nat
                          layered_world).

(** ** Predicates of the statements *)

(** A string without the character [c]. *)
Fixpoint free_of (c : ascii) (s : string) : Prop :=
  match s with
  | EmptyString => True
  | String a s' => a ≠ c ∧ free_of c s'
  end.

(** An event without its activation flags: what a relocation reads and
    writes. *)
Definition erase_active (e : TileEvent.t) : TileEvent.t :=
  TileEvent.set_active (JsArray [] ∅) e.

Definition skeleton (h : gmap loc TileEvent.t) : gmap loc TileEvent.t :=
  erase_active <$> h.

(** The bucket of [k], empty when the registry has no key [k]. *)
Definition bucket_of (w : World) (k : string) : list loc :=
  default [] (events w !! k).

(** No two events of the heap share an id. *)
Definition ids_unique (h : gmap loc TileEvent.t) : Prop :=
  ∀ r1 r2 e1 e2, h !! r1 = Some e1 → h !! r2 = Some e2 →
                 TileEvent.id e1 = TileEvent.id e2 → r1 = r2.

(** Every id of the heap was handed out before the counter reached [n]. *)
Definition ids_below (n : nat) (h : gmap loc TileEvent.t) : Prop :=
  ∀ r e, h !! r = Some e → (TileEvent.id e < n)%nat.

(** Every key of the registry has a non-empty bucket. *)
Definition buckets_nonempty (w : World) : Prop :=
  ∀ k l, events w !! k = Some l → l ≠ [].

(** Every event of a bucket carries the key of that bucket. *)
Definition filed_under_own_key (w : World) : Prop :=
  ∀ k l r, events w !! k = Some l → r ∈ l →
           ∃ ev, heap w !! r = Some ev ∧ TileEvent.location_key ev = k.

(** The bucket at the key of a registered event, when present, contains the
    event. *)
Definition bucket_contains_its_events (w : World) : Prop :=
  ∀ r ev, (∃ k l, events w !! k = Some l ∧ r ∈ l) → heap w !! r = Some ev →
          ∀ l, events w !! TileEvent.location_key ev = Some l → r ∈ l.

(** Every event of the heap sits in the bucket of its key: the heap holds
    the events of this map and no others. *)
Definition every_event_filed (w : World) : Prop :=
  ∀ r ev, heap w !! r = Some ev → r ∈ bucket_of w (TileEvent.location_key ev).

(** The registry as a map load leaves it. *)
Definition registry_wf (w : World) : Prop :=
  buckets_nonempty w ∧ filed_under_own_key w ∧ ids_unique (heap w).

(** Every reference of the registry is live. *)
Definition registry_live (w : World) : Prop :=
  ∀ k l r, events w !! k = Some l → r ∈ l → is_Some (heap w !! r).

(** Every listed event is live and sits in the bucket of its key. *)
Definition all_registered (evs : list loc) (w : World) : Prop :=
  ∀ r, r ∈ evs →
       ∃ ev, heap w !! r = Some ev ∧ r ∈ bucket_of w (TileEvent.location_key ev).

(** [w'] differs from [w] in activation flags only. *)
Definition same_but_flags (w w' : World) : Prop :=
  events w' = events w ∧ trace w' = trace w ∧
  skeleton (heap w') = skeleton (heap w).

(** What the proofs assume of [JumpEvent.active_jump_surroundings]: it
    changes activation flags and nothing else. *)
Definition only_flags_change (f : World → list surrounding → Z → World) : Prop :=
  ∀ w surroundings layer, same_but_flags w (f w surroundings layer).

(** The five entry conditions of a normal push, as the spec lists them. *)
Definition entry_conditions (d : Data) : Prop :=
  trying_to_push d = true ∧
  trying_to_push_direction d ∈ ["up"; "down"; "left"; "right"]%string ∧
  trying_to_push_direction d = actual_direction d ∧
  casting_psynergy d = false ∧
  jumping d = false.

(** The unit vector of a cardinal direction. *)
Definition unit_vector (direction : string) : option (Z * Z) :=
  if decide (direction = "up"%string) then Some (0, -1)
  else if decide (direction = "down"%string) then Some (0, 1)
  else if decide (direction = "left"%string) then Some (-1, 0)
  else if decide (direction = "right"%string) then Some (1, 0)
  else None.

Definition is_registry_write (e : effect) : Prop :=
  match e with RegistryWrite _ => True | _ => False end.

Definition is_tween_or_hook (e : effect) : Prop :=
  match e with TweenStart _ _ _ | BeforeMove _ _ => True | _ => False end.

(** The state of an event [r], formerly [ev], after a relocation by
    [(dx, dy)] has brought the world to [w']. *)
Definition relocated (dx dy : Z) (r : loc) (ev : TileEvent.t) (w' : World) : Prop :=
  ∃ ev', heap w' !! r = Some ev' ∧
         TileEvent.x ev' = TileEvent.x ev + dx ∧
         TileEvent.y ev' = TileEvent.y ev + dy ∧
         TileEvent.location_key ev'
         = TileEvent.get_location_key (TileEvent.x ev') (TileEvent.y ev') ∧
         (∃ l, events w' !! TileEvent.location_key ev' = Some l ∧ r ∈ l) ∧
         (∀ l, events w' !! TileEvent.location_key ev = Some l → r ∉ l).

(** The flag of [d] reads [false]. *)
Definition deactivated_at (e : TileEvent.t) (d : directions) : Prop :=
  array_get (TileEvent.active e) (indexOf (TileEvent.activation_directions e) d)
  = Some false.

(** The events the loop of lines 83-97 deactivates. *)
Definition static_jump_on_layer (layer : Z) (e : TileEvent.t) : Prop :=
  TileEvent.type e = JUMP ∧ TileEvent.dynamic e = false ∧
  layer ∈ TileEvent.activation_collision_layers e.

(** [w'] differs from [w] by flags that were cleared: the registry is the
    same, every event keeps everything but its flags, a flag that read
    [false] still does, and an event that is not a static Jump event on
    [layer] is untouched. *)
Definition cleared_only (layer : Z) (w w' : World) : Prop :=
  events w' = events w ∧
  ∀ r e, heap w !! r = Some e →
         ∃ e', heap w' !! r = Some e' ∧ erase_active e' = erase_active e ∧
               (∀ d, deactivated_at e d → deactivated_at e' d) ∧
               (¬ static_jump_on_layer layer e → e' = e).

(** ** Further definitions from [TileEvent.ts] *)

(** [static get_event_by_id(events, id)]: lodash's [_.find(events, {id: id})],
    the first event of the collection whose [id] is [i]. *)
Definition get_event_by_id (h : gmap loc TileEvent.t) (events : list loc) (i : nat)
  : option loc :=
  snd <$> list_find (λ r, TileEvent.id <$> h !! r = Some i) events.

(** The first index of [d] among the activation directions of [e]. *)
Definition direction_index (e : TileEvent.t) (d : directions) : option nat :=
  fst <$> list_find (λ a, a = d) (TileEvent.activation_directions e).

(** An [active] array with one boolean per activation direction and no
    hole, as [new Array(n).fill(b)] builds it. *)
Definition one_flag_per_direction (e : TileEvent.t) : Prop :=
  length (items (TileEvent.active e)) = length (TileEvent.activation_directions e) ∧
  Forall is_Some (items (TileEvent.active e)).


(** The object a call of an entry point of [push.js] is handed. *)
Definition pushed_object (c : push_call) : InteractableObject :=
  match c with
  | NormalPush _ o => o
  | TargetOnlyPush _ o _ _ => o
  end.

(** No bucket of the registry lists an event twice. *)
Definition filed_once (w : World) : Prop :=
  ∀ k l, events w !! k = Some l → NoDup l.

(** The event is live, carries the key of its coordinates and sits in the
    bucket of that key. *)
Definition filed_at_position (w : World) (r : loc) : Prop :=
  ∃ ev, heap w !! r = Some ev ∧
        TileEvent.location_key ev
        = TileEvent.get_location_key (TileEvent.x ev) (TileEvent.y ev) ∧
        r ∈ bucket_of w (TileEvent.location_key ev).


(** * The battle animation manager of [TileEvent.ts]

    The class [BattleAnimationManager] keeps the animations that are loaded
    and not yet played, and the keys whose load failed.  [Phaser]'s loader and
    cache and the class [BattleAnimation] are not in [src/]: calls into them
    are recorded in a log.  [load_animation] and [play] are [async]: each is
    modelled as the part that runs at the call and the continuation that runs
    when the awaited promise resolves, with the suspended calls kept in the
    state. *)

(** A JavaScript object used as a map from strings that are not array
    indices: its own keys in insertion order. *)
Definition js_object (A : Type) : Type := list (string * A).

(** [key in o]. *)
Definition obj_has {A} (o : js_object A) (key : string) : bool :=
  bool_decide (key ∈ o.*1).

(** [o[key]]; [None] is [undefined]. *)
Definition obj_get {A} (o : js_object A) (key : string) : option A :=
  (λ p, snd (snd p)) <$> list_find (λ p, fst p = key) o.

(** [o[key] = v]: an own key keeps its place, a new key goes last. *)
Fixpoint obj_set {A} (o : js_object A) (key : string) (v : A) : js_object A :=
  match o with
  | [] => [(key, v)]
  | p :: o' => if decide (fst p = key) then (key, v) :: o' else p :: obj_set o' key v
  end.

(** [delete o[key]]. *)
Definition obj_delete {A} (o : js_object A) (key : string) : js_object A :=
  filter (λ p, fst p ≠ key) o.

(** [s.split(sep)[0]]: the part of [s] before the first [sep], all of [s]
    when there is none. *)
Fixpoint split_head (sep : ascii) (s : string) : string :=
  match s with
  | EmptyString => EmptyString
  | String a s' => if decide (a = sep) then EmptyString else String a (split_head sep s')
  end.

Module BattleAnimationManager.

Inductive animation_availability := AVAILABLE | NOT_AVAILABLE | NO_ANIMATION.

Definition ANIMATIONS_BASE_PATH : string := "assets/images/abilities_animations/".
Definition ANIMATIONS_DB_PATH : string := "assets/dbs/abilities_animations/".
Definition ANIMATION_SUFFIX : string := "_battle_animation".
Definition RECIPE_SUFFIX : string := "_battle_recipe".

Section Manager.

(** What [game.cache.getJSON] returns for a recipe key. *)
Context {Recipe : Type}.

(** An object made by [new BattleAnimation(...)] at lines 200-226: the
    [n]-th object the manager made, from a recipe and the mirror flag. *)
Record BattleAnimation := MkAnimation {
  object_id : nat;
  animation_recipe : Recipe;
  mirrored_animation : bool
}.

(** The calls into [Phaser] and [BattleAnimation]. *)
Inductive effect :=
| AtlasJSONHash (key texture_url atlas_url : string)
| LoadJSON (key url : string)
| LoaderStart
| GetJSON (key : string)
| Initialize (animation : BattleAnimation) (sprite_key : string)
| PlayAnimation (animation : BattleAnimation)
| RenderAnimation (animation : BattleAnimation)
| RemoveTextureAtlas (key : string)
| RemoveJSON (key : string).

(** A call of [load_animation] suspended at line 196, with the arguments its
    continuation reads. *)
Record suspended_load := MkLoad {
  l_battle_anim_key : string;
  l_caster_battle_key : string;
  l_mirrored_animation : bool
}.

Record t := Mk {
  animations : js_object BattleAnimation;
  not_available : gset string;
  render_function : option BattleAnimation;
  (** calls of [load_animation] suspended at line 196 *)
  awaiting_load : list suspended_load;
  (** the [key] of each call of [play] suspended at line 267 *)
  awaiting_play : list string;
  objects_made : nat;
  log : list effect
}.

(** The constructor, lines 153-159. *)
Definition new : t := Mk [] ∅ None [] [] 0 [].

Definition animation_key (battle_anim_key caster_battle_key : string) : string :=
  battle_anim_key +:+ "/" +:+ caster_battle_key.

(** [load_animation], lines 162-195: up to the [await]. *)
Definition load_animation (battle_anim_key caster_battle_key : string)
  (mirrored : bool) (m : t) : t :=
  if bool_decide (battle_anim_key ∈ not_available m)
     || bool_decide (battle_anim_key = "no_animation"%string)
  then m
  else
    let sprite_key := battle_anim_key +:+ ANIMATION_SUFFIX in
    let recipe_key := battle_anim_key +:+ RECIPE_SUFFIX in
    Mk (animations m) (not_available m) (render_function m)
       (awaiting_load m ++ [MkLoad battle_anim_key caster_battle_key mirrored])
       (awaiting_play m) (objects_made m)
       (log m ++ [AtlasJSONHash sprite_key
                    (ANIMATIONS_BASE_PATH +:+ battle_anim_key +:+ ".png")
                    (ANIMATIONS_BASE_PATH +:+ battle_anim_key +:+ ".json");
                  LoadJSON recipe_key
                    (ANIMATIONS_DB_PATH +:+ battle_anim_key +:+ "_db.json");
                  LoaderStart]).

(** [load_animation], lines 197-229: the continuation of the [i]-th
    suspended call, run with the value [all_succeed] has by then and with
    what [game.cache.getJSON] returns ([None] is [null]: reading its
    [key_name] throws and nothing is stored).  [None] when no such call is
    suspended. *)
Definition load_animation_resume (i : nat) (all_succeed : bool)
  (recipe : option Recipe) (m : t) : option t :=
  call ← awaiting_load m !! i;
  let rest := delete i (awaiting_load m) in
  Some
    (if all_succeed then
       let got := log m ++ [GetJSON (l_battle_anim_key call +:+ RECIPE_SUFFIX)] in
       match recipe with
       | Some animation_recipe =>
           let key := animation_key (l_battle_anim_key call) (l_caster_battle_key call) in
           Mk (obj_set (animations m) key
                 (MkAnimation (objects_made m) animation_recipe
                              (l_mirrored_animation call)))
              (not_available m) (render_function m) rest (awaiting_play m)
              (S (objects_made m)) got
       | None =>
           Mk (animations m) (not_available m) (render_function m) rest
              (awaiting_play m) (objects_made m) got
       end
     else
       Mk (animations m) ({[l_battle_anim_key call]} ∪ not_available m)
          (render_function m) rest (awaiting_play m) (objects_made m) (log m)).

(** [animation_available], lines 232-237. *)
Definition animation_available (battle_anim_key caster_battle_key : string) (m : t)
  : animation_availability :=
  let key := animation_key battle_anim_key caster_battle_key in
  if obj_has (animations m) key then AVAILABLE
  else if bool_decide (battle_anim_key = "no_animation"%string) then NO_ANIMATION
  else NOT_AVAILABLE.

(** [play], lines 248-266: up to the [await].  The sprites, the groups and
    the battle stage are handed to [initialize] as they come. *)
Definition play (battle_anim_key caster_battle_key : string) (m : t) : t :=
  let key := animation_key battle_anim_key caster_battle_key in
  match obj_get (animations m) key with
  | None => m
  | Some animation =>
      let sprite_key := battle_anim_key +:+ ANIMATION_SUFFIX in
      Mk (animations m) (not_available m) (Some animation) (awaiting_load m)
         (awaiting_play m ++ [key]) (objects_made m)
         (log m ++ [Initialize animation sprite_key; PlayAnimation animation])
  end.

(** [play], lines 268-269: the continuation of the [i]-th suspended call. *)
Definition play_resume (i : nat) (m : t) : option t :=
  key ← awaiting_play m !! i;
  Some (Mk (obj_delete (animations m) key) (not_available m) None (awaiting_load m)
           (delete i (awaiting_play m)) (objects_made m) (log m)).

(** [render], lines 272-276. *)
Definition render (m : t) : t :=
  match render_function m with
  | Some animation =>
      Mk (animations m) (not_available m) (render_function m) (awaiting_load m)
         (awaiting_play m) (objects_made m) (log m ++ [RenderAnimation animation])
  | None => m
  end.

(** [destroy], lines 278-284. *)
Definition destroy (m : t) : t :=
  Mk (animations m) (not_available m) (render_function m) (awaiting_load m)
     (awaiting_play m) (objects_made m)
     (log m ++ flat_map (λ p, let battle_anim_key := split_head "/" (fst p) in
                              [RemoveTextureAtlas (battle_anim_key +:+ ANIMATION_SUFFIX);
                               RemoveJSON (battle_anim_key +:+ RECIPE_SUFFIX)])
                        (animations m)).

(** What can happen to a manager: a call of one of its methods, or the
    scheduler running a suspended continuation. *)
Inductive event :=
| LoadAnimation (battle_anim_key caster_battle_key : string) (mirrored : bool)
| LoadResolved (i : nat) (all_succeed : bool) (recipe : option Recipe)
| Play (battle_anim_key caster_battle_key : string)
| PlayResolved (i : nat)
| Render
| Destroy.

(** One event; the scheduler has nothing to run when the continuation it
    names is not suspended. *)
Definition run_event (e : event) (m : t) : t :=
  match e with
  | LoadAnimation k c mirrored => load_animation k c mirrored m
  | LoadResolved i all_succeed recipe =>
      default m (load_animation_resume i all_succeed recipe m)
  | Play k c => play k c m
  | PlayResolved i => default m (play_resume i m)
  | Render => render m
  | Destroy => destroy m
  end.

Definition run_events (es : list event) (m : t) : t :=
  foldl (λ m e, run_event e m) m es.

End Manager.

Arguments BattleAnimation : clear implicits.
Arguments effect : clear implicits.
Arguments t : clear implicits.
Arguments event : clear implicits.

End BattleAnimationManager.


(** The battle animation keys of the loads among the events have no ["/"]. *)
Definition loads_slash_free {Recipe} (es : list (BattleAnimationManager.event Recipe))
  : Prop :=
  Forall (λ e, match e with
               | BattleAnimationManager.LoadAnimation k _ _ => free_of "/" k
               | _ => True
               end) es.

(** Every key of [animations] and every suspended load was made from a
    battle animation key without ["/"] other than ["no_animation"]. *)
Definition keys_well_formed {Recipe} (m : BattleAnimationManager.t Recipe) : Prop :=
  (∀ call, call ∈ BattleAnimationManager.awaiting_load m →
     free_of "/" (BattleAnimationManager.l_battle_anim_key call) ∧
     BattleAnimationManager.l_battle_anim_key call ≠ "no_animation"%string) ∧
  (∀ key, key ∈ (BattleAnimationManager.animations m).*1 →
     ∃ k c, key = BattleAnimationManager.animation_key k c ∧
            free_of "/" k ∧ k ≠ "no_animation"%string).


(** * The control manager of [ControlManager.ts]

    The manager keeps sets of signal bindings: the current set, which a
    reset detaches, and every set it has made, by key.  [Phaser]'s signals
    and timers, the gamepad and the audio are not in [src/]: a binding is an
    object with the listener it was made for and whether it was detached;
    timers, sounds and callbacks are recorded in a log; what a listener reads
    from the gamepad is handed to it.  Control objects and their [params]
    objects live in a heap, since [apply_control_params] writes to them and
    the listeners read them when they run. *)

(** [ToInt32] of an integer. *)
Definition to_int32 (z : Z) : Z := (z + 2 ^ 31) `mod` 2 ^ 32 - 2 ^ 31.

(** The truth value of a number that may be [undefined]. *)
Definition truthy_number (n : option Z) : bool :=
  match n with Some n => bool_decide (n ≠ 0) | None => false end.

(** The truth value of a string that may be [undefined]. *)
Definition truthy_string (s : option string) : bool :=
  match s with Some s => bool_decide (s ≠ ""%string) | None => false end.

Module Button.

(** Modelled from the imports: the members of the enum [Button] of
    [XGamepad] (not in [src/]) that [ControlManager.ts] names, and the other
    values of [AnyButton]. *)
Inductive t := A | B | L | R | UP | DOWN | LEFT | RIGHT | Other (n : nat).

#[global] Instance eq_dec : EqDecision t.
Proof. solve_decision. Defined.

End Button.

Module ControlManager.

(** A function handed to the manager: known by its identity, recorded when
    it is called. *)
Definition callback : Type := nat.

(** [control.sfx]. *)
Record sfx_names := Sfx {
  sfx_up : option string;
  sfx_down : option string
}.

(** [control.params]. *)
Record control_params := ControlParamsOf {
  reset_controls : option bool;
  loop_time : option Z
}.

(** [control.buttons]: a button or an array of buttons. *)
Inductive button_or_array :=
| OneButton (b : Button.t)
| ButtonArray (l : list Button.t).

(** The type [Control]; [params] is a reference to a [params] object. *)
Record Control := MkControl {
  button : option Button.t;
  buttons : option button_or_array;
  on_down : option callback;
  on_up : option callback;
  params : option loc;
  sfx : option sfx_names
}.

Record loop_config_type := LoopConfig {
  vertical : option bool;
  vertical_time : option Z;
  horizontal : option bool;
  horizontal_time : option Z;
  shoulder : option bool;
  shoulder_time : option Z
}.

(** The type [ControlParams]. *)
Record ControlParams := MkControlParams {
  loop_config : option loop_config_type;
  persist : option bool;
  no_initial_reset : option bool
}.

(** The type [SimpleControlParams]. *)
Record SimpleControlParams := MkSimpleControlParams {
  reset_on_press : option bool;
  confirm_only : option bool;
  simple_persist : option bool;
  simple_no_initial_reset : option bool
}.

(** The value of [button] at line 179: a button, the empty array of an
    empty combo, or [undefined]. *)
Inductive button_value :=
| ButtonOf (b : Button.t)
| EmptyArray
| NoButton.

(** The two signals of a gamepad button. *)
Inductive edge := OnUp | OnDown.

(** The four listeners of [enable_controls], each with what its closure
    captures: lines 183-188, 200-213, 214-220 and 224-233. *)
Inductive listener :=
| UpListener (control : loc)
| LoopDownListener (control : loc) (button : button_value) (loop_time : Z)
| LoopUpListener
| DownListener (control : loc) (buttons : option (list Button.t))
               (trigger_reset : option bool).

(** A [Phaser.SignalBinding]: the signal it was added to, its listener, and
    whether [detach()] was called on it. *)
Record SignalBinding := MkBinding {
  b_button : button_value;
  b_edge : edge;
  b_listener : listener;
  b_detached : bool
}.

Inductive timer := LoopStartTimer | LoopRepeatTimer.

(** The calls into the audio, the timers, the gamepad and the callbacks.
    [TimerAdd] and [TimerLoop] carry what the closure they schedule
    captures. *)
Inductive effect :=
| PlaySe (name : string)
| Call (f : callback)
| TimerStop (t : timer)
| TimerAdd (delay : Z) (f : callback) (loop_time : Z) (sfx : option string)
| TimerLoop (loop_time : Z) (f : callback) (sfx : option string)
| TimerStart (t : timer)
| ForceRelease (b : Button.t).

(** The manager, and the objects it refers to: a binding is a position of
    [signal_binding_objects]. *)
Record t := Mk {
  disabled : bool;
  current_signal_bindings : list nat;
  current_set_key : option nat;
  signal_bindings : gmap nat (list nat);
  control_objects : gmap loc Control;
  params_objects : gmap loc control_params;
  signal_binding_objects : list SignalBinding;
  log : list effect
}.

(** The constructor, lines 71-84, with the heap as it is. *)
Definition new (controls : gmap loc Control) (params : gmap loc control_params) : t :=
  Mk false [] None ∅ controls params [] [].

Definition emit (es : list effect) (s : t) : t :=
  Mk (disabled s) (current_signal_bindings s) (current_set_key s) (signal_bindings s)
     (control_objects s) (params_objects s) (signal_binding_objects s) (log s ++ es).

Definition set_disabled (b : bool) (s : t) : t :=
  Mk b (current_signal_bindings s) (current_set_key s) (signal_bindings s)
     (control_objects s) (params_objects s) (signal_binding_objects s) (log s).

Definition set_current_signal_bindings (l : list nat) (s : t) : t :=
  Mk (disabled s) l (current_set_key s) (signal_bindings s)
     (control_objects s) (params_objects s) (signal_binding_objects s) (log s).

Definition set_current_set_key (k : option nat) (s : t) : t :=
  Mk (disabled s) (current_signal_bindings s) k (signal_bindings s)
     (control_objects s) (params_objects s) (signal_binding_objects s) (log s).

Definition set_signal_bindings (m : gmap nat (list nat)) (s : t) : t :=
  Mk (disabled s) (current_signal_bindings s) (current_set_key s) m
     (control_objects s) (params_objects s) (signal_binding_objects s) (log s).

Definition set_control_objects (h : gmap loc Control) (s : t) : t :=
  Mk (disabled s) (current_signal_bindings s) (current_set_key s) (signal_bindings s)
     h (params_objects s) (signal_binding_objects s) (log s).

Definition set_params_objects (h : gmap loc control_params) (s : t) : t :=
  Mk (disabled s) (current_signal_bindings s) (current_set_key s) (signal_bindings s)
     (control_objects s) h (signal_binding_objects s) (log s).

Definition set_signal_binding_objects (l : list SignalBinding) (s : t) : t :=
  Mk (disabled s) (current_signal_bindings s) (current_set_key s) (signal_bindings s)
     (control_objects s) (params_objects s) l (log s).

(** The getter [initialized], lines 86-88. *)
Definition initialized (s : t) : nat := length (current_signal_bindings s).

(** [bind.detach()]. *)
Definition detach (bind : nat) (s : t) : t :=
  set_signal_binding_objects
    (alter (λ sb, MkBinding (b_button sb) (b_edge sb) (b_listener sb) true) bind
           (signal_binding_objects s)) s.

(** [stop_timers], lines 294-297. *)
Definition stop_timers (s : t) : t :=
  emit [TimerStop LoopStartTimer; TimerStop LoopRepeatTimer] s.

(** [detach_bindings], lines 303-306. *)
Definition detach_bindings (key : nat) (s : t) : t :=
  let s := match signal_bindings s !! key with
           | Some set => foldl (λ s bind, detach bind s) s set
           | None => s
           end in
  set_signal_bindings (delete key (signal_bindings s)) s.

(** [reset], lines 312-322. *)
Definition reset (detach_current : bool) (s : t) : t :=
  let s := stop_timers s in
  if detach_current then
    let s := foldl (λ s bind, detach bind s) s (current_signal_bindings s) in
    let s := set_current_signal_bindings [] s in
    let s := match current_set_key s with
             | Some key => if bool_decide (key ≠ 0%nat) then detach_bindings key s else s
             | None => s
             end in
    set_current_set_key None s
  else s.

(** The loop of lines 276-284 from index [i]; [None] when the fuel runs
    out. *)
Fixpoint make_key_from (fuel i : nat) (sets : gmap nat (list nat)) : option nat :=
  match fuel with
  | O => None
  | S fuel => if decide (is_Some (sets !! i)) then make_key_from fuel (S i) sets
              else Some i
  end.

(** [make_key], lines 272-289. *)
Definition make_key (s : t) : option (nat * t) :=
  i ← make_key_from (S (size (signal_bindings s))) 0 (signal_bindings s);
  Some (i, set_signal_bindings (<[i := []]> (signal_bindings s)) s).

(** [signal.add(listener)]: a new binding. *)
Definition signal_add (b : button_value) (e : edge) (l : listener) (s : t) : nat * t :=
  (length (signal_binding_objects s),
   set_signal_binding_objects (signal_binding_objects s ++ [MkBinding b e l false]) s).

(** [register], lines 169-172, on the local [bindings] and the manager. *)
Definition register (persist : option bool) (sb : nat) (acc : list nat * t)
  : list nat * t :=
  let '(bindings, s) := acc in
  (bindings ++ [sb],
   if truthy persist then s
   else set_current_signal_bindings (current_signal_bindings s ++ [sb]) s).

(** Line 179. *)
Definition last_button (control : Control) : button_value :=
  match buttons control with
  | Some (ButtonArray l) => match last l with Some b => ButtonOf b | None => EmptyArray end
  | Some (OneButton b) => ButtonOf b
  | None => match button control with Some b => ButtonOf b | None => NoButton end
  end.

(** The body of the loop of lines 174-237 for one control; [None] when the
    control or its [params] is not an object of the heap. *)
Definition enable_control (persist : option bool) (c : loc) (acc : list nat * t)
  : option (list nat * t) :=
  control ← control_objects (snd acc) !! c;
  let combo := match buttons control with Some (ButtonArray l) => Some l | _ => None end in
  let b := last_button control in
  let acc := match on_up control with
             | Some _ =>
                 let '(sb, s) := signal_add b OnUp (UpListener c) (snd acc) in
                 register persist sb (fst acc, s)
             | None => acc
             end in
  match on_down control with
  | Some _ =>
      prm ← match params control with
             | Some p => Some <$> params_objects (snd acc) !! p
             | None => Some None
             end;
      let trigger_reset := prm ≫= reset_controls in
      match prm ≫= loop_time with
      | Some time =>
          if bool_decide (time ≠ 0) then
            let '(b1, s) := signal_add b OnDown (LoopDownListener c b time) (snd acc) in
            let '(b2, s) := signal_add b OnUp LoopUpListener s in
            Some (register persist b2 (register persist b1 (fst acc, s)))
          else
            let '(sb, s) := signal_add b OnDown (DownListener c combo trigger_reset)
                                       (snd acc) in
            Some (register persist sb (fst acc, s))
      | None =>
          let '(sb, s) := signal_add b OnDown (DownListener c combo trigger_reset)
                                     (snd acc) in
          Some (register persist sb (fst acc, s))
      end
  | None => Some acc
  end.

(** The loop of lines 174-237. *)
Fixpoint enable_each (persist : option bool) (controls : list loc) (acc : list nat * t)
  : option (list nat * t) :=
  match controls with
  | [] => Some acc
  | c :: rest => acc ← enable_control persist c acc; enable_each persist rest acc
  end.

(** [enable_controls], lines 167-245: the key and the manager. *)
Definition enable_controls (controls : list loc) (persist : option bool) (s : t)
  : option (nat * t) :=
  '(bindings, s) ← enable_each persist controls ([], s);
  let s := reset false s in
  '(key, s) ← make_key s;
  let s := set_signal_bindings (<[key := bindings]> (signal_bindings s)) s in
  Some (key, if truthy persist then s else set_current_set_key (Some key) s).

Section WithPhaser.

(** [Phaser.Timer.QUARTER]. *)
Variable QUARTER : Z.

Definition DEFAULT_LOOP_TIME : Z := Z.shiftr (to_int32 QUARTER) 1.

(** The [edits] of lines 140-153. *)
Definition edits_of (options : option loop_config_type) : list (Button.t * option Z) :=
  (if truthy (options ≫= vertical) || truthy_number (options ≫= vertical_time)
   then [(Button.UP, options ≫= vertical_time); (Button.DOWN, options ≫= vertical_time)]
   else [])
  ++ (if truthy (options ≫= horizontal) || truthy_number (options ≫= horizontal_time)
      then [(Button.LEFT, options ≫= horizontal_time);
            (Button.RIGHT, options ≫= horizontal_time)]
      else [])
  ++ (if truthy (options ≫= shoulder) || truthy_number (options ≫= shoulder_time)
      then [(Button.L, options ≫= shoulder_time); (Button.R, options ≫= shoulder_time)]
      else []).

(** [controls.find(c => c.button === b)], line 155: [Some None] when no
    control has the button, [None] when a control is not in the heap. *)
Fixpoint find_control (h : gmap loc Control) (controls : list loc) (b : Button.t)
  : option (option loc) :=
  match controls with
  | [] => Some None
  | c :: rest =>
      control ← h !! c;
      if decide (button control = Some b) then Some (Some c) else find_control h rest b
  end.

(** Lines 155-158 for one edit. *)
Definition apply_edit (controls : list loc) (edit : Button.t * option Z) (s : t)
  : option t :=
  found ← find_control (control_objects s) controls (fst edit);
  match found with
  | None => Some s
  | Some c =>
      control ← control_objects s !! c;
      let '(p, s) :=
        match params control with
        | Some p => (p, s)
        | None =>
            let p := fresh (dom (params_objects s)) in
            (p, set_control_objects
                  (<[c := MkControl (button control) (buttons control) (on_down control)
                                    (on_up control) (Some p) (sfx control)]>
                     (control_objects s))
                  (set_params_objects
                     (<[p := ControlParamsOf None None]> (params_objects s)) s))
        end in
      prm ← params_objects s !! p;
      Some (set_params_objects
              (<[p := ControlParamsOf (reset_controls prm)
                        (Some (default DEFAULT_LOOP_TIME (snd edit)))]>
                 (params_objects s)) s)
  end.

Fixpoint apply_edits (controls : list loc) (edits : list (Button.t * option Z)) (s : t)
  : option t :=
  match edits with
  | [] => Some s
  | edit :: rest => s ← apply_edit controls edit s; apply_edits controls rest s
  end.

(** [apply_control_params], lines 139-160. *)
Definition apply_control_params (controls : list loc) (params : ControlParams) (s : t)
  : option t :=
  apply_edits controls (edits_of (loop_config params)) s.

(** [add_controls], lines 125-132. *)
Definition add_controls (controls : list loc) (params : option ControlParams) (s : t)
  : option (nat * t) :=
  let disable_initial_reset := default false (params ≫= no_initial_reset) in
  let s := if bool_decide (initialized s ≠ 0%nat) && negb disable_initial_reset
           then reset true s else s in
  s ← match params with
       | Some p => apply_control_params controls p s
       | None => Some s
       end;
  enable_controls controls (params ≫= persist) s.

(** A control object literal of lines 97-102 and 106-112, allocated with
    its [params] object. *)
Definition new_simple_control (b : Button.t) (f : callback)
  (params : option SimpleControlParams) (sfx : option string) (s : t) : loc * t :=
  let p := fresh (dom (params_objects s)) in
  let c := fresh (dom (control_objects s)) in
  (c, set_control_objects
        (<[c := MkControl (Some b) None (Some f) None (Some p)
                  (if truthy_string sfx then Some (Sfx None sfx) else None)]>
           (control_objects s))
        (set_params_objects
           (<[p := ControlParamsOf (params ≫= reset_on_press) None]> (params_objects s))
           s)).

(** [add_simple_controls], lines 95-118. *)
Definition add_simple_controls (f : callback) (params : option SimpleControlParams)
  (sfx : option string) (s : t) : option (nat * t) :=
  let '(a, s) := new_simple_control Button.A f params sfx s in
  let '(controls, s) :=
    if bool_decide (params ≫= confirm_only ≠ Some true) then
      let '(b, s) := new_simple_control Button.B f params sfx s in ([a; b], s)
    else ([a], s) in
  match params with
  | Some p =>
      add_controls controls
        (Some (MkControlParams None (simple_persist p) (simple_no_initial_reset p))) s
  | None => add_controls controls None s
  end.

(** [if (sfx) this.audio.play_se(sfx)]. *)
Definition play_se (sfx : option string) : list effect :=
  match sfx with
  | Some name => if bool_decide (name ≠ ""%string) then [PlaySe name] else []
  | None => []
  end.

(** [start_loop_timers], lines 253-265; [None] when [callback] is
    [undefined] and calling it throws. *)
Definition start_loop_timers (f : option callback) (time : Z) (sfx : option string)
  (s : t) : option t :=
  f ← f;
  Some (emit (play_se sfx ++ [Call f; TimerAdd QUARTER f time sfx;
                              TimerStart LoopStartTimer]) s).

(** The closure of lines 257-263, run when the start timer elapses. *)
Definition loop_start_elapsed (f : callback) (time : Z) (sfx : option string) (s : t)
  : t :=
  emit [TimerLoop time f sfx; TimerStart LoopRepeatTimer] s.

(** The closure of lines 258-261, run at each tick of the repeat timer. *)
Definition loop_tick (f : callback) (sfx : option string) (s : t) : t :=
  emit (play_se sfx ++ [Call f]) s.

(** What a listener reads from the gamepad when it runs:
    [gamepad.is_down(b)], [gamepad.get_button(b).is_up] and
    [XGamepad.get_opposite_button(b)], [None] for a falsy answer. *)
Record gamepad_view := Gamepad {
  is_down : Button.t → bool;
  is_up : Button.t → bool;
  get_opposite_button : button_value → option Button.t
}.

(** The bodies of the four listeners; [None] when the listener throws:
    the control is not in the heap, or its callback is [undefined]. *)
Definition run_listener (l : listener) (g : gamepad_view) (s : t) : option t :=
  match l with
  | UpListener c =>
      if disabled s then Some s
      else
        control ← control_objects s !! c;
        f ← on_up control;
        Some (emit (play_se (sfx control ≫= sfx_up) ++ [Call f]) s)
  | LoopDownListener c b time =>
      if disabled s then Some s
      else
        let s := match get_opposite_button g b with
                 | Some opposite_button =>
                     if is_down g opposite_button
                     then stop_timers (emit [ForceRelease opposite_button] s)
                     else s
                 | None => s
                 end in
        control ← control_objects s !! c;
        start_loop_timers (on_down control) time (sfx control ≫= sfx_down) s
  | LoopUpListener =>
      if disabled s then Some s else Some (stop_timers s)
  | DownListener c combo trigger_reset =>
      if disabled s then Some s
      else if match combo with Some l => existsb (is_up g) l | None => false end
      then Some s
      else
        let s := if truthy trigger_reset then reset true s else s in
        control ← control_objects s !! c;
        f ← on_down control;
        Some (emit (play_se (sfx control ≫= sfx_down) ++ [Call f]) s)
  end.

(** A signal runs the listener of a binding, unless the binding was
    detached. *)
Definition dispatch (bind : nat) (g : gamepad_view) (s : t) : option t :=
  sb ← signal_binding_objects s !! bind;
  if b_detached sb then Some s else run_listener (b_listener sb) g s.

(** What can happen to a manager: a call of one of its methods, an
    assignment to [disabled], a signal running a listener, a timer running
    one of the closures of [start_loop_timers]. *)
Inductive event :=
| AddSimpleControls (f : callback) (params : option SimpleControlParams)
                    (sfx : option string)
| AddControls (controls : list loc) (params : option ControlParams)
| EnableControls (controls : list loc) (persist : option bool)
| StopTimers
| DetachBindings (key : nat)
| Reset (detach_current : bool)
| SetDisabled (b : bool)
| Dispatch (bind : nat) (g : gamepad_view)
| LoopStartElapsed (f : callback) (time : Z) (sfx : option string)
| LoopTick (f : callback) (sfx : option string).

Definition run_event (e : event) (s : t) : option t :=
  match e with
  | AddSimpleControls f params sfx => snd <$> add_simple_controls f params sfx s
  | AddControls controls params => snd <$> add_controls controls params s
  | EnableControls controls persist => snd <$> enable_controls controls persist s
  | StopTimers => Some (stop_timers s)
  | DetachBindings key => Some (detach_bindings key s)
  | Reset detach_current => Some (reset detach_current s)
  | SetDisabled b => Some (set_disabled b s)
  | Dispatch bind g => dispatch bind g s
  | LoopStartElapsed f time sfx => Some (loop_start_elapsed f time sfx s)
  | LoopTick f sfx => Some (loop_tick f sfx s)
  end.

Fixpoint run_events (es : list event) (s : t) : option t :=
  match es with
  | [] => Some s
  | e :: rest => s ← run_event e s; run_events rest s
  end.

End WithPhaser.

End ControlManager.


(** A binding that was made and not detached. *)
Definition attached (s : ControlManager.t) (bind : nat) : Prop :=
  ∃ sb, ControlManager.signal_binding_objects s !! bind = Some sb ∧
        ControlManager.b_detached sb = false.

(** Which bindings were detached, by position. *)
Definition detached_flags (s : ControlManager.t) : list bool :=
  ControlManager.b_detached <$> ControlManager.signal_binding_objects s.

(** Every binding the manager lists was made. *)
Definition bindings_made (s : ControlManager.t) : Prop :=
  (∀ bind, bind ∈ ControlManager.current_signal_bindings s →
           (bind < length (ControlManager.signal_binding_objects s))%nat) ∧
  (∀ key set bind, ControlManager.signal_bindings s !! key = Some set → bind ∈ set →
                   (bind < length (ControlManager.signal_binding_objects s))%nat).

(** The set at [key] is not the current set, its bindings are attached, and
    none of them is in the current set or in another set. *)
Definition kept_apart (key : nat) (set : list nat) (s : ControlManager.t) : Prop :=
  ControlManager.signal_bindings s !! key = Some set ∧
  ControlManager.current_set_key s ≠ Some key ∧
  ∀ bind, bind ∈ set →
    attached s bind ∧
    (bind ∉ ControlManager.current_signal_bindings s) ∧
    ∀ key' set', key' ≠ key → ControlManager.signal_bindings s !! key' = Some set' →
                 bind ∉ set'.

(** The sets and the bindings are the same in [s] and [s']: the two differ
    in [disabled], the log and the heap of controls at most. *)
Definition same_bindings (s s' : ControlManager.t) : Prop :=
  ControlManager.current_signal_bindings s' = ControlManager.current_signal_bindings s ∧
  ControlManager.current_set_key s' = ControlManager.current_set_key s ∧
  ControlManager.signal_bindings s' = ControlManager.signal_bindings s ∧
  ControlManager.signal_binding_objects s' = ControlManager.signal_binding_objects s.

(** The bindings a reset detaches: the current ones, and those of the set
    under the current key unless the key is falsy. *)
Definition reset_detaches (s : ControlManager.t) : list nat :=
  ControlManager.current_signal_bindings s
  ++ match ControlManager.current_set_key s with
     | Some key => if bool_decide (key ≠ 0%nat)
                   then default [] (ControlManager.signal_bindings s !! key) else []
     | None => []
     end.

(** [s'] is [s] with the bindings [gone] detached, and the bindings, the
    sets and the current set otherwise as in [s]. *)
Definition detached_only (gone : list nat) (s s' : ControlManager.t) : Prop :=
  length (ControlManager.signal_binding_objects s')
  = length (ControlManager.signal_binding_objects s) ∧
  ∀ bind, attached s' bind ↔ attached s bind ∧ bind ∉ gone.

(** What the loop of [enable_controls] has done to the local [bindings] and
    to the manager: it made the bindings [made], listed them in [bindings]
    and, unless [persist], in the current set. *)
Definition enabling (persist : option bool) (acc acc' : list nat * ControlManager.t)
  : Prop :=
  ∃ made,
    ControlManager.signal_binding_objects (snd acc')
    = ControlManager.signal_binding_objects (snd acc) ++ made ∧
    Forall (λ sb, ControlManager.b_detached sb = false) made ∧
    fst acc'
    = fst acc ++ seq (length (ControlManager.signal_binding_objects (snd acc)))
                     (length made) ∧
    ControlManager.current_signal_bindings (snd acc')
    = ControlManager.current_signal_bindings (snd acc)
      ++ (if truthy persist then []
          else seq (length (ControlManager.signal_binding_objects (snd acc)))
                   (length made)) ∧
    ControlManager.disabled (snd acc') = ControlManager.disabled (snd acc) ∧
    ControlManager.current_set_key (snd acc') = ControlManager.current_set_key (snd acc) ∧
    ControlManager.signal_bindings (snd acc') = ControlManager.signal_bindings (snd acc) ∧
    ControlManager.control_objects (snd acc') = ControlManager.control_objects (snd acc) ∧
    ControlManager.params_objects (snd acc') = ControlManager.params_objects (snd acc) ∧
    ControlManager.log (snd acc') = ControlManager.log (snd acc).

(** [s'] is [s] after a set of new bindings [set] was filed under the new
    key [key], as the current set unless [persist]. *)
Definition enabled_from (persist : bool) (key : nat) (set : list nat)
  (s s' : ControlManager.t) : Prop :=
  ControlManager.signal_bindings s !! key = None ∧
  (∀ j, (j < key)%nat → is_Some (ControlManager.signal_bindings s !! j)) ∧
  set = seq (length (ControlManager.signal_binding_objects s)) (length set) ∧
  ControlManager.signal_bindings s' = <[key := set]> (ControlManager.signal_bindings s) ∧
  (∃ made, ControlManager.signal_binding_objects s'
           = ControlManager.signal_binding_objects s ++ made ∧
           length made = length set ∧
           Forall (λ sb, ControlManager.b_detached sb = false) made) ∧
  ControlManager.current_signal_bindings s'
  = ControlManager.current_signal_bindings s ++ (if persist then [] else set) ∧
  ControlManager.current_set_key s'
  = (if persist then ControlManager.current_set_key s else Some key).

(** [s'] has the sets and the bindings of [s] after [reset()]. *)
Definition was_reset (s s' : ControlManager.t) : Prop :=
  ControlManager.signal_bindings s'
  = match ControlManager.current_set_key s with
    | Some key => if bool_decide (key ≠ 0%nat)
                  then delete key (ControlManager.signal_bindings s)
                  else ControlManager.signal_bindings s
    | None => ControlManager.signal_bindings s
    end ∧
  ControlManager.current_signal_bindings s' = [] ∧
  ControlManager.current_set_key s' = None ∧
  detached_only (reset_detaches s) s s'.

(** The controls and their [params] are objects of the heap. *)
Definition controls_live (s : ControlManager.t) (controls : list loc) : Prop :=
  ∀ c, c ∈ controls →
    ∃ control, ControlManager.control_objects s !! c = Some control ∧
               ∀ p, ControlManager.params control = Some p →
                    is_Some (ControlManager.params_objects s !! p).




(** ** A battle and a menu

    A battle animation manager with recipes named by strings, which loads
    ["fire"] for two casters, fails on one load and plays the other; and a
    control manager over a heap of two controls, a confirm button and a
    looping up button with an [on_up] callback. *)

Definition battle_loading : BattleAnimationManager.t string :=
  BattleAnimationManager.run_events
    [BattleAnimationManager.LoadAnimation "fire" "isaac" false;
     BattleAnimationManager.LoadAnimation "quake" "garet" true]
    BattleAnimationManager.new.

(** The first load failed, the second succeeded. *)
Definition battle_loaded : BattleAnimationManager.t string :=
  BattleAnimationManager.run_events
    [BattleAnimationManager.LoadResolved 0 false None;
     BattleAnimationManager.LoadResolved 0 true (Some "quake_recipe"%string)]
    battle_loading.

(** What happens next in the battle. *)
Definition battle_events : list (BattleAnimationManager.event string) :=
  [BattleAnimationManager.LoadAnimation "fire" "garet" false;
   BattleAnimationManager.Play "quake" "garet";
   BattleAnimationManager.Render;
   BattleAnimationManager.LoadAnimation "no_animation" "isaac" false;
   BattleAnimationManager.PlayResolved 0;
   BattleAnimationManager.Destroy].

Definition menu_controls : gmap loc ControlManager.Control :=
  {[ 0%nat := ControlManager.MkControl (Some Button.A) None (Some 7%nat) None None None;
     1%nat := ControlManager.MkControl (Some Button.UP) None (Some 8%nat) (Some 9%nat)
                (Some 0%nat) None ]}.

Definition menu_params : gmap loc ControlManager.control_params :=
  {[ 0%nat := ControlManager.ControlParamsOf None (Some 125) ]}.

Definition menu_new : ControlManager.t := ControlManager.new menu_controls menu_params.

(** The manager after the confirm button was enabled as the first set. *)
Definition menu_first : nat * ControlManager.t :=
  default (0%nat, menu_new) (ControlManager.enable_controls [0%nat] None menu_new).

(** A gamepad with every button up. *)
Definition all_up : ControlManager.gamepad_view :=
  ControlManager.Gamepad (λ _, false) (λ _, true) (λ _, None).

(** A gamepad with every button down. *)
Definition all_down : ControlManager.gamepad_view :=
  ControlManager.Gamepad (λ _, true) (λ _, false) (λ _, None).

(** What happens next in the menu: the up button is added, which resets the
    first set, is pressed and released, and the manager is reset. *)
Definition menu_events : list ControlManager.event :=
  [ControlManager.AddControls [1%nat] None;
   ControlManager.Dispatch 2 all_down;
   ControlManager.Dispatch 3 all_up;
   ControlManager.Reset true].

Definition menu_later : ControlManager.t :=
  default (snd menu_first) (ControlManager.run_events 250 menu_events (snd menu_first)).

(** The next set after that. *)
Definition menu_next : nat * ControlManager.t :=
  default (0%nat, menu_later)
          (ControlManager.enable_controls [0%nat] (Some true) menu_later).

(** The manager after the confirm button was enabled as a set that
    persists, and after the same events. *)
Definition menu_persistent : nat * ControlManager.t :=
  default (0%nat, menu_new)
          (ControlManager.enable_controls [0%nat] (Some true) menu_new).

Definition menu_persistent_later : ControlManager.t :=
  default (snd menu_persistent)
          (ControlManager.run_events 250 menu_events (snd menu_persistent)).



(** A list: one down control with a press callback and no [params], added
    with a vertical loop configuration that gives no time. *)
Definition list_new : ControlManager.t :=
  ControlManager.new
    {[ 0%nat := ControlManager.MkControl (Some Button.DOWN) None (Some 5%nat) None None
                  None ]} ∅.

Definition list_loop_config : ControlManager.loop_config_type :=
  ControlManager.LoopConfig (Some true) None None None None None.

Definition list_enabled : nat * ControlManager.t :=
  default (0%nat, list_new)
          (ControlManager.add_controls 250 [0%nat]
             (Some (ControlManager.MkControlParams (Some list_loop_config) None None))
             list_new).

(** ** The location key codec *)

Lemma free_of_app c s1 s2 : free_of c s1 → free_of c s2 → free_of c (s1 +:+ s2).
Proof. induction s1 as [|a s1 IH]; simpl; [done|]. intros [??] ?. auto. Qed.

Lemma pretty_N_char_not_underscore n : pretty_N_char n ≠ "_"%char.
Proof. unfold pretty_N_char. by repeat case_match. Qed.

Lemma pretty_N_go_free n s :
  free_of "_" s → free_of "_" (pretty_N_go n s).
Proof.
  revert s. induction (N.lt_wf_0 n) as [n _ IH]; intros s Hs.
  assert (n = 0 ∨ 0 < n)%N as [->|Hpos] by lia.
  - by rewrite pretty_N_go_0.
  - rewrite pretty_N_go_step by done. apply IH.
    + by apply N.div_lt.
    + simpl. split; [apply pretty_N_char_not_underscore | done].
Qed.

Lemma pretty_N_free (n : N) : free_of "_" (pretty n).
Proof.
  unfold pretty, pretty_N. case_decide; [by simpl|].
  by apply pretty_N_go_free.
Qed.

Lemma pretty_Z_free (z : Z) : free_of "_" (pretty z).
Proof.
  unfold pretty, pretty_Z. destruct z as [|p|p].
  - by simpl.
  - apply pretty_N_free.
  - simpl. split; [done | apply pretty_N_free].
Qed.

(** A separator that occurs in neither prefix splits a string uniquely. *)
Lemma split_at_separator c a a' b b' :
  free_of c a → free_of c a' →
  a +:+ String c b = a' +:+ String c b' → a = a' ∧ b = b'.
Proof.
  revert a'. induction a as [|h a IH]; intros [|h' a']; simpl.
  - intros _ _ [= ->]. done.
  - intros _ [Hne _] [= <- _]. done.
  - intros [Hne _] _ [= -> _]. done.
  - intros [_ Ha] [_ Ha'] [= -> Heq]. destruct (IH a' Ha Ha' Heq) as [-> ->]. done.
Qed.

(** The codec is injective: two tiles share a key only if they are equal. *)
Lemma get_location_key_inj x y x' y' :
  TileEvent.get_location_key x y = TileEvent.get_location_key x' y' →
  x = x' ∧ y = y'.
Proof.
  unfold TileEvent.get_location_key. intros Heq.
  apply split_at_separator in Heq as [Hx Hy]; try apply pretty_Z_free.
  split; by apply (inj pretty).
Qed.

(** ** JavaScript arrays *)

Lemma set_item_lookup l n m b :
  set_item l n b !! m = if decide (m = n) then Some (Some b) else
                          if decide (m < length l `max` n)%nat
                          then Some (mjoin (l !! m)) else None.
Proof.
  unfold set_item. case_decide as Hlt.
  - destruct (decide (m = n)) as [->|Hne].
    + by rewrite list_lookup_insert_eq.
    + rewrite list_lookup_insert_ne by done.
      case_decide as Hm.
      * destruct (lookup_lt_is_Some_2 l m) as [v Hv]; [lia|]. by rewrite Hv.
      * apply lookup_ge_None. lia.
  - destruct (decide (m = n)) as [->|Hne].
    + rewrite lookup_app_r by lia.
      rewrite lookup_app_r by (rewrite length_replicate; lia).
      rewrite length_replicate. by replace (n - length l - (n - length l))%nat with 0%nat by lia.
    + case_decide as Hm.
      * destruct (decide (m < length l)%nat).
        -- rewrite lookup_app_l by done.
           destruct (lookup_lt_is_Some_2 l m) as [v Hv]; [lia|]. by rewrite Hv.
        -- rewrite lookup_app_r by lia. rewrite lookup_app_l by (rewrite length_replicate; lia).
           rewrite lookup_replicate_2 by lia.
           rewrite (lookup_ge_None_2 l m) by lia. done.
      * apply lookup_ge_None. rewrite !length_app, length_replicate. simpl. lia.
Qed.

(** Reading after a write: the written index holds the value, every other
    index is as before. *)
Lemma array_get_set a i j b :
  array_get (array_set a j b) i = if decide (i = j) then Some b else array_get a i.
Proof.
  unfold array_get, array_set.
  destruct (decide (0 ≤ j)) as [Hj|Hj], (decide (0 ≤ i)) as [Hi|Hi]; simpl.
  - rewrite set_item_lookup.
    destruct (decide (i = j)) as [->|Hne].
    + by rewrite decide_True.
    + rewrite decide_False by lia.
      case_decide; [done|].
      rewrite (lookup_ge_None_2 (items a)) by lia. done.
  - rewrite decide_False by lia. done.
  - rewrite decide_False by lia. done.
  - destruct (decide (i = j)) as [->|Hne].
    + by rewrite lookup_insert_eq.
    + by rewrite lookup_insert_ne.
Qed.

Lemma indexOf_elem {A} `{EqDecision A} (l : list A) (v : A) :
  v ∈ l → 0 ≤ indexOf l v.
Proof.
  intros Hin. unfold indexOf.
  destruct (list_find_elem_of (λ a, a = v) l v Hin eq_refl) as [[i a] ->]. lia.
Qed.

Lemma indexOf_not_elem {A} `{EqDecision A} (l : list A) (v : A) :
  v ∉ l → indexOf l v = -1.
Proof.
  intros Hnin. unfold indexOf.
  destruct (list_find _ l) as [[i a]|] eqn:Hfind; [|done].
  apply list_find_Some in Hfind as (Hl & -> & _).
  destruct Hnin. by eapply list_elem_of_lookup_2.
Qed.

(** ** Activation flags *)

(** Where the array has no truthy property under [-1], the slot that
    [is_active] reads for a direction is the flag of that direction. *)
Lemma read_slot_is_flag (e : TileEvent.t) (c : directions) :
  props (TileEvent.active e) !! (-1) ≠ Some true →
  truthy (array_get (TileEvent.active e)
                    (indexOf (TileEvent.activation_directions e) c)) = flag_set e c.
Proof.
  intros Hstray. unfold flag_set, indexOf.
  destruct (list_find _ _) as [[i a]|].
  - unfold array_get. rewrite decide_True by lia. by rewrite Nat2Z.id.
  - unfold array_get. rewrite decide_False by lia.
    destruct (props (TileEvent.active e) !! (-1)) as [[]|]; done.
Qed.

(** On an event whose [active] array carries no truthy property under [-1]
    (every event as the constructor builds it), [is_active] holds exactly
    when one of the elementary directions has its flag set. *)
Lemma is_active_iff_flag_set split (e : TileEvent.t) (d : directions) :
  props (TileEvent.active e) !! (-1) ≠ Some true →
  TileEvent.is_active_with split e d = true ↔
  ∃ c, c ∈ split d ∧ flag_set e c = true.
Proof.
  intros Hstray. unfold TileEvent.is_active_with.
  rewrite existsb_exists. split.
  - intros (c & Hin & Hc). exists c. split; [by apply list_elem_of_In|].
    by rewrite <- read_slot_is_flag.
  - intros (c & Hin & Hc). exists c. split; [by apply list_elem_of_In|].
    by rewrite read_slot_is_flag.
Qed.

Lemma init_flags_no_props n b a : props (TileEvent.init_flags n b a) = ∅.
Proof. by destruct a. Qed.

(** A new event has no property under [-1]. *)
Lemma init_no_stray_property next_id a :
  props (TileEvent.active (TileEvent.init next_id a)) !! (-1) = None.
Proof. simpl. by rewrite init_flags_no_props. Qed.

(** [activate_at] with a direction the event does not know leaves every
    indexed flag as it was and stores [true] under the key [-1]. *)
Lemma activate_at_unknown_direction (e : TileEvent.t) (d : directions) :
  d ∉ TileEvent.activation_directions e →
  items (TileEvent.active (TileEvent.activate_at e d)) = items (TileEvent.active e) ∧
  props (TileEvent.active (TileEvent.activate_at e d))
  = <[-1 := true]> (props (TileEvent.active e)).
Proof.
  intros Hd. unfold TileEvent.activate_at. simpl.
  rewrite (indexOf_not_elem _ _ Hd). done.
Qed.

(** Neither call changes a flag of the event when the direction is unknown
    to it. *)
Lemma unknown_direction_keeps_flags (e : TileEvent.t) (d d' : directions) :
  d ∉ TileEvent.activation_directions e →
  flag_set (TileEvent.activate_at e d) d' = flag_set e d' ∧
  flag_set (TileEvent.deactivate_at e d) d' = flag_set e d'.
Proof.
  intros Hd. unfold flag_set, TileEvent.activate_at, TileEvent.deactivate_at. simpl.
  rewrite (indexOf_not_elem _ _ Hd). done.
Qed.

(** [deactivate_at] with an unknown direction on an event without a truthy
    property under [-1] does not change what [is_active] answers. *)
Lemma deactivate_at_unknown_direction split (e : TileEvent.t) (d d' : directions) :
  d ∉ TileEvent.activation_directions e →
  props (TileEvent.active e) !! (-1) ≠ Some true →
  TileEvent.is_active_with split (TileEvent.deactivate_at e d) d'
  = TileEvent.is_active_with split e d'.
Proof.
  intros Hd Hstray. unfold TileEvent.is_active_with.
  assert (∀ c, truthy (array_get (TileEvent.active (TileEvent.deactivate_at e d))
                         (indexOf (TileEvent.activation_directions
                                     (TileEvent.deactivate_at e d)) c))
               = truthy (array_get (TileEvent.active e)
                           (indexOf (TileEvent.activation_directions e) c))) as Hsame.
  { intros c. simpl. rewrite array_get_set, (indexOf_not_elem _ _ Hd).
    case_decide as Hc; [|done]. rewrite Hc. unfold array_get. simpl.
    destruct (props (TileEvent.active e) !! (-1)) as [[]|]; done. }
  induction (split d') as [|c l IH]; [done|]. cbn [existsb].
  rewrite Hsame. f_equal. exact IH.
Qed.

(** C8 (code at the failing input): [activate_at] called with a direction
    that is not among the event's [activation_directions] is not a no-op.
    The event knows only [up] and is inactive; after [activate_at(down)],
    [is_active(down)] answers [true] where it answered [false] before:
    [indexOf] returns [-1], the write lands in the property ["-1"] of the
    [active] array, and [is_active] reads that property back. *)
Theorem C8_activate_at_unknown_direction_observable :
  (down ∉ TileEvent.activation_directions up_only_event) ∧
  TileEvent.is_active up_only_event down = false ∧
  TileEvent.is_active (TileEvent.activate_at up_only_event down) down = true ∧
  TileEvent.is_active
    (TileEvent.deactivate_at (TileEvent.activate_at up_only_event down) left) down
  = false.
Proof.
  split; [|vm_compute; done].
  intros Hin. apply list_elem_of_singleton in Hin. discriminate.
Qed.

(** C7 (code at the failing input): [is_active] answers [true] although no
    elementary direction of the queried direction has its activation flag
    set.  The event knows only [up], whose flag is clear; after
    [activate_at(down)] the [active] array holds [true] under the key [-1],
    and [is_active(down)] reads it, while [split(down) = [down]] and [down]
    has no flag on this event. *)
Theorem C7_is_active_without_flag :
  TileEvent.is_active (TileEvent.activate_at up_only_event down) down = true ∧
  split_direction down = [down] ∧
  flag_set (TileEvent.activate_at up_only_event down) down = false ∧
  split_direction up = [up].
Proof. by vm_compute. Qed.

(** ** Event identity *)

Lemma new_spec a st h r st' h' :
  TileEvent.new a (st, h) = (r, (st', h')) →
  h !! r = None ∧
  h' = <[r := TileEvent.init (TileEvent.id_incrementer st) a]> h ∧
  TileEvent.id_incrementer st' = S (TileEvent.id_incrementer st) ∧
  TileEvent.events st' = <[TileEvent.id_incrementer st := r]> (TileEvent.events st).
Proof.
  unfold TileEvent.new. simpl. intros [= <- <- <-]. split_and!; try done.
  apply not_elem_of_dom. apply is_fresh.
Qed.

(** Creating events leaves the events that exist as they are. *)
Lemma create_all_frame specs st h rs st' h' r e :
  create_all specs (st, h) = (rs, (st', h')) →
  h !! r = Some e → h' !! r = Some e.
Proof.
  revert st h rs. induction specs as [|a specs IH]; intros st h rs; cbn [create_all].
  - intros [= <- <- <-]. done.
  - destruct (TileEvent.new a (st, h)) as [r1 [st1 h1]] eqn:Hnew.
    destruct (create_all specs (st1, h1)) as [rs2 [st2 h2]] eqn:Hrest.
    intros [= <- <- <-] Hr.
    apply new_spec in Hnew as (Hfresh & -> & _ & _).
    eapply IH; [done|].
    rewrite lookup_insert_ne; [done|]. intros ->. congruence.
Qed.

(** A run of constructor calls hands out consecutive ids, starting at the
    counter, in creation order. *)
Lemma create_all_ids specs st h rs st' h' :
  create_all specs (st, h) = (rs, (st', h')) →
  omap (λ r, TileEvent.id <$> h' !! r) rs
  = seq (TileEvent.id_incrementer st) (length specs) ∧
  TileEvent.id_incrementer st' = (TileEvent.id_incrementer st + length specs)%nat.
Proof.
  revert st h rs. induction specs as [|a specs IH]; intros st h rs; cbn [create_all].
  - intros [= <- <- <-]. split; [done | simpl; lia].
  - destruct (TileEvent.new a (st, h)) as [r1 [st1 h1]] eqn:Hnew.
    destruct (create_all specs (st1, h1)) as [rs2 [st2 h2]] eqn:Hrest.
    intros [= <- <- <-].
    apply new_spec in Hnew as (Hfresh & -> & Hnext & _).
    destruct (IH _ _ _ Hrest) as [Hids Hcount].
    rewrite Hnext in Hids, Hcount. split; [|simpl; lia].
    cbn [omap list_omap length seq]. erewrite (create_all_frame _ _ _ _ _ _ r1); [|done|apply lookup_insert_eq].
    simpl. by rewrite Hids.
Qed.

Lemma seq_increasing k n i j a b :
  seq k n !! i = Some a → seq k n !! j = Some b → (i < j)%nat → (a < b)%nat.
Proof.
  intros [-> _]%lookup_seq [-> _]%lookup_seq. lia.
Qed.

(** The constructor keeps ids unique as long as the counter is ahead of
    every id in use, which [reset] on an empty heap establishes. *)
Lemma new_ids_unique a st h r st' h' :
  ids_unique h → ids_below (TileEvent.id_incrementer st) h →
  TileEvent.new a (st, h) = (r, (st', h')) →
  ids_unique h' ∧ ids_below (TileEvent.id_incrementer st') h'.
Proof.
  intros Hu Hb Hnew. apply new_spec in Hnew as (Hfresh & -> & -> & _). split.
  - intros r1 r2 e1 e2 H1 H2 Hid.
    destruct (decide (r1 = r)) as [->|Hn1], (decide (r2 = r)) as [->|Hn2]; [done|..].
    + rewrite lookup_insert_eq in H1. rewrite lookup_insert_ne in H2 by done.
      injection H1 as <-. apply Hb in H2. simpl in Hid. lia.
    + rewrite lookup_insert_eq in H2. rewrite lookup_insert_ne in H1 by done.
      injection H2 as <-. apply Hb in H1. simpl in Hid. lia.
    + rewrite lookup_insert_ne in H1, H2 by done. by eapply Hu.
  - intros r1 e1 H1. destruct (decide (r1 = r)) as [->|Hn1].
    + rewrite lookup_insert_eq in H1. injection H1 as <-. simpl. lia.
    + rewrite lookup_insert_ne in H1 by done. apply Hb in H1. lia.
Qed.

Lemma create_all_ids_unique specs st h rs st' h' :
  ids_unique h → ids_below (TileEvent.id_incrementer st) h →
  create_all specs (st, h) = (rs, (st', h')) →
  ids_unique h' ∧ ids_below (TileEvent.id_incrementer st') h'.
Proof.
  revert st h rs. induction specs as [|a specs IH]; intros st h rs Hu Hb;
    cbn [create_all].
  - by intros [= <- <- <-].
  - destruct (TileEvent.new a (st, h)) as [r1 [st1 h1]] eqn:Hnew.
    destruct (create_all specs (st1, h1)) as [rs2 [st2 h2]] eqn:Hrest.
    intros [= <- <- <-].
    destruct (new_ids_unique _ _ _ _ _ _ Hu Hb Hnew) as [Hu1 Hb1].
    by eapply IH.
Qed.

(** The events of a map created after a reset have unique ids. *)
Lemma ids_unique_after_reset specs st :
  ids_unique (snd (snd (create_all specs (TileEvent.reset st, ∅)))).
Proof.
  destruct (create_all specs (TileEvent.reset st, ∅)) as [rs [st' h']] eqn:Hrun.
  simpl. eapply (create_all_ids_unique specs (TileEvent.reset st) ∅); [| |done].
  - intros r1 r2 e1 e2 H1. by rewrite lookup_empty in H1.
  - intros r e H1. by rewrite lookup_empty in H1.
Qed.

Lemma no_reset_among_creations specs :
  filter (λ op, is_reset op = true) (OpNew <$> specs) = [].
Proof.
  induction specs as [|a specs IH]; [done|].
  rewrite fmap_cons, filter_cons_False; [done|]. simpl. discriminate.
Qed.

(** C9: the events created between two resets receive the consecutive ids
    0, 1, 2, ... in creation order, so the ids are pairwise distinct and
    strictly increasing; [reset] puts [id_incrementer] at 0 and empties the
    identity registry; a map load, which resets and then creates the events
    of the map, performs exactly one reset and from then on is that run of
    constructor calls. *)
Theorem C9_event_ids (specs : list TileEvent.ctor_args)
  (s : TileEvent.statics * gmap loc TileEvent.t) :
  let s0 := (TileEvent.reset (fst s), snd s) in
  let ids := omap (λ r, TileEvent.id <$> snd (snd (create_all specs s0)) !! r)
                  (fst (create_all specs s0)) in
  TileEvent.id_incrementer (fst s0) = 0%nat ∧
  TileEvent.events (fst s0) = ∅ ∧
  ids = seq 0 (length specs) ∧
  NoDup ids ∧
  (∀ i j a b, ids !! i = Some a → ids !! j = Some b → (i < j)%nat → (a < b)%nat) ∧
  TileEvent.id_incrementer (fst (snd (create_all specs s0))) = length specs ∧
  length (filter (λ op, is_reset op = true) (load_map specs)) = 1%nat ∧
  foldl (λ s op, run_static_op op s) s (load_map specs) = snd (create_all specs s0).
Proof.
  intros s0 ids.
  assert (ids = seq 0 (length specs)) as Hids.
  { unfold ids. destruct (create_all specs s0) as [rs [st' h']] eqn:Hrun.
    unfold s0 in Hrun. simpl. by apply create_all_ids in Hrun as [-> _]. }
  split_and!; try done.
  - rewrite Hids. apply NoDup_seq.
  - rewrite Hids. apply seq_increasing.
  - destruct (create_all specs s0) as [rs [st' h']] eqn:Hrun.
    unfold s0 in Hrun. simpl. by apply create_all_ids in Hrun as [_ ->].
  - unfold load_map. rewrite filter_cons_True by done.
    by rewrite no_reset_among_creations.
  - unfold load_map. simpl. fold s0. clear Hids ids. generalize s0. clear s0 s.
    induction specs as [|a specs IH]; intros s0; simpl; [done|].
    rewrite IH. destruct s0 as [st h].
    destruct (TileEvent.new a (st, h)) as [r1 s1] eqn:Hnew. simpl.
    by destruct (create_all specs s1) as [rs s2].
Qed.

(** ** Events without their flags *)

Lemma erase_set_active a e : erase_active (TileEvent.set_active a e) = erase_active e.
Proof. done. Qed.

Lemma erase_deactivate_at e d : erase_active (TileEvent.deactivate_at e d) = erase_active e.
Proof. done. Qed.

Lemma erase_activate e : erase_active (TileEvent.activate e) = erase_active e.
Proof. done. Qed.

Lemma erase_fields e e' :
  erase_active e = erase_active e' →
  TileEvent.x e = TileEvent.x e' ∧ TileEvent.y e = TileEvent.y e' ∧
  TileEvent.location_key e = TileEvent.location_key e' ∧
  TileEvent.id e = TileEvent.id e' ∧ TileEvent.type e = TileEvent.type e' ∧
  TileEvent.dynamic e = TileEvent.dynamic e' ∧
  TileEvent.activation_collision_layers e = TileEvent.activation_collision_layers e' ∧
  TileEvent.activation_directions e = TileEvent.activation_directions e'.
Proof. destruct e, e'. unfold erase_active. simpl. intros [=]. by subst. Qed.

Lemma skeleton_lookup h r : skeleton h !! r = erase_active <$> h !! r.
Proof. apply lookup_fmap. Qed.

Lemma skeleton_lookup_Some h h' r e :
  skeleton h' = skeleton h → h !! r = Some e →
  ∃ e', h' !! r = Some e' ∧ erase_active e' = erase_active e.
Proof.
  intros Heq Hr.
  assert (skeleton h' !! r = Some (erase_active e)) as Hl
    by (by rewrite Heq, skeleton_lookup, Hr).
  rewrite skeleton_lookup in Hl.
  destruct (h' !! r) as [e'|]; [|done].
  exists e'. split; [done|]. apply (inj Some). exact Hl.
Qed.

Lemma skeleton_insert_same h r e e' :
  h !! r = Some e → erase_active e' = erase_active e →
  skeleton (<[r := e']> h) = skeleton h.
Proof.
  intros Hr He. unfold skeleton. rewrite fmap_insert.
  apply insert_id. by rewrite lookup_fmap, Hr, He.
Qed.

Lemma ids_unique_skeleton h h' :
  skeleton h' = skeleton h → ids_unique h → ids_unique h'.
Proof.
  intros Heq Hu r1 r2 e1 e2 H1 H2 Hid.
  destruct (skeleton_lookup_Some h' h r1 e1 (eq_sym Heq) H1) as (f1 & Hf1 & He1).
  destruct (skeleton_lookup_Some h' h r2 e2 (eq_sym Heq) H2) as (f2 & Hf2 & He2).
  apply erase_fields in He1 as (_ & _ & _ & Hi1 & _).
  apply erase_fields in He2 as (_ & _ & _ & Hi2 & _).
  apply (Hu r1 r2 f1 f2 Hf1 Hf2). congruence.
Qed.

Lemma same_but_flags_refl w : same_but_flags w w.
Proof. done. Qed.

Lemma same_but_flags_trans w1 w2 w3 :
  same_but_flags w1 w2 → same_but_flags w2 w3 → same_but_flags w1 w3.
Proof. intros (? & ? & ?) (? & ? & ?). split_and!; congruence. Qed.

Lemma same_but_flags_bucket_of w w' k :
  same_but_flags w w' → bucket_of w' k = bucket_of w k.
Proof. intros (He & _). unfold bucket_of. by rewrite He. Qed.

(** Under unique ids the filter of line 62 removes the event itself and
    nothing else. *)
Lemma filter_out_id_spec h e ev l l' :
  ids_unique h → h !! e = Some ev →
  filter_out_id h (TileEvent.id ev) l = Some l' →
  l' = filter (λ r, r ≠ e) l.
Proof.
  intros Hu He. revert l'. induction l as [|r l IH]; intros l'; simpl.
  - by intros [= <-].
  - destruct (h !! r) as [er|] eqn:Hr; simpl; [|done].
    destruct (filter_out_id h (TileEvent.id ev) l) as [rest|]; simpl; [|done].
    intros [= <-]. rewrite (IH rest eq_refl). case_decide as Hid.
    + rewrite filter_cons_False; [done|].
      intros Hne. apply Hne. by apply (Hu r e er ev).
    + rewrite filter_cons_True; [done|]. intros ->. congruence.
Qed.

(** The filter of line 62 never throws on a bucket of live references. *)
Lemma filter_out_id_total h i l :
  (∀ r, r ∈ l → is_Some (h !! r)) → is_Some (filter_out_id h i l).
Proof.
  induction l as [|r l IH]; intros Hl; simpl; [eauto|].
  destruct (Hl r) as [er ->]; [by left|]. simpl.
  destruct IH as [rest ->]; [intros; apply Hl; by right|]. simpl. eauto.
Qed.

(** ** One relocation step *)

Lemma bucket_of_write key m w k :
  bucket_of (write_registry key m w) k = default [] (m !! k).
Proof. done. Qed.

Lemma leave_bucket_spec key e ev w w1 :
  ids_unique (heap w) → heap w !! e = Some ev →
  leave_bucket key (TileEvent.id ev) w = Some w1 →
  heap w1 = heap w ∧
  (∀ k, bucket_of w1 k = if decide (k = key) then filter (λ r, r ≠ e) (bucket_of w k)
                         else bucket_of w k) ∧
  (buckets_nonempty w → buckets_nonempty w1) ∧
  (∃ writes, trace w1 = trace w ++ writes ∧ Forall is_registry_write writes).
Proof.
  intros Hu He. unfold leave_bucket.
  destruct (events w !! key) as [bucket|] eqn:Hb; simpl; [|done].
  destruct (filter_out_id (heap w) (TileEvent.id ev) bucket) as [filtered|] eqn:Hf;
    simpl; [|done].
  apply (filter_out_id_spec _ e ev) in Hf; [|done..].
  intros [= <-]. case_decide as Hlen.
  - apply nil_length_inv in Hlen. split_and!.
    + done.
    + intros k. unfold bucket_of at 1. simpl. case_decide as Hk.
      * subst k. rewrite lookup_delete_eq. unfold bucket_of. rewrite Hb. simpl. congruence.
      * rewrite lookup_delete_ne, lookup_insert_ne by done. done.
    + intros Hne k l. simpl. destruct (decide (k = key)) as [->|Hk].
      * by rewrite lookup_delete_eq.
      * rewrite lookup_delete_ne, lookup_insert_ne by done. apply Hne.
    + exists [RegistryWrite key; RegistryWrite key]. simpl. split.
      * by rewrite <- app_assoc.
      * by repeat constructor.
  - split_and!.
    + done.
    + intros k. unfold bucket_of at 1. simpl. case_decide as Hk.
      * subst k. rewrite lookup_insert_eq. unfold bucket_of. rewrite Hb. simpl. congruence.
      * rewrite lookup_insert_ne by done. done.
    + intros Hne k l. simpl. destruct (decide (k = key)) as [->|Hk].
      * rewrite lookup_insert_eq. intros [= <-] ->. done.
      * rewrite lookup_insert_ne by done. apply Hne.
    + exists [RegistryWrite key]. simpl. split; [done|]. by repeat constructor.
Qed.

Lemma enter_bucket_spec key e w :
  heap (enter_bucket key e w) = heap w ∧
  (∀ k, bucket_of (enter_bucket key e w) k
        = bucket_of w k ++ (if decide (k = key) then [e] else [])) ∧
  (buckets_nonempty w → buckets_nonempty (enter_bucket key e w)) ∧
  (∃ writes, trace (enter_bucket key e w) = trace w ++ writes ∧
             Forall is_registry_write writes).
Proof.
  unfold enter_bucket. case_decide as Hk.
  - split_and!.
    + done.
    + intros k. unfold bucket_of at 1. simpl. case_decide as Hkk.
      * subst k. by rewrite lookup_insert_eq.
      * rewrite lookup_insert_ne by done. by rewrite app_nil_r.
    + intros Hne k l. simpl. destruct (decide (k = key)) as [->|Hkk].
      * rewrite lookup_insert_eq. intros [= <-]. by destruct (default _ _).
      * rewrite lookup_insert_ne by done. apply Hne.
    + exists [RegistryWrite key]. split; [done|]. by repeat constructor.
  - split_and!.
    + done.
    + intros k. unfold bucket_of at 1. simpl. case_decide as Hkk.
      * subst k. rewrite !lookup_insert_eq. simpl.
        unfold bucket_of. apply eq_None_not_Some in Hk. by rewrite Hk.
      * rewrite !lookup_insert_ne by done. by rewrite app_nil_r.
    + intros Hne k l. simpl. destruct (decide (k = key)) as [->|Hkk].
      * rewrite lookup_insert_eq. intros [= <-]. by destruct (default _ _).
      * rewrite !lookup_insert_ne by done. apply Hne.
    + exists [RegistryWrite key; RegistryWrite key]. simpl. split.
      * by rewrite <- app_assoc.
      * by repeat constructor.
Qed.

Lemma move_event_spec sx sy e w w1 :
  ids_unique (heap w) → move_event sx sy e w = Some w1 →
  ∃ ev, heap w !! e = Some ev ∧
    heap w1 = <[e := TileEvent.set_position (TileEvent.x ev + sx) (TileEvent.y ev + sy)
                       (TileEvent.get_location_key (TileEvent.x ev + sx)
                                                   (TileEvent.y ev + sy)) ev]> (heap w) ∧
    (∀ k, bucket_of w1 k
          = (if decide (k = TileEvent.location_key ev)
             then filter (λ r, r ≠ e) (bucket_of w k) else bucket_of w k)
            ++ (if decide (k = TileEvent.get_location_key (TileEvent.x ev + sx)
                                                          (TileEvent.y ev + sy))
                then [e] else [])) ∧
    (buckets_nonempty w → buckets_nonempty w1) ∧
    (∃ writes, trace w1 = trace w ++ writes ∧ Forall is_registry_write writes).
Proof.
  intros Hu. unfold move_event.
  destruct (heap w !! e) as [ev|] eqn:He; simpl; [|done].
  destruct (leave_bucket _ _ w) as [w0|] eqn:Hleave; simpl; [|done].
  intros [= <-]. exists ev. split; [done|].
  destruct (leave_bucket_spec _ e ev w w0 Hu He Hleave) as (Hh & Hb & Hne & tr0 & Htr0 & Hw0).
  set (nk := TileEvent.get_location_key _ _).
  set (w0' := set_heap _ w0).
  destruct (enter_bucket_spec nk e w0') as (Hh' & Hb' & Hne' & tr1 & Htr1 & Hw1).
  split_and!.
  - rewrite Hh'. unfold w0'. simpl. by rewrite Hh.
  - intros k. rewrite Hb'. f_equal. apply Hb.
  - intros H. apply Hne'. apply Hne in H. exact H.
  - exists (tr0 ++ tr1). split.
    + rewrite Htr1. unfold w0'. simpl. rewrite Htr0. by rewrite app_assoc.
    + by apply Forall_app.
Qed.

Lemma skeleton_lookup_inv h r x :
  skeleton h !! r = Some x → ∃ e, h !! r = Some e ∧ erase_active e = x.
Proof.
  rewrite skeleton_lookup. destruct (h !! r) as [e|]; [|done].
  intros Hx. apply (inj Some) in Hx. eauto.
Qed.

Lemma ids_unique_same_ids h h' :
  (∀ r, TileEvent.id <$> h' !! r = TileEvent.id <$> h !! r) →
  ids_unique h → ids_unique h'.
Proof.
  intros Hid Hu r1 r2 e1 e2 H1 H2 Heq.
  pose proof (Hid r1) as Hr1. pose proof (Hid r2) as Hr2.
  rewrite H1 in Hr1. rewrite H2 in Hr2.
  destruct (h !! r1) as [f1|] eqn:Hf1; [|done].
  destruct (h !! r2) as [f2|] eqn:Hf2; [|done].
  simpl in *. apply (Hu r1 r2 f1 f2); [done..|]. congruence.
Qed.

Lemma ids_via_skeleton h r :
  TileEvent.id <$> h !! r = TileEvent.id <$> skeleton h !! r.
Proof. rewrite skeleton_lookup. by destruct (h !! r). Qed.

Section PushProperties.

Variable get_surroundings : Z → Z → bool → Z → list surrounding.
Variable get_opposite_direcion : directions → directions.
Variable active_jump_surroundings : World → list surrounding → Z → World.
Variable PUSH_SHIFT : Z.

Lemma deactivate_old_surr_event_frame o s r w w' :
  deactivate_old_surr_event get_opposite_direcion o s r w = Some w' →
  same_but_flags w w'.
Proof.
  unfold deactivate_old_surr_event.
  destruct (heap w !! r) as [ev|] eqn:Hr; simpl; [|done].
  repeat case_match; intros [= <-]; try apply same_but_flags_refl.
  split_and!; [done..|]. simpl.
  by apply (skeleton_insert_same _ _ ev).
Qed.

Lemma deactivate_bucket_frame o s bucket w w' :
  deactivate_bucket get_opposite_direcion o s bucket w = Some w' →
  same_but_flags w w'.
Proof.
  revert w. induction bucket as [|r bucket IH]; intros w; simpl.
  - intros [= <-]. apply same_but_flags_refl.
  - destruct (deactivate_old_surr_event _ o s r w) as [w1|] eqn:H1; simpl; [|done].
    intros H2. eapply same_but_flags_trans; [|by apply IH].
    by eapply deactivate_old_surr_event_frame.
Qed.

Lemma deactivate_old_surroundings_frame o ss w w' :
  deactivate_old_surroundings get_opposite_direcion o ss w = Some w' →
  same_but_flags w w'.
Proof.
  revert w. induction ss as [|s ss IH]; intros w; simpl.
  - intros [= <-]. apply same_but_flags_refl.
  - destruct (events w !! _) as [bucket|]; simpl.
    + destruct (deactivate_bucket _ o s bucket w) as [w1|] eqn:H1; simpl; [|done].
      intros H2. eapply same_but_flags_trans; [|by apply IH].
      by eapply deactivate_bucket_frame.
    + apply IH.
Qed.

(** ** Deactivation around the old position *)

Lemma deactivate_at_deactivated e d :
  deactivated_at (TileEvent.deactivate_at e d) d.
Proof.
  unfold deactivated_at, TileEvent.deactivate_at. simpl.
  rewrite array_get_set. by rewrite decide_True.
Qed.

Lemma deactivate_at_keeps e d d' :
  deactivated_at e d' → deactivated_at (TileEvent.deactivate_at e d) d'.
Proof.
  unfold deactivated_at, TileEvent.deactivate_at. simpl. intros Hd.
  rewrite array_get_set. by case_decide.
Qed.

Lemma static_jump_on_layer_erase layer e e' :
  erase_active e = erase_active e' →
  static_jump_on_layer layer e → static_jump_on_layer layer e'.
Proof.
  intros (_ & _ & _ & _ & Ht & Hd & Hl & _)%erase_fields.
  unfold static_jump_on_layer. by rewrite Ht, Hd, Hl.
Qed.

Lemma cleared_only_refl layer w : cleared_only layer w w.
Proof. split; [done|]. intros r e Hr. exists e. by split_and!. Qed.

Lemma cleared_only_trans layer w1 w2 w3 :
  cleared_only layer w1 w2 → cleared_only layer w2 w3 → cleared_only layer w1 w3.
Proof.
  intros [He1 H1] [He2 H2]. split; [congruence|].
  intros r e Hr.
  destruct (H1 r e Hr) as (e2 & Hr2 & Her2 & Hd2 & Hs2).
  destruct (H2 r e2 Hr2) as (e3 & Hr3 & Her3 & Hd3 & Hs3).
  exists e3. split_and!; [done|congruence|by auto|].
  intros Hns. rewrite Hs3, Hs2; [done..|].
  rewrite (Hs2 Hns). done.
Qed.

Lemma deactivate_old_surr_event_spec o s r w w' :
  deactivate_old_surr_event get_opposite_direcion o s r w = Some w' →
  cleared_only (target_layer o) w w' ∧
  ∃ ev', heap w' !! r = Some ev' ∧
         (static_jump_on_layer (target_layer o) ev' →
          deactivated_at ev' (get_opposite_direcion (sur_direction s))).
Proof.
  unfold deactivate_old_surr_event.
  destruct (heap w !! r) as [ev|] eqn:Hr; simpl; [|done].
  destruct (decide (TileEvent.type ev = JUMP)) as [Ht|Ht].
  - destruct (includes _ _ && bool_decide _) eqn:Hc.
    + apply andb_true_iff in Hc as [Hl Hd].
      apply bool_decide_eq_true in Hl, Hd.
      intros [= <-]. split.
      * split; [done|]. intros r' e Hr'. simpl.
        destruct (decide (r' = r)) as [->|Hne].
        -- assert (e = ev) as -> by congruence.
           rewrite lookup_insert_eq. eexists. split_and!; [done|done| |].
           ++ intros d. apply deactivate_at_keeps.
           ++ intros Hns. destruct Hns. done.
        -- rewrite lookup_insert_ne by done. exists e. by split_and!.
      * simpl. rewrite lookup_insert_eq. eexists. split; [done|].
        intros _. apply deactivate_at_deactivated.
    + intros [= <-]. split; [apply cleared_only_refl|].
      exists ev. split; [done|]. intros (_ & Hd & Hl).
      apply andb_false_iff in Hc as [Hc|Hc].
      * by apply bool_decide_eq_false in Hc.
      * by apply bool_decide_eq_false in Hc.
  - intros [= <-]. split; [apply cleared_only_refl|].
    exists ev. split; [done|]. by intros (? & _).
Qed.

Lemma deactivate_bucket_spec o s bucket w w' :
  deactivate_bucket get_opposite_direcion o s bucket w = Some w' →
  cleared_only (target_layer o) w w' ∧
  ∀ r ev', r ∈ bucket → heap w' !! r = Some ev' →
           static_jump_on_layer (target_layer o) ev' →
           deactivated_at ev' (get_opposite_direcion (sur_direction s)).
Proof.
  revert w. induction bucket as [|r0 bucket IH]; intros w; simpl.
  - intros [= <-]. split; [apply cleared_only_refl|].
    intros r ev' Hin. by apply elem_of_nil in Hin.
  - destruct (deactivate_old_surr_event _ o s r0 w) as [w1|] eqn:H1; simpl; [|done].
    intros H2.
    destruct (deactivate_old_surr_event_spec _ _ _ _ _ H1) as (Hc1 & ev1 & Hev1 & Hd1).
    destruct (IH w1 H2) as [Hc2 Hrest].
    split; [by eapply cleared_only_trans|].
    intros r ev' Hin Hev' Hst. apply elem_of_cons in Hin as [->|Hin]; [|by eauto].
    destruct Hc2 as [_ Hc2].
    destruct (Hc2 r0 ev1 Hev1) as (e' & He' & Her & Hkeep & _).
    assert (e' = ev') as -> by congruence.
    apply Hkeep, Hd1. by apply (static_jump_on_layer_erase _ ev').
Qed.

Lemma deactivate_old_surroundings_spec o ss w w' :
  deactivate_old_surroundings get_opposite_direcion o ss w = Some w' →
  cleared_only (target_layer o) w w' ∧
  ∀ s l r ev', s ∈ ss →
               events w !! TileEvent.get_location_key (sur_x s) (sur_y s) = Some l →
               r ∈ l → heap w' !! r = Some ev' →
               static_jump_on_layer (target_layer o) ev' →
               deactivated_at ev' (get_opposite_direcion (sur_direction s)).
Proof.
  revert w. induction ss as [|s0 ss IH]; intros w; simpl.
  - intros [= <-]. split; [apply cleared_only_refl|].
    intros s l r ev' Hin. by apply elem_of_nil in Hin.
  - destruct (events w !! TileEvent.get_location_key (sur_x s0) (sur_y s0))
      as [bucket|] eqn:Hb; simpl.
    + destruct (deactivate_bucket _ o s0 bucket w) as [w1|] eqn:H1; simpl; [|done].
      intros H2.
      destruct (deactivate_bucket_spec _ _ _ _ _ H1) as [Hc1 Hb1].
      destruct (IH w1 H2) as [Hc2 Hrest].
      split; [by eapply cleared_only_trans|].
      intros s l r ev' Hin Hl Hr Hev' Hst. apply elem_of_cons in Hin as [->|Hin].
      * assert (l = bucket) as -> by congruence.
        destruct Hc1 as [_ Hc1]. destruct Hc2 as [_ Hc2].
        destruct (deactivate_bucket_frame _ _ _ _ _ H1) as (_ & _ & Hsk).
        assert (is_Some (heap w1 !! r)) as [e1 He1].
        { destruct (heap w1 !! r) as [e1|] eqn:He1; [eauto|].
          destruct (deactivate_old_surroundings_frame _ _ _ _ H2) as (_ & _ & Hsk2).
          pose proof (skeleton_lookup (heap w') r) as Hl'.
          rewrite Hsk2, skeleton_lookup, He1, Hev' in Hl'. done. }
        destruct (Hc2 r e1 He1) as (e' & He' & Her & Hkeep & _).
        assert (e' = ev') as -> by congruence.
        apply Hkeep. apply (Hb1 r e1 Hr He1).
        by apply (static_jump_on_layer_erase _ ev').
      * destruct Hc1 as [Hev1 _]. apply (Hrest s l r ev'); try done.
        by rewrite Hev1.
    + intros H2. destruct (IH w H2) as [Hc2 Hrest]. split; [done|].
      intros s l r ev' Hin Hl Hr Hev' Hst. apply elem_of_cons in Hin as [->|Hin].
      * congruence.
      * by apply (Hrest s l r ev').
Qed.

(** C5: in the relocation of an owned event, once the event has moved and
    the jump events around its new position were activated, every Jump-type
    event registered at a tile of the radius-2 surroundings of the old
    position that is not dynamic and whose [activation_collision_layers]
    contain the target layer, the sum [events_info.jump.collide_layer_shift +
    base_collider_layer] of the pushed object, ends with its flag at the
    direction opposite to that tile's offset direction reading [false]; every
    event that is not such a static Jump event on that sum, a dynamic Jump
    event or one on another layer in particular, is left as the previous
    steps made it. *)
Theorem C5_old_surroundings_deactivated o sx sy e ev w w' :
  heap w !! e = Some ev →
  relocate_event get_surroundings get_opposite_direcion active_jump_surroundings
                 o sx sy e w = Some w' →
  (∀ s l r ev',
     s ∈ get_surroundings (TileEvent.x ev) (TileEvent.y ev) false 2 →
     events w' !! TileEvent.get_location_key (sur_x s) (sur_y s) = Some l →
     r ∈ l → heap w' !! r = Some ev' →
     TileEvent.type ev' = JUMP → TileEvent.dynamic ev' = false →
     jump_collide_layer_shift o + base_collider_layer o
       ∈ TileEvent.activation_collision_layers ev' →
     array_get (TileEvent.active ev')
               (indexOf (TileEvent.activation_directions ev')
                        (get_opposite_direcion (sur_direction s))) = Some false) ∧
  (∃ w1, move_event sx sy e w = Some w1 ∧
     ∀ r ev1,
       heap (active_jump_surroundings w1
               (get_surroundings (TileEvent.x ev + sx) (TileEvent.y ev + sy) false 2)
               (jump_collide_layer_shift o + base_collider_layer o)) !! r = Some ev1 →
       ¬ (TileEvent.type ev1 = JUMP ∧ TileEvent.dynamic ev1 = false ∧
          jump_collide_layer_shift o + base_collider_layer o
            ∈ TileEvent.activation_collision_layers ev1) →
       heap w' !! r = Some ev1).
Proof.
  intros He. unfold relocate_event. rewrite He. cbn [mbind option_bind].
  destruct (move_event sx sy e w) as [w1|] eqn:Hmove; cbn [mbind option_bind]; [|done].
  intros Hold.
  destruct (deactivate_old_surroundings_spec _ _ _ _ Hold) as [[Hev Hc] Hdeact].
  unfold target_layer in Hev, Hc, Hdeact.
  split.
  - intros s l r ev' Hs Hl Hr Hev' Ht Hd Hlayer.
    apply (Hdeact s l r ev'); [done| |done|done|by split_and!].
    by rewrite <- Hev.
  - exists w1. split; [done|]. intros r ev1 Hr Hns.
    destruct (Hc r ev1 Hr) as (e' & He' & _ & _ & Hsame).
    rewrite He'. f_equal. apply Hsame. exact Hns.
Qed.

(** ** Entry conditions and direction validation *)

(** C3: direction validation of a push that is not target-only.  With the
    two limits of lines 21-22, the classifier answers exactly one of the four
    quadrants, comparing [-hero.y] with both limits inclusively and giving
    ties to down, then left, then up; when the answer differs from the
    requested direction the call changes nothing; and for positive_limit =
    10, negative_limit = -10, hero.y = -15 the answer is down. *)
Theorem C3_direction_validation d o push_end before_move w :
  let v := - hero_y d in
  let p := hero_x d + (- sprite_y o - sprite_x o) in
  let n := - hero_x d + (- sprite_y o + sprite_x o) in
  (expected_position d o = Some "down"%string ↔ p ≤ v ∧ n ≤ v) ∧
  (expected_position d o = Some "left"%string ↔
     ¬ (p ≤ v ∧ n ≤ v) ∧ (v ≤ p ∧ n ≤ v)) ∧
  (expected_position d o = Some "up"%string ↔
     ¬ (p ≤ v ∧ n ≤ v) ∧ ¬ (v ≤ p ∧ n ≤ v) ∧ (v ≤ p ∧ v ≤ n)) ∧
  (expected_position d o = Some "right"%string ↔
     ¬ (p ≤ v ∧ n ≤ v) ∧ ¬ (v ≤ p ∧ n ≤ v) ∧ ¬ (v ≤ p ∧ v ≤ n) ∧ (p ≤ v ∧ v ≤ n)) ∧
  (∃ q, expected_position d o = Some q ∧ q ∈ ["down"; "left"; "up"; "right"]%string) ∧
  (expected_position d o ≠ Some (trying_to_push_direction d) →
   fire_push_movement get_surroundings get_opposite_direcion active_jump_surroundings
                      PUSH_SHIFT d o push_end before_move false w
   = Some (MkOutcome d o w None)) ∧
  classify 10 (-10) (-15) = Some "down"%string.
Proof.
  intros v p n. unfold expected_position, classify, positive_limit, negative_limit.
  fold v p n.
  split_and!.
  - destruct (Z.geb_spec v p), (Z.geb_spec v n), (Z.leb_spec v p), (Z.leb_spec v n);
      simpl; split; intros ?; try done; lia.
  - destruct (Z.geb_spec v p), (Z.geb_spec v n), (Z.leb_spec v p), (Z.leb_spec v n);
      simpl; split; intros ?; try done; lia.
  - destruct (Z.geb_spec v p), (Z.geb_spec v n), (Z.leb_spec v p), (Z.leb_spec v n);
      simpl; split; intros ?; try done; lia.
  - destruct (Z.geb_spec v p), (Z.geb_spec v n), (Z.leb_spec v p), (Z.leb_spec v n);
      simpl; split; intros ?; try done; lia.
  - destruct (Z.geb_spec v p), (Z.geb_spec v n), (Z.leb_spec v p), (Z.leb_spec v n);
      simpl; try lia; eexists; (split; [done|]); set_solver.
  - intros Hne. unfold fire_push_movement. simpl.
    rewrite bool_decide_eq_false_2; [done|].
    unfold expected_position, classify, positive_limit, negative_limit in Hne. exact Hne.
  - done.
Qed.

(** C4: a normal push fires the push movement only when the five entry
    conditions hold.  When one of them fails, the call returns with the
    world (event coordinates, registry buckets, effects) and the object as
    they were, no join pending, and [trying_to_push] cleared; and a call that
    leaves a join behind was made with all five conditions true. *)
Theorem C4_normal_push_entry_conditions d o w :
  (¬ entry_conditions d →
   normal_push get_surroundings get_opposite_direcion active_jump_surroundings
               PUSH_SHIFT d o w
   = Some (MkOutcome (clear_request d) o w None) ∧
   trying_to_push (clear_request d) = false) ∧
  (∀ out,
     normal_push get_surroundings get_opposite_direcion active_jump_surroundings
                 PUSH_SHIFT d o w = Some out →
     o_join out ≠ None → entry_conditions d).
Proof.
  assert (push_requested d = true ↔ entry_conditions d) as Hiff.
  { unfold push_requested, entry_conditions, includes.
    rewrite !andb_true_iff, !bool_decide_eq_true, !negb_true_iff. tauto. }
  split.
  - intros Hno. split; [|done]. unfold normal_push.
    destruct (push_requested d) eqn:Hreq; [|done].
    destruct Hno. by apply Hiff.
  - intros out. unfold normal_push.
    destruct (push_requested d) eqn:Hreq.
    + intros _ _. by apply Hiff.
    + simpl. intros [= <-]. done.
Qed.

(** ** Relocation *)

(** What the relocation proofs assume of the imported
    [JumpEvent.active_jump_surroundings]. *)
Hypothesis active_jump_surroundings_frame :
  only_flags_change active_jump_surroundings.

(** One relocation step, seen without the flags. *)
Lemma relocate_event_spec o sx sy e w w' :
  ids_unique (heap w) →
  relocate_event get_surroundings get_opposite_direcion active_jump_surroundings
                 o sx sy e w = Some w' →
  ∃ ev, heap w !! e = Some ev ∧
    skeleton (heap w')
    = <[e := erase_active
               (TileEvent.set_position (TileEvent.x ev + sx) (TileEvent.y ev + sy)
                  (TileEvent.get_location_key (TileEvent.x ev + sx)
                                              (TileEvent.y ev + sy)) ev)]>
        (skeleton (heap w)) ∧
    (∀ k, bucket_of w' k
          = (if decide (k = TileEvent.location_key ev)
             then filter (λ r, r ≠ e) (bucket_of w k) else bucket_of w k)
            ++ (if decide (k = TileEvent.get_location_key (TileEvent.x ev + sx)
                                                          (TileEvent.y ev + sy))
                then [e] else [])) ∧
    (buckets_nonempty w → buckets_nonempty w') ∧
    (∃ writes, trace w' = trace w ++ writes ∧ Forall is_registry_write writes).
Proof.
  intros Hu. unfold relocate_event.
  destruct (heap w !! e) as [ev|] eqn:He; simpl; [|done].
  destruct (move_event sx sy e w) as [w1|] eqn:Hmove; simpl; [|done].
  intros Hold.
  destruct (move_event_spec _ _ _ _ _ Hu Hmove) as (ev' & He' & Hh & Hb & Hne & Htr).
  assert (ev' = ev) as -> by congruence.
  set (w2 := active_jump_surroundings w1 _ _) in Hold.
  assert (same_but_flags w1 w') as (Hev & Htrace & Hsk).
  { eapply same_but_flags_trans; [apply active_jump_surroundings_frame|].
    by eapply deactivate_old_surroundings_frame. }
  exists ev. split; [done|]. split_and!.
  - rewrite Hsk, Hh. unfold skeleton. by rewrite fmap_insert.
  - intros k. unfold bucket_of at 1. rewrite Hev. apply Hb.
  - intros H k l. rewrite Hev. by apply Hne.
  - by rewrite Htrace.
Qed.

Lemma bucket_of_elem w k r :
  r ∈ bucket_of w k → ∃ l, events w !! k = Some l ∧ r ∈ l.
Proof.
  unfold bucket_of. destruct (events w !! k) as [l|]; simpl; [eauto|].
  intros Hin. by apply elem_of_nil in Hin.
Qed.

Lemma bucket_of_Some w k l : events w !! k = Some l → bucket_of w k = l.
Proof. unfold bucket_of. by intros ->. Qed.

(** The well-formed registry is preserved by one relocation step. *)
Lemma relocate_event_registry_wf o sx sy e w w' :
  registry_wf w →
  relocate_event get_surroundings get_opposite_direcion active_jump_surroundings
                 o sx sy e w = Some w' →
  registry_wf w'.
Proof.
  intros (Hne & Hfiled & Hu) Hstep.
  destruct (relocate_event_spec _ _ _ _ _ _ Hu Hstep)
    as (ev & He & Hsk & Hb & Hne' & _).
  split_and!.
  - by apply Hne'.
  - intros k l r Hk Hr.
    assert (r ∈ bucket_of w' k) as Hin by (by rewrite (bucket_of_Some _ _ _ Hk)).
    rewrite Hb in Hin. apply elem_of_app in Hin as [Hin|Hin].
    + assert (r ∈ bucket_of w k ∧ r ≠ e) as [Hin0 Hre].
      { case_decide as Hkk.
        - apply list_elem_of_filter in Hin as [??]. done.
        - split; [done|]. intros ->.
          apply bucket_of_elem in Hin as (l0 & Hl0 & Hin).
          destruct (Hfiled k l0 e Hl0 Hin) as (ev0 & Hev0 & Hkey). congruence. }
      apply bucket_of_elem in Hin0 as (l0 & Hl0 & Hin0).
      destruct (Hfiled k l0 r Hl0 Hin0) as (evr & Hevr & Hkey).
      assert (skeleton (heap w') !! r = Some (erase_active evr)) as Hlook.
      { rewrite Hsk, lookup_insert_ne by done. by rewrite skeleton_lookup, Hevr. }
      apply skeleton_lookup_inv in Hlook as (e' & He' & Herase).
      exists e'. split; [done|].
      apply erase_fields in Herase as (_ & _ & Hk' & _). congruence.
    + case_decide as Hnk; [|by apply elem_of_nil in Hin].
      apply list_elem_of_singleton in Hin as ->.
      assert (skeleton (heap w') !! e
              = Some (erase_active
                        (TileEvent.set_position (TileEvent.x ev + sx) (TileEvent.y ev + sy)
                           (TileEvent.get_location_key (TileEvent.x ev + sx)
                                                       (TileEvent.y ev + sy)) ev)))
        as Hlook by (by rewrite Hsk, lookup_insert_eq).
      apply skeleton_lookup_inv in Hlook as (e' & He' & Herase).
      exists e'. split; [done|].
      apply erase_fields in Herase as (_ & _ & Hk' & _). by rewrite Hk'.
  - apply (ids_unique_same_ids (heap w)); [|done]. intros r.
    rewrite (ids_via_skeleton (heap w')), Hsk.
    destruct (decide (r = e)) as [->|Hre].
    + by rewrite lookup_insert_eq, He.
    + rewrite lookup_insert_ne by done. symmetry. apply ids_via_skeleton.
Qed.

Lemma relocate_events_registry_wf o sx sy evs w w' :
  registry_wf w →
  relocate_events get_surroundings get_opposite_direcion active_jump_surroundings
                  o sx sy evs w = Some w' →
  registry_wf w'.
Proof.
  revert w. induction evs as [|e evs IH]; intros w Hwf; simpl.
  - by intros [= <-].
  - destruct (relocate_event _ _ _ o sx sy e w) as [w1|] eqn:Hstep; simpl; [|done].
    apply IH. by eapply relocate_event_registry_wf.
Qed.

Lemma leave_bucket_trace key i w w1 :
  leave_bucket key i w = Some w1 →
  ∃ writes, trace w1 = trace w ++ writes ∧ Forall is_registry_write writes.
Proof.
  unfold leave_bucket.
  destruct (events w !! key) as [bucket|]; simpl; [|done].
  destruct (filter_out_id (heap w) i bucket) as [filtered|]; simpl; [|done].
  intros [= <-]. case_decide.
  - exists [RegistryWrite key; RegistryWrite key]. simpl. split.
    + by rewrite <- app_assoc.
    + by repeat constructor.
  - exists [RegistryWrite key]. split; [done|]. by repeat constructor.
Qed.

Lemma relocate_event_trace o sx sy e w w' :
  relocate_event get_surroundings get_opposite_direcion active_jump_surroundings
                 o sx sy e w = Some w' →
  ∃ writes, trace w' = trace w ++ writes ∧ Forall is_registry_write writes.
Proof.
  unfold relocate_event, move_event.
  destruct (heap w !! e) as [ev|]; simpl; [|done].
  destruct (leave_bucket _ _ w) as [w0|] eqn:Hleave; simpl; [|done].
  intros Hold.
  destruct (leave_bucket_trace _ _ _ _ Hleave) as (tr0 & Htr0 & Hw0).
  set (nk := TileEvent.get_location_key _ _) in Hold.
  set (w0' := set_heap _ w0) in Hold.
  destruct (enter_bucket_spec nk e w0') as (_ & _ & _ & tr1 & Htr1 & Hw1).
  assert (same_but_flags (enter_bucket nk e w0') w') as (_ & Htrace & _).
  { eapply same_but_flags_trans; [apply active_jump_surroundings_frame|].
    by eapply deactivate_old_surroundings_frame. }
  exists (tr0 ++ tr1). split.
  - rewrite Htrace, Htr1. unfold w0'. simpl. by rewrite Htr0, app_assoc.
  - by apply Forall_app.
Qed.

(** The relocation loop issues registry writes and nothing else. *)
Lemma relocate_events_trace o sx sy evs w w' :
  relocate_events get_surroundings get_opposite_direcion active_jump_surroundings
                  o sx sy evs w = Some w' →
  ∃ writes, trace w' = trace w ++ writes ∧ Forall is_registry_write writes.
Proof.
  revert w. induction evs as [|e evs IH]; intros w; simpl.
  - intros [= <-]. exists []. by rewrite app_nil_r.
  - destruct (relocate_event _ _ _ o sx sy e w) as [w1|] eqn:Hstep; simpl; [|done].
    intros Hrest.
    destruct (relocate_event_trace _ _ _ _ _ _ Hstep) as (tr1 & Htr1 & Hw1).
    destruct (IH w1 Hrest) as (tr2 & Htr2 & Hw2).
    exists (tr1 ++ tr2). split.
    + by rewrite Htr2, Htr1, app_assoc.
    + by apply Forall_app.
Qed.

Lemma relocate_event_ids_unique o sx sy e w w' :
  ids_unique (heap w) →
  relocate_event get_surroundings get_opposite_direcion active_jump_surroundings
                 o sx sy e w = Some w' →
  ids_unique (heap w').
Proof.
  intros Hu Hstep.
  destruct (relocate_event_spec _ _ _ _ _ _ Hu Hstep) as (ev & He & Hsk & _).
  apply (ids_unique_same_ids (heap w)); [|done]. intros r.
  rewrite (ids_via_skeleton (heap w')), Hsk.
  destruct (decide (r = e)) as [->|Hre].
  - by rewrite lookup_insert_eq, He.
  - rewrite lookup_insert_ne by done. symmetry. apply ids_via_skeleton.
Qed.

Lemma erase_set_position a b c e e' :
  erase_active e = erase_active e' →
  erase_active (TileEvent.set_position a b c e)
  = erase_active (TileEvent.set_position a b c e').
Proof.
  destruct e, e'. unfold erase_active, TileEvent.set_position. simpl.
  intros [=]. by subst.
Qed.

(** A step that moves [e] leaves the bucket membership of every other event
    as it was. *)
Lemma bucket_step_other (b : list loc) (P Q : Prop) `{Decision P} `{Decision Q}
  (e r : loc) :
  r ≠ e →
  r ∈ (if decide P then filter (λ r, r ≠ e) b else b) ++ (if decide Q then [e] else [])
  ↔ r ∈ b.
Proof.
  intros Hne. rewrite elem_of_app. split.
  - intros [Hin|Hin].
    + case_decide; [|done]. by apply list_elem_of_filter in Hin as [_ ?].
    + case_decide; [|by apply elem_of_nil in Hin].
      by apply list_elem_of_singleton in Hin.
  - intros Hin. left. case_decide; [|done]. by apply list_elem_of_filter.
Qed.

(** The relocation loop: every listed event is moved once, every other
    event keeps its coordinates, key and buckets. *)
Lemma relocate_events_spec o sx sy evs w w' :
  ids_unique (heap w) → NoDup evs → sx ≠ 0 ∨ sy ≠ 0 →
  relocate_events get_surroundings get_opposite_direcion active_jump_surroundings
                  o sx sy evs w = Some w' →
  (∀ r ev, r ∈ evs → heap w !! r = Some ev →
     TileEvent.location_key ev
     = TileEvent.get_location_key (TileEvent.x ev) (TileEvent.y ev) →
     skeleton (heap w') !! r
     = Some (erase_active
               (TileEvent.set_position (TileEvent.x ev + sx) (TileEvent.y ev + sy)
                  (TileEvent.get_location_key (TileEvent.x ev + sx)
                                              (TileEvent.y ev + sy)) ev)) ∧
     r ∈ bucket_of w' (TileEvent.get_location_key (TileEvent.x ev + sx)
                                                 (TileEvent.y ev + sy)) ∧
     r ∉ bucket_of w' (TileEvent.location_key ev)) ∧
  (∀ r, r ∉ evs →
     skeleton (heap w') !! r = skeleton (heap w) !! r ∧
     ∀ k, r ∈ bucket_of w' k ↔ r ∈ bucket_of w k).
Proof.
  intros Hu Hnd Hshift. revert w Hu.
  induction evs as [|e evs IH]; intros w Hu; simpl.
  - intros [= <-]. split; [|done]. intros r ev Hin. by apply elem_of_nil in Hin.
  - destruct (relocate_event _ _ _ o sx sy e w) as [w1|] eqn:Hstep; simpl; [|done].
    intros Hrest. apply NoDup_cons in Hnd as [Hfresh Hnd].
    destruct (relocate_event_spec _ _ _ _ _ _ Hu Hstep)
      as (ev0 & He0 & Hsk1 & Hb1 & _).
    pose proof (relocate_event_ids_unique _ _ _ _ _ _ Hu Hstep) as Hu1.
    destruct (IH Hnd w1 Hu1 Hrest) as [IH1 IH2].
    split.
    + intros r ev Hin Hr Hkey. apply elem_of_cons in Hin as [->|Hin].
      * assert (ev = ev0) as -> by congruence.
        destruct (IH2 e Hfresh) as [Hsk' Hmem]. split_and!.
        -- by rewrite Hsk', Hsk1, lookup_insert_eq.
        -- apply Hmem. rewrite Hb1. apply elem_of_app. right.
           rewrite decide_True by done. by apply list_elem_of_singleton.
        -- rewrite Hmem, Hb1. rewrite decide_True by done.
           rewrite decide_False.
           { rewrite app_nil_r. intros Hin. by apply list_elem_of_filter in Hin as [? _]. }
           rewrite Hkey. intros Heq. apply get_location_key_inj in Heq. lia.
      * assert (r ≠ e) as Hre by (intros ->; done).
        assert (skeleton (heap w1) !! r = Some (erase_active ev)) as Hr1.
        { rewrite Hsk1, lookup_insert_ne by done. by rewrite skeleton_lookup, Hr. }
        apply skeleton_lookup_inv in Hr1 as (ev1 & Hev1 & Herase).
        pose proof (erase_fields _ _ Herase) as (Hx & Hy & Hk & _).
        rewrite <- Hx, <- Hy, <- Hk, <- (erase_set_position _ _ _ _ _ Herase).
        apply IH1; [done..|]. by rewrite Hx, Hy, Hk.
    + intros r Hnin. apply not_elem_of_cons in Hnin as [Hre Hnin].
      destruct (IH2 r Hnin) as [Hsk' Hmem]. split.
      * rewrite Hsk', Hsk1. by rewrite lookup_insert_ne.
      * intros k. rewrite Hmem, Hb1. by apply bucket_step_other.
Qed.

(** ** The push as a whole *)

Lemma registry_wf_ext w w' :
  heap w' = heap w → events w' = events w → registry_wf w → registry_wf w'.
Proof.
  intros Hh He (Hne & Hfiled & Hu). unfold registry_wf, buckets_nonempty,
    filed_under_own_key. rewrite Hh, He. done.
Qed.

Lemma foldl_emit (f : body → effect) (l : list body) w :
  heap (foldl (λ w b, emit (f b) w) w l) = heap w ∧
  events (foldl (λ w b, emit (f b) w) w l) = events w ∧
  trace (foldl (λ w b, emit (f b) w) w l) = trace w ++ (f <$> l).
Proof.
  revert w. induction l as [|b l IH]; intros w; simpl.
  - by rewrite app_nil_r.
  - destruct (IH (emit (f b) w)) as (-> & -> & ->). simpl.
    by rewrite <- app_assoc.
Qed.

Lemma shifts_unit_vector direction dx dy :
  unit_vector direction = Some (dx, dy) →
  (dx ≠ 0 ∨ dy ≠ 0) ∧
  ∃ tween_x tween_y, shifts PUSH_SHIFT direction = (dx, dy, tween_x, tween_y).
Proof.
  unfold unit_vector, shifts.
  repeat case_decide; intros [= <- <-]; (split; [lia | eauto]).
Qed.

(** A push that proceeds is: pause, the relocation loop, the optional
    [before_move] hook, one tween per body. *)
Lemma fire_push_movement_proceeds d o push_end before_move target_only w out j :
  fire_push_movement get_surroundings get_opposite_direcion active_jump_surroundings
                     PUSH_SHIFT d o push_end before_move target_only w = Some out →
  o_join out = Some j →
  ∃ sx sy tx ty w2 tweens,
    shifts PUSH_SHIFT (trying_to_push_direction d) = (sx, sy, tx, ty) ∧
    (target_only = true ∨ expected_position d o = Some (trying_to_push_direction d)) ∧
    relocate_events get_surroundings get_opposite_direcion active_jump_surroundings
                    o sx sy (get_events o) (emit PhysicsPause w) = Some w2 ∧
    heap (o_world out) = heap w2 ∧ events (o_world out) = events w2 ∧
    trace (o_world out)
    = trace w2 ++ (if before_move then [BeforeMove tx ty] else []) ++ tweens ∧
    Forall is_tween_or_hook tweens ∧
    length tweens = length (unresolved j) ∧
    j = MkJoin (ObjectBody :: (if target_only then [] else [Shadow; HeroBody])) push_end ∧
    o_object out = shift_current sx sy o ∧
    o_data out = (if target_only then d else set_pushing true "push" d).
Proof.
  unfold fire_push_movement. case_match eqn:Hcond; [|by intros [= <-]].
  assert (trying_to_push_direction (if target_only then d else set_pushing true "push" d)
          = trying_to_push_direction d) as -> by (by destruct target_only).
  destruct (shifts PUSH_SHIFT (trying_to_push_direction d)) as [[[sx sy] tx] ty] eqn:Hs.
  destruct (relocate_events _ _ _ o sx sy (get_events o) (emit PhysicsPause w))
    as [w2|] eqn:Hloop; cbn [mbind option_bind]; [|done].
  intros [= <-]. cbn [o_join o_world o_object o_data]. intros [= <-].
  set (d' := if target_only then d else set_pushing true "push" d).
  set (sprites := ObjectBody :: (if target_only then [] else [Shadow; HeroBody])).
  set (w3 := if before_move then emit (BeforeMove tx ty) w2 else w2).
  destruct (foldl_emit (tween_of d' o sx sy tx ty) sprites w3) as (Hh & He & Ht).
  exists sx, sy, tx, ty, w2, (tween_of d' o sx sy tx ty <$> sprites).
  split_and!; try done.
  - apply orb_true_iff in Hcond as [->|Hc]; [by left|]. right.
    by apply bool_decide_eq_true in Hc.
  - etrans; [exact Hh|]. unfold w3. by destruct before_move.
  - etrans; [exact He|]. unfold w3. by destruct before_move.
  - etrans; [exact Ht|]. unfold w3. destruct before_move; simpl; [|done].
    by rewrite <- app_assoc.
  - apply Forall_fmap, Forall_forall. intros b _. unfold compose, tween_of.
    repeat case_match; exact I.
  - by rewrite length_fmap.
Qed.

Lemma fire_push_movement_registry_wf d o push_end before_move target_only w out :
  registry_wf w →
  fire_push_movement get_surroundings get_opposite_direcion active_jump_surroundings
                     PUSH_SHIFT d o push_end before_move target_only w = Some out →
  registry_wf (o_world out).
Proof.
  intros Hwf Hfire. destruct (o_join out) as [j|] eqn:Hj.
  - destruct (fire_push_movement_proceeds _ _ _ _ _ _ _ _ Hfire Hj)
      as (sx & sy & tx & ty & w2 & tw & _ & _ & Hloop & Hh & He & _).
    apply (registry_wf_ext w2); [done..|].
    eapply relocate_events_registry_wf; [|done].
    by apply (registry_wf_ext w).
  - unfold fire_push_movement in Hfire. case_match.
    + destruct (shifts _ _) as [[[sx sy] tx] ty].
      destruct (relocate_events _ _ _ _ _ _ _ _) as [w2|]; simpl in Hfire; [|done].
      injection Hfire as <-. done.
    + by injection Hfire as <-.
Qed.

Lemma run_push_registry_wf c w w' :
  registry_wf w →
  run_push get_surroundings get_opposite_direcion active_jump_surroundings
           PUSH_SHIFT c w = Some w' →
  registry_wf w'.
Proof.
  intros Hwf. unfold run_push. destruct c as [d o|d o bm pe].
  - unfold normal_push. case_match.
    + destruct (fire_push_movement _ _ _ _ d o false false false w) as [out|] eqn:Hfire;
        simpl; [|done].
      intros [= <-]. by eapply fire_push_movement_registry_wf.
    + simpl. by intros [= <-].
  - unfold target_only_push.
    destruct (fire_push_movement _ _ _ _ d o pe bm true w) as [out|] eqn:Hfire;
      simpl; [|done].
    intros [= <-]. by eapply fire_push_movement_registry_wf.
Qed.

Lemma run_pushes_registry_wf calls w w' :
  registry_wf w →
  run_pushes get_surroundings get_opposite_direcion active_jump_surroundings
             PUSH_SHIFT calls w = Some w' →
  registry_wf w'.
Proof.
  revert w. induction calls as [|c calls IH]; intros w Hwf; simpl.
  - by intros [= <-].
  - destruct (run_push _ _ _ _ c w) as [w1|] eqn:Hc; simpl; [|done].
    apply IH. by eapply run_push_registry_wf.
Qed.

(** The well-formed registry has the two properties of the invariant. *)
Lemma registry_wf_invariant w :
  registry_wf w → buckets_nonempty w ∧ bucket_contains_its_events w.
Proof.
  intros (Hne & Hfiled & Hu). split; [done|].
  intros r ev (k & l & Hk & Hr) Hev l' Hl'.
  destruct (Hfiled k l r Hk Hr) as (ev' & Hev' & Hkey).
  assert (ev' = ev) as -> by congruence. congruence.
Qed.

(** ** Every event stays filed *)

Lemma relocate_event_every_event_filed o sx sy e w w' :
  ids_unique (heap w) → every_event_filed w →
  relocate_event get_surroundings get_opposite_direcion active_jump_surroundings
                 o sx sy e w = Some w' →
  every_event_filed w'.
Proof.
  intros Hu Hfiled Hstep r ev' Hr.
  destruct (relocate_event_spec _ _ _ _ _ _ Hu Hstep) as (ev & He & Hsk & Hb & _).
  assert (skeleton (heap w') !! r = Some (erase_active ev')) as Hlook
    by (by rewrite skeleton_lookup, Hr).
  rewrite Hsk in Hlook. rewrite Hb.
  destruct (decide (r = e)) as [->|Hne].
  - rewrite lookup_insert_eq in Hlook. apply (inj Some) in Hlook.
    apply erase_fields in Hlook as (_ & _ & Hk & _). simpl in Hk.
    apply elem_of_app. right. rewrite decide_True by done.
    by apply list_elem_of_singleton.
  - rewrite lookup_insert_ne in Hlook by done.
    apply skeleton_lookup_inv in Hlook as (ev0 & Hev0 & Herase).
    apply erase_fields in Herase as (_ & _ & Hk & _).
    apply bucket_step_other; [done|]. rewrite <- Hk. by apply Hfiled.
Qed.

Lemma relocate_events_every_event_filed o sx sy evs w w' :
  ids_unique (heap w) → every_event_filed w →
  relocate_events get_surroundings get_opposite_direcion active_jump_surroundings
                  o sx sy evs w = Some w' →
  every_event_filed w'.
Proof.
  revert w. induction evs as [|e evs IH]; intros w Hu Hfiled; simpl.
  - by intros [= <-].
  - destruct (relocate_event _ _ _ o sx sy e w) as [w1|] eqn:Hstep; simpl; [|done].
    apply IH.
    + by eapply relocate_event_ids_unique.
    + by eapply relocate_event_every_event_filed.
Qed.

Lemma every_event_filed_ext w w' :
  heap w' = heap w → events w' = events w → every_event_filed w → every_event_filed w'.
Proof.
  intros Hh He Hfiled r ev. unfold bucket_of. rewrite Hh, He. apply Hfiled.
Qed.

Lemma fire_push_movement_every_event_filed d o push_end before_move target_only w out :
  ids_unique (heap w) → every_event_filed w →
  fire_push_movement get_surroundings get_opposite_direcion active_jump_surroundings
                     PUSH_SHIFT d o push_end before_move target_only w = Some out →
  every_event_filed (o_world out).
Proof.
  intros Hu Hfiled Hfire. destruct (o_join out) as [j|] eqn:Hj.
  - destruct (fire_push_movement_proceeds _ _ _ _ _ _ _ _ Hfire Hj)
      as (sx & sy & tx & ty & w2 & tw & _ & _ & Hloop & Hh & He & _).
    apply (every_event_filed_ext w2); [done..|].
    eapply relocate_events_every_event_filed; [| |done]; done.
  - unfold fire_push_movement in Hfire. case_match.
    + destruct (shifts _ _) as [[[sx sy] tx] ty].
      destruct (relocate_events _ _ _ _ _ _ _ _) as [w2|]; simpl in Hfire; [|done].
      injection Hfire as <-. done.
    + by injection Hfire as <-.
Qed.

Lemma run_push_every_event_filed c w w' :
  ids_unique (heap w) → every_event_filed w →
  run_push get_surroundings get_opposite_direcion active_jump_surroundings
           PUSH_SHIFT c w = Some w' →
  every_event_filed w'.
Proof.
  intros Hu Hfiled. unfold run_push. destruct c as [d o|d o bm pe].
  - unfold normal_push. case_match.
    + destruct (fire_push_movement _ _ _ _ d o false false false w) as [out|] eqn:Hfire;
        simpl; [|done].
      intros [= <-]. by eapply fire_push_movement_every_event_filed.
    + simpl. by intros [= <-].
  - unfold target_only_push.
    destruct (fire_push_movement _ _ _ _ d o pe bm true w) as [out|] eqn:Hfire;
      simpl; [|done].
    intros [= <-]. by eapply fire_push_movement_every_event_filed.
Qed.

Lemma run_pushes_every_event_filed calls w w' :
  registry_wf w → every_event_filed w →
  run_pushes get_surroundings get_opposite_direcion active_jump_surroundings
             PUSH_SHIFT calls w = Some w' →
  every_event_filed w'.
Proof.
  revert w. induction calls as [|c calls IH]; intros w Hwf Hfiled; simpl.
  - by intros [= <-].
  - destruct (run_push _ _ _ _ c w) as [w1|] eqn:Hc; simpl; [|done].
    apply IH.
    + by eapply run_push_registry_wf.
    + eapply run_push_every_event_filed; [|done..]. by destruct Hwf as (_ & _ & ?).
Qed.

(** ** A push on a well-formed registry returns *)

Lemma registry_wf_live w : registry_wf w → registry_live w.
Proof.
  intros (_ & Hfiled & _) k l r Hk Hr.
  destruct (Hfiled k l r Hk Hr) as (ev & -> & _). eauto.
Qed.

Lemma same_but_flags_live w w' :
  same_but_flags w w' → registry_live w → registry_live w'.
Proof.
  intros (He & _ & Hsk) Hlive k l r Hk Hr. rewrite He in Hk.
  destruct (Hlive k l r Hk Hr) as [e Hre].
  destruct (skeleton_lookup_Some _ _ _ _ Hsk Hre) as (e' & -> & _). eauto.
Qed.

Lemma deactivate_bucket_total o s bucket w :
  (∀ r, r ∈ bucket → is_Some (heap w !! r)) →
  is_Some (deactivate_bucket get_opposite_direcion o s bucket w).
Proof.
  revert w. induction bucket as [|r bucket IH]; intros w Hlive; simpl; [eauto|].
  destruct (deactivate_old_surr_event _ o s r w) as [w1|] eqn:H1; simpl.
  - apply IH. intros r' Hr'.
    destruct (Hlive r') as [e Hre]; [by right|].
    destruct (deactivate_old_surr_event_frame _ _ _ _ _ H1) as (_ & _ & Hsk).
    destruct (skeleton_lookup_Some _ _ _ _ Hsk Hre) as (e' & -> & _). eauto.
  - unfold deactivate_old_surr_event in H1.
    destruct (Hlive r) as [e Hre]; [by left|]. rewrite Hre in H1. simpl in H1.
    by repeat case_match.
Qed.

Lemma deactivate_old_surroundings_total o ss w :
  registry_live w →
  is_Some (deactivate_old_surroundings get_opposite_direcion o ss w).
Proof.
  revert w. induction ss as [|s ss IH]; intros w Hlive; simpl; [eauto|].
  destruct (events w !! _) as [bucket|] eqn:Hb; simpl; [|by apply IH].
  destruct (deactivate_bucket_total o s bucket w) as [w1 H1].
  { intros r Hr. by eapply Hlive. }
  rewrite H1. simpl. apply IH.
  eapply same_but_flags_live; [|done]. by eapply deactivate_bucket_frame.
Qed.

Lemma leave_bucket_total key i w :
  registry_live w → is_Some (events w !! key) → is_Some (leave_bucket key i w).
Proof.
  intros Hlive [bucket Hb]. unfold leave_bucket. rewrite Hb. simpl.
  destruct (filter_out_id_total (heap w) i bucket) as [filtered ->]; [|simpl; eauto].
  intros r Hr. by eapply Hlive.
Qed.

(** One relocation step returns when the event is live, its bucket exists
    and the registry holds live references only. *)
Lemma relocate_event_total o sx sy e ev w :
  registry_wf w → heap w !! e = Some ev →
  is_Some (events w !! TileEvent.location_key ev) →
  is_Some (relocate_event get_surroundings get_opposite_direcion
                          active_jump_surroundings o sx sy e w).
Proof.
  intros Hwf He Hb. pose proof (registry_wf_live _ Hwf) as Hlive.
  destruct (leave_bucket_total (TileEvent.location_key ev) (TileEvent.id ev) w Hlive Hb)
    as [w0 Hleave].
  assert (∃ w1, move_event sx sy e w = Some w1) as [w1 Hmove].
  { unfold move_event. rewrite He. simpl. rewrite Hleave. simpl. eauto. }
  unfold relocate_event. rewrite He. simpl. rewrite Hmove. simpl.
  apply deactivate_old_surroundings_total.
  eapply same_but_flags_live; [apply active_jump_surroundings_frame|].
  destruct Hwf as (_ & _ & Hu).
  destruct (move_event_spec _ _ _ _ _ Hu Hmove) as (ev' & He' & Hh & Hbk & _).
  intros k l r Hk Hr. rewrite Hh.
  destruct (decide (r = e)) as [->|Hne]; [rewrite lookup_insert_eq; eauto|].
  rewrite lookup_insert_ne by done.
  assert (r ∈ bucket_of w1 k) as Hin by (by rewrite (bucket_of_Some _ _ _ Hk)).
  rewrite Hbk in Hin. apply bucket_step_other in Hin; [|done].
  apply bucket_of_elem in Hin as (l0 & Hl0 & Hin). by eapply Hlive.
Qed.

(** The relocation loop returns on a well-formed registry in which the
    listed events are registered. *)
Lemma relocate_events_total o sx sy evs w :
  registry_wf w → NoDup evs → all_registered evs w →
  is_Some (relocate_events get_surroundings get_opposite_direcion
                           active_jump_surroundings o sx sy evs w).
Proof.
  revert w. induction evs as [|e evs IH]; intros w Hwf Hnd Hreg; simpl; [eauto|].
  apply NoDup_cons in Hnd as [Hfresh Hnd].
  destruct (Hreg e) as (ev & He & Hin); [by left|].
  apply bucket_of_elem in Hin as (l & Hl & _).
  destruct (relocate_event_total o sx sy e ev w Hwf He) as [w1 Hstep]; [eauto|].
  rewrite Hstep. simpl.
  apply IH; [by eapply relocate_event_registry_wf | done | ].
  intros r Hr. assert (r ≠ e) as Hne by (intros ->; done).
  destruct (Hreg r) as (evr & Hevr & Hinr); [by right|].
  destruct (relocate_event_spec _ _ _ _ _ _ (proj2 (proj2 Hwf)) Hstep)
    as (ev' & He' & Hsk & Hbk & _).
  assert (skeleton (heap w1) !! r = Some (erase_active evr)) as Hlook.
  { rewrite Hsk, lookup_insert_ne by done. by rewrite skeleton_lookup, Hevr. }
  apply skeleton_lookup_inv in Hlook as (e1 & He1 & Herase).
  exists e1. split; [done|].
  apply erase_fields in Herase as (_ & _ & -> & _).
  rewrite Hbk. by apply bucket_step_other.
Qed.

Lemma fire_push_movement_total d o push_end before_move target_only w :
  registry_wf w → NoDup (get_events o) → all_registered (get_events o) w →
  is_Some (fire_push_movement get_surroundings get_opposite_direcion
                              active_jump_surroundings PUSH_SHIFT
                              d o push_end before_move target_only w).
Proof.
  intros Hwf Hnd Hreg. unfold fire_push_movement. case_match; [|eauto].
  destruct (shifts PUSH_SHIFT _) as [[[sx sy] tx] ty].
  destruct (relocate_events_total o sx sy (get_events o) (emit PhysicsPause w))
    as [w2 ->]; [by apply (registry_wf_ext w) | done | done | ].
  simpl. eauto.
Qed.

Lemma normal_push_total d o w :
  registry_wf w → NoDup (get_events o) → all_registered (get_events o) w →
  is_Some (normal_push get_surroundings get_opposite_direcion
                       active_jump_surroundings PUSH_SHIFT d o w).
Proof.
  intros Hwf Hnd Hreg. unfold normal_push. case_match; [|simpl; eauto].
  destruct (fire_push_movement_total d o false false false w Hwf Hnd Hreg) as [out ->].
  simpl. eauto.
Qed.

(** C1: after a push that proceeds in a cardinal direction, an event [r]
    owned by the pushed object, formerly [ev], has its [x] and [y] shifted by
    the unit vector of the direction (up (0,-1), down (0,+1), left (-1,0),
    right (+1,0)), carries the key [get_location_key(x, y)] of its new
    coordinates, is in the bucket of that key and is in no bucket under its
    old key.  The world is one where no two events share an id, the object
    lists each of its events once and the event started with the key of its
    coordinates. *)
Theorem C1_push_relocates_owned_events d o push_end before_move target_only w out
  dx dy r ev :
  ids_unique (heap w) →
  NoDup (get_events o) →
  unit_vector (trying_to_push_direction d) = Some (dx, dy) →
  fire_push_movement get_surroundings get_opposite_direcion active_jump_surroundings
                     PUSH_SHIFT d o push_end before_move target_only w = Some out →
  o_join out ≠ None →
  r ∈ get_events o →
  heap w !! r = Some ev →
  TileEvent.location_key ev
  = TileEvent.get_location_key (TileEvent.x ev) (TileEvent.y ev) →
  relocated dx dy r ev (o_world out).
Proof.
  intros Hu Hnd Hdir Hfire Hj Hr Hev Hkey.
  destruct (o_join out) as [j|] eqn:Hjoin; [clear Hj|done].
  destruct (fire_push_movement_proceeds _ _ _ _ _ _ _ _ Hfire Hjoin)
    as (sx & sy & tx & ty & w2 & tw & Hs & _ & Hloop & Hh & He & _).
  destruct (shifts_unit_vector _ _ _ Hdir) as (Hnz & tx' & ty' & Hs').
  rewrite Hs' in Hs. injection Hs as <- <- _ _.
  destruct (relocate_events_spec o dx dy (get_events o) (emit PhysicsPause w) w2
              Hu Hnd Hnz Hloop) as [Hmoved _].
  destruct (Hmoved r ev Hr Hev Hkey) as (Hsk & Hin & Hout).
  apply skeleton_lookup_inv in Hsk as (ev' & Hev' & Herase).
  apply erase_fields in Herase as (Hx & Hy & Hk & _). simpl in Hx, Hy, Hk.
  exists ev'. split_and!.
  - by rewrite Hh.
  - done.
  - done.
  - by rewrite Hk, Hx, Hy.
  - rewrite Hk, He. by apply bucket_of_elem.
  - intros l Hl. rewrite He in Hl. by rewrite <- (bucket_of_Some _ _ _ Hl).
Qed.

(** C2: the registry invariant.  In a registry where every bucket is
    non-empty, every event of a bucket carries the key of that bucket and no
    two events share an id, these three facts survive every relocation step
    and hence any sequence of pushes; and they give the two properties of the
    invariant: every key of the registry has a non-empty bucket, and for
    every registered event the bucket at its [location_key], when present,
    contains it.  Where moreover every event of the heap is filed in the
    registry, that too survives every relocation step and any sequence of
    pushes, and the second property holds of every event. *)
Theorem C2_registry_invariant :
  (∀ o sx sy e w w',
     registry_wf w →
     relocate_event get_surroundings get_opposite_direcion active_jump_surroundings
                    o sx sy e w = Some w' →
     registry_wf w' ∧ (every_event_filed w → every_event_filed w')) ∧
  (∀ calls w w',
     registry_wf w →
     run_pushes get_surroundings get_opposite_direcion active_jump_surroundings
                PUSH_SHIFT calls w = Some w' →
     registry_wf w' ∧ buckets_nonempty w' ∧ bucket_contains_its_events w' ∧
     (every_event_filed w →
      ∀ r ev, heap w' !! r = Some ev →
              ∀ l, events w' !! TileEvent.location_key ev = Some l → r ∈ l)) ∧
  (∀ w, registry_wf w → buckets_nonempty w ∧ bucket_contains_its_events w).
Proof.
  split_and!.
  - intros o sx sy e w w' Hwf Hstep. split.
    + by eapply relocate_event_registry_wf.
    + intros Hfiled. eapply relocate_event_every_event_filed; [|done..].
      by destruct Hwf as (_ & _ & ?).
  - intros calls w w' Hwf Hrun.
    pose proof (run_pushes_registry_wf _ _ _ Hwf Hrun) as Hwf'.
    split; [done|]. destruct (registry_wf_invariant _ Hwf') as [Hne Hin].
    split_and!; [done..|].
    intros Hfiled r ev Hr l Hl.
    pose proof (run_pushes_every_event_filed _ _ _ Hwf Hfiled Hrun r ev Hr) as Hb.
    by rewrite (bucket_of_Some _ _ _ Hl) in Hb.
  - apply registry_wf_invariant.
Qed.

(** C10: whenever [normal_push] returns, whether the push fired or not,
    [data.trying_to_push] is false and [data.push_timer] is null; and on a
    well-formed registry in which the events of the object are registered,
    each listed once, the call does return. *)
Theorem C10_normal_push_consumes_request d o w :
  (∀ out,
     normal_push get_surroundings get_opposite_direcion active_jump_surroundings
                 PUSH_SHIFT d o w = Some out →
     trying_to_push (o_data out) = false ∧ push_timer (o_data out) = None) ∧
  (registry_wf w → NoDup (get_events o) → all_registered (get_events o) w →
   ∃ out,
     normal_push get_surroundings get_opposite_direcion active_jump_surroundings
                 PUSH_SHIFT d o w = Some out).
Proof.
  split.
  - intros out. unfold normal_push.
    destruct (if push_requested d then _ else _) as [r0|]; simpl; [|done].
    by intros [= <-].
  - intros Hwf Hnd Hreg. by apply normal_push_total.
Qed.

(** ** Joining the tweens *)

Lemma tweens_complete_cons b signals (s : Data * World * join) :
  tweens_complete (b :: signals) s = tweens_complete signals (tween_complete b s).
Proof. done. Qed.

Lemma tweens_complete_settled signals (s : Data * World * join) :
  unresolved (snd s) = [] → tweens_complete signals s = s.
Proof.
  destruct s as [[d w] j]. simpl. intros Hj.
  induction signals as [|b signals IH]; [done|].
  rewrite tweens_complete_cons. unfold tween_complete. rewrite Hj.
  rewrite bool_decide_eq_false_2 by apply not_elem_of_nil. exact IH.
Qed.

(** Whatever signals arrive and in whatever order, the continuation runs
    exactly when every scheduled body has signalled, and then once. *)
Lemma tweens_complete_trace signals d w j :
  unresolved j ≠ [] →
  trace (snd (fst (tweens_complete signals (d, w, j))))
  = trace w ++ (if decide (Forall (λ b, b ∈ signals) (unresolved j))
                then PhysicsResume :: (if push_end_supplied j then [PushEnd] else [])
                else []).
Proof.
  revert d w j. induction signals as [|b signals IH]; intros d w j Hne.
  - simpl. rewrite decide_False; [by rewrite app_nil_r|].
    destruct (unresolved j) as [|b0 u]; [done|].
    intros Hall. apply Forall_cons in Hall as [Hin _]. by apply elem_of_nil in Hin.
  - rewrite tweens_complete_cons. unfold tween_complete.
    destruct (bool_decide (b ∈ unresolved j)) eqn:Hb.
    + apply bool_decide_eq_true in Hb.
      destruct (filter (λ b', b' ≠ b) (unresolved j)) as [|b1 u1] eqn:Hf.
      * rewrite tweens_complete_settled by done. unfold all_resolved. simpl.
        rewrite decide_True.
        { destruct (push_end_supplied j); simpl; by rewrite <- ?app_assoc. }
        apply Forall_forall. intros x Hx.
        destruct (decide (x = b)) as [->|Hxb]; [by left|].
        assert (x ∈ filter (λ b', b' ≠ b) (unresolved j)) as Hin
          by (by apply list_elem_of_filter).
        rewrite Hf in Hin. by apply elem_of_nil in Hin.
      * rewrite IH by done. simpl. f_equal. apply decide_ext.
        rewrite <- Hf, !Forall_forall. split.
        -- intros Hall x Hx. destruct (decide (x = b)) as [->|Hxb]; [by left|].
           right. apply Hall. by apply list_elem_of_filter.
        -- intros Hall x [Hxb Hx]%list_elem_of_filter.
           specialize (Hall x Hx). by apply elem_of_cons in Hall as [?|?].
    + apply bool_decide_eq_false in Hb.
      rewrite IH by done. f_equal. apply decide_ext.
      rewrite !Forall_forall. split.
      * intros Hall x Hx. right. by apply Hall.
      * intros Hall x Hx. specialize (Hall x Hx).
        apply elem_of_cons in Hall as [->|?]; done.
Qed.

Lemma tweens_complete_registry signals d w j :
  heap (snd (fst (tweens_complete signals (d, w, j)))) = heap w ∧
  events (snd (fst (tweens_complete signals (d, w, j)))) = events w.
Proof.
  revert d w j. induction signals as [|b signals IH]; intros d w j; [done|].
  rewrite tweens_complete_cons. unfold tween_complete.
  destruct (bool_decide (b ∈ unresolved j)); [|apply IH].
  destruct (filter (λ b', b' ≠ b) (unresolved j)) as [|b1 u1].
  - rewrite tweens_complete_settled by done. unfold all_resolved. simpl.
    by destruct (push_end_supplied j).
  - apply IH.
Qed.

(** C6: a push that proceeds appends to the effects, in this order: one
    physics pause, then the registry writes of the relocation, then the
    [before_move] hook and one tween per body; it schedules the object body
    and, when not target-only, the shadow and the hero body.  Whatever
    completion signals then arrive, physics is resumed exactly when every
    scheduled body has signalled, once, and the [push_end] hook, when
    supplied, runs right after the resume; until then nothing is appended. *)
Theorem C6_physics_paused_until_all_tweens_complete d o push_end before_move
  target_only w out j signals :
  fire_push_movement get_surroundings get_opposite_direcion active_jump_surroundings
                     PUSH_SHIFT d o push_end before_move target_only w = Some out →
  o_join out = Some j →
  unresolved j = ObjectBody :: (if target_only then [] else [Shadow; HeroBody]) ∧
  (∃ writes tweens,
     trace (o_world out) = trace w ++ PhysicsPause :: writes ++ tweens ∧
     Forall is_registry_write writes ∧ Forall is_tween_or_hook tweens) ∧
  trace (snd (fst (tweens_complete signals (o_data out, o_world out, j))))
  = trace (o_world out)
    ++ (if decide (Forall (λ b, b ∈ signals) (unresolved j))
        then PhysicsResume :: (if push_end then [PushEnd] else [])
        else []).
Proof.
  intros Hfire Hj.
  destruct (fire_push_movement_proceeds _ _ _ _ _ _ _ _ Hfire Hj)
    as (sx & sy & tx & ty & w2 & tw & _ & _ & Hloop & _ & _ & Htr & Htw & _ & -> & _).
  destruct (relocate_events_trace _ _ _ _ _ _ Hloop) as (writes & Hw2 & Hwrites).
  split_and!.
  - done.
  - exists writes, ((if before_move then [BeforeMove tx ty] else []) ++ tw).
    split_and!.
    + rewrite Htr, Hw2. simpl. by rewrite <- !app_assoc.
    + done.
    + apply Forall_app. split; [|done]. destruct before_move; by repeat constructor.
  - by rewrite tweens_complete_trace.
Qed.

End PushProperties.

(** ** The models meet the assumptions *)

Lemma activate_jump_event_frame target r w :
  same_but_flags w (activate_jump_event target r w).
Proof.
  unfold activate_jump_event.
  destruct (heap w !! r) as [ev|] eqn:Hr; [|apply same_but_flags_refl].
  repeat case_match; try apply same_but_flags_refl.
  split_and!; [done..|]. simpl. by apply (skeleton_insert_same _ _ ev).
Qed.

Lemma foldl_same_but_flags {A} (f : World → A → World) (l : list A) w :
  (∀ w a, same_but_flags w (f w a)) → same_but_flags w (foldl f w l).
Proof.
  intros Hf. revert w. induction l as [|a l IH]; intros w; simpl.
  - apply same_but_flags_refl.
  - eapply same_but_flags_trans; [apply Hf | apply IH].
Qed.

(** The model of [JumpEvent.active_jump_surroundings] changes activation
    flags only. *)
Lemma active_jump_surroundings_model_frame :
  only_flags_change active_jump_surroundings_model.
Proof.
  intros w ss layer. unfold active_jump_surroundings_model.
  apply foldl_same_but_flags. clear w. intros w s.
  destruct (events w !! _) as [bucket|]; [|apply same_but_flags_refl].
  apply foldl_same_but_flags. intros w' r. apply activate_jump_event_frame.
Qed.

(** Ids that differ along the contents of the heap are unique. *)
Lemma ids_unique_intro h :
  NoDup ((λ p, TileEvent.id (snd p)) <$> map_to_list h) → ids_unique h.
Proof.
  intros Hnd r1 r2 e1 e2 H1 H2 Hid.
  apply elem_of_map_to_list in H1, H2.
  apply list_elem_of_lookup in H1 as [i Hi], H2 as [j Hj].
  assert (i = j) as ->.
  { eapply (NoDup_lookup _ i j (TileEvent.id e1)); [exact Hnd|..].
    - by rewrite list_lookup_fmap, Hi.
    - rewrite list_lookup_fmap, Hj. simpl. by rewrite Hid. }
  congruence.
Qed.

(** A decidable form of the well-formed registry. *)
Lemma registry_wf_intro w :
  map_Forall (λ k l, l ≠ [] ∧
                     Forall (λ r, TileEvent.location_key <$> heap w !! r = Some k) l)
             (events w) →
  NoDup ((λ p, TileEvent.id (snd p)) <$> map_to_list (heap w)) →
  registry_wf w.
Proof.
  intros Hm Hnd. split_and!.
  - intros k l Hk. by destruct (Hm k l Hk).
  - intros k l r Hk Hr. destruct (Hm k l Hk) as [_ Hall].
    rewrite Forall_forall in Hall. specialize (Hall r Hr).
    destruct (heap w !! r) as [ev|]; [|done]. exists ev. split; [done|].
    by injection Hall.
  - by apply ids_unique_intro.
Qed.

Lemma scene_world_wf : registry_wf scene_world.
Proof.
  apply registry_wf_intro.
  - eapply bool_decide_unpack. by vm_compute.
  - eapply bool_decide_unpack. by vm_compute.
Qed.

(** ** The theorems at the scene *)

(** The push of the scene, evaluated: both owned events have moved one tile
    to the right, their old buckets are gone, the static Jump event two tiles
    to the left of the first lost its flag for [right], the dynamic one kept
    its flags, and the effects come in the order pause, writes, tweens. *)
Example scene_push_evaluated :
  events (o_world scene_pushed) !! "4_3"%string = Some [0%nat] ∧
  events (o_world scene_pushed) !! "4_4"%string = Some [1%nat] ∧
  events (o_world scene_pushed) !! "3_3"%string = None ∧
  events (o_world scene_pushed) !! "3_4"%string = None ∧
  (TileEvent.location_key <$> heap (o_world scene_pushed) !! 0%nat)
  = Some "4_3"%string ∧
  ((λ e, TileEvent.is_active e right) <$> heap (o_world scene_pushed) !! 2%nat)
  = Some false ∧
  ((λ e, TileEvent.is_active e down) <$> heap (o_world scene_pushed) !! 3%nat)
  = Some true ∧
  trace (o_world scene_pushed)
  = [PhysicsPause;
     RegistryWrite "3_3"; RegistryWrite "3_3"; RegistryWrite "4_3"; RegistryWrite "4_3";
     RegistryWrite "3_4"; RegistryWrite "3_4"; RegistryWrite "4_4"; RegistryWrite "4_4";
     TweenStart ObjectBody (72 # 1) (56 # 1);
     TweenStart Shadow (56 # 1) (112 # 2);
     TweenStart HeroBody (56 # 1) (112 # 2)].
Proof. by vm_compute. Qed.

Lemma C1_witness :
  unit_vector (trying_to_push_direction scene_data) = Some (1, 0) ∧
  o_join scene_pushed ≠ None ∧
  relocated 1 0 0%nat (TileEvent.init 0 (jump_at 3 3 false)) (o_world scene_pushed).
Proof.
  split; [by vm_compute|]. split; [by vm_compute|].
  apply (C1_push_relocates_owned_events
           get_surroundings_model opposite_direction active_jump_surroundings_model 16
           active_jump_surroundings_model_frame
           scene_data scene_object false false false scene_world scene_pushed).
  - apply scene_world_wf.
  - eapply bool_decide_unpack. by vm_compute.
  - by vm_compute.
  - by vm_compute.
  - by vm_compute.
  - eapply bool_decide_unpack. by vm_compute.
  - by vm_compute.
  - by vm_compute.
Defined.

Lemma scene_every_event_filed : every_event_filed scene_world.
Proof.
  intros r ev Hr. apply elem_of_map_to_list in Hr.
  apply list_elem_of_In in Hr. vm_compute in Hr.
  destruct Hr as [Hr|[Hr|[Hr|[Hr|[]]]]]; injection Hr as <- <-;
    vm_compute; apply list_elem_of_here.
Qed.

Lemma C2_witness :
  registry_wf scene_world ∧
  registry_wf scene_first_relocated ∧
  buckets_nonempty scene_after_pushes ∧
  bucket_contains_its_events scene_after_pushes ∧
  (∀ r ev, heap scene_after_pushes !! r = Some ev →
           ∀ l, events scene_after_pushes !! TileEvent.location_key ev = Some l →
                r ∈ l).
Proof.
  destruct (C2_registry_invariant
              get_surroundings_model opposite_direction active_jump_surroundings_model
              16 active_jump_surroundings_model_frame) as (Hstep & Hseq & _).
  split; [apply scene_world_wf|]. split.
  - apply (Hstep scene_object 1 0 0%nat scene_world); [apply scene_world_wf|].
    by vm_compute.
  - destruct (Hseq [NormalPush scene_data scene_object] scene_world scene_after_pushes)
      as (_ & Hne & Hin & Hall); [apply scene_world_wf | by vm_compute |].
    split_and!; [done..|]. apply Hall, scene_every_event_filed.
Defined.

Lemma C3_witness :
  expected_position scene_data_misaligned scene_object = Some "down"%string ∧
  fire_push_movement get_surroundings_model opposite_direction
                     active_jump_surroundings_model 16
                     scene_data_misaligned scene_object false false false scene_world
  = Some (MkOutcome scene_data_misaligned scene_object scene_world None).
Proof.
  split; [by vm_compute|].
  apply (C3_direction_validation
           get_surroundings_model opposite_direction active_jump_surroundings_model 16
           scene_data_misaligned scene_object false false scene_world).
  by vm_compute.
Defined.

Lemma C4_witness :
  casting_psynergy scene_data_casting = true ∧
  normal_push get_surroundings_model opposite_direction
              active_jump_surroundings_model 16
              scene_data_casting scene_object scene_world
  = Some (MkOutcome (clear_request scene_data_casting) scene_object scene_world None) ∧
  trying_to_push (clear_request scene_data_casting) = false.
Proof.
  split; [done|].
  apply (C4_normal_push_entry_conditions
           get_surroundings_model opposite_direction active_jump_surroundings_model 16
           scene_data_casting scene_object scene_world).
  intros (_ & _ & _ & Hcast & _). vm_compute in Hcast. discriminate.
Defined.

Lemma C5_witness :
  jump_collide_layer_shift layered_object + base_collider_layer layered_object = 3 ∧
  (∃ ev', heap layered_relocated !! 1%nat = Some ev' ∧
          array_get (TileEvent.active ev')
                    (indexOf (TileEvent.activation_directions ev')
                             (opposite_direction left)) = Some false) ∧
  heap layered_relocated !! 2%nat = Some (TileEvent.init 2 (jump_on 0 5 3 false)) ∧
  heap layered_relocated !! 3%nat = Some (TileEvent.init 3 (jump_on 1 3 5 false)) ∧
  heap layered_relocated !! 4%nat = Some (TileEvent.init 4 (jump_on 3 3 1 true)).
Proof.
  destruct (C5_old_surroundings_deactivated
              get_surroundings_model opposite_direction
              active_jump_surroundings_model layered_object 1 0 0%nat
              (TileEvent.init 0 (jump_on 3 3 3 false))
              layered_world layered_relocated
              ltac:(by vm_compute) ltac:(by vm_compute))
    as [Hdeactivated (w1 & Hmove & Hkept)].
  vm_compute in Hmove. injection Hmove as <-.
  split; [done|]. split_and!.
  - eexists. split; [by vm_compute|].
    apply (Hdeactivated (MkSurrounding 1 3 left) [1%nat] 1%nat).
    + vm_compute. apply list_elem_of_here.
    + by vm_compute.
    + apply list_elem_of_here.
    + by vm_compute.
    + done.
    + done.
    + vm_compute. apply list_elem_of_here.
  - apply Hkept; [by vm_compute|].
    intros (_ & _ & Hlayer). apply list_elem_of_In in Hlayer. vm_compute in Hlayer.
    by destruct Hlayer as [?|[]].
  - apply Hkept; [by vm_compute|].
    intros (_ & _ & Hlayer). apply list_elem_of_In in Hlayer. vm_compute in Hlayer.
    by destruct Hlayer as [?|[]].
  - apply Hkept; [by vm_compute|]. by intros (_ & ? & _).
Defined.

Lemma C6_witness :
  trace (snd (fst (tweens_complete [Shadow; ObjectBody]
                     (o_data scene_pushed, o_world scene_pushed,
                      MkJoin [ObjectBody; Shadow; HeroBody] false))))
  = trace (o_world scene_pushed) ∧
  trace (snd (fst (tweens_complete [Shadow; ObjectBody; Shadow; HeroBody]
                     (o_data scene_pushed, o_world scene_pushed,
                      MkJoin [ObjectBody; Shadow; HeroBody] false))))
  = trace (o_world scene_pushed) ++ [PhysicsResume].
Proof.
  pose proof (λ signals,
              proj2 (proj2 (C6_physics_paused_until_all_tweens_complete
                get_surroundings_model opposite_direction
                active_jump_surroundings_model 16
                active_jump_surroundings_model_frame
                scene_data scene_object false false false scene_world scene_pushed
                (MkJoin [ObjectBody; Shadow; HeroBody] false) signals
                ltac:(by vm_compute) ltac:(by vm_compute)))) as Hjoin.
  split.
  - rewrite Hjoin. by vm_compute.
  - rewrite Hjoin. by vm_compute.
Defined.

Lemma scene_object_registered : all_registered (get_events scene_object) scene_world.
Proof.
  intros r Hr. apply list_elem_of_In in Hr. vm_compute in Hr.
  destruct Hr as [<-|[<-|[]]].
  - eexists. split; [by vm_compute|]. vm_compute. apply list_elem_of_here.
  - eexists. split; [by vm_compute|]. vm_compute. apply list_elem_of_here.
Qed.

Lemma C10_witness :
  o_join scene_normal_push ≠ None ∧
  normal_push get_surroundings_model opposite_direction
              active_jump_surroundings_model 16 scene_data scene_object scene_world
  = Some scene_normal_push ∧
  trying_to_push (o_data scene_normal_push) = false ∧
  push_timer (o_data scene_normal_push) = None.
Proof.
  split; [by vm_compute|].
  destruct (C10_normal_push_consumes_request
              get_surroundings_model opposite_direction active_jump_surroundings_model
              16 active_jump_surroundings_model_frame
              scene_data scene_object scene_world) as [Hclear Hreturns].
  destruct Hreturns as [out Hout].
  - apply scene_world_wf.
  - eapply bool_decide_unpack. by vm_compute.
  - apply scene_object_registered.
  - assert (out = scene_normal_push) as ->.
    { unfold scene_normal_push. by rewrite Hout. }
    split; [done|]. by apply Hclear.
Defined.

(** * Further properties of the code *)

(** ** [TileEvent.ts]: the codec, the constructor and the identity registry *)

(** X1: [get_location_key] is collision-free: two tiles have the same key
    exactly when they are the same tile. *)
Theorem X1_get_location_key_collision_free x y x' y' :
  TileEvent.get_location_key x y = TileEvent.get_location_key x' y' ↔
  x = x' ∧ y = y'.
Proof.
  split; [apply get_location_key_inj|]. by intros [-> ->].
Qed.

Lemma create_all_length specs s :
  length (fst (create_all specs s)) = length specs.
Proof.
  revert s. induction specs as [|a specs IH]; intros s; cbn [create_all]; [done|].
  destruct (TileEvent.new a s) as [r1 s1].
  specialize (IH s1). destruct (create_all specs s1) as [rs s2]. simpl in *. by rewrite IH.
Qed.

(** The [i]-th event of a run of constructor calls carries the id counter
    plus [i], is filed under that id in [TileEvent.events], and the run
    leaves the entries of all other ids alone. *)
Lemma create_all_lookup specs st h rs st' h' :
  create_all specs (st, h) = (rs, (st', h')) →
  (∀ i r, rs !! i = Some r →
     TileEvent.events st' !! (TileEvent.id_incrementer st + i)%nat = Some r ∧
     ∃ a, specs !! i = Some a ∧
          h' !! r = Some (TileEvent.init (TileEvent.id_incrementer st + i) a)) ∧
  (∀ j, (j < TileEvent.id_incrementer st ∨
         TileEvent.id_incrementer st + length specs ≤ j)%nat →
        TileEvent.events st' !! j = TileEvent.events st !! j).
Proof.
  revert st h rs. induction specs as [|a specs IH]; intros st h rs; cbn [create_all].
  - intros [= <- <- <-]. split; [|done]. intros i r Hi. by rewrite lookup_nil in Hi.
  - destruct (TileEvent.new a (st, h)) as [r1 [st1 h1]] eqn:Hnew.
    destruct (create_all specs (st1, h1)) as [rs2 [st2 h2]] eqn:Hrest.
    intros [= <- <- <-].
    apply new_spec in Hnew as (Hfresh & -> & Hnext & Hev).
    destruct (IH _ _ _ Hrest) as [Hin Hout]. rewrite Hnext in Hin, Hout. split.
    + intros [|i] r Hi; simpl in Hi.
      * injection Hi as <-. rewrite Nat.add_0_r. split.
        -- rewrite Hout by lia. rewrite Hev. apply lookup_insert_eq.
        -- exists a. split; [done|].
           eapply create_all_frame; [done|]. apply lookup_insert_eq.
      * destruct (Hin i r Hi) as [Hreg (a' & Ha' & Hh)].
        replace (TileEvent.id_incrementer st + S i)%nat
          with (S (TileEvent.id_incrementer st) + i)%nat by lia.
        split; [done|]. exists a'. split; [done|]. done.
    + intros j Hj. simpl in Hj. rewrite Hout by lia. rewrite Hev.
      apply lookup_insert_ne. lia.
Qed.

(** X2: after a reset, a run of constructor calls makes [TileEvent.events]
    exactly the table of the new events: the [i]-th created event has id [i]
    and the location key of its coordinates, [get_event(i)] returns it, so
    does [get_event_by_id] over the created events, and [get_event] of any
    other id is undefined. *)
Theorem X2_identity_registry_round_trip (specs : list TileEvent.ctor_args)
  (s : TileEvent.statics * gmap loc TileEvent.t) :
  let run := create_all specs (TileEvent.reset (fst s), snd s) in
  (∀ i r, fst run !! i = Some r →
     TileEvent.get_event (fst (snd run)) i = Some r ∧
     get_event_by_id (snd (snd run)) (fst run) i = Some r ∧
     ∃ e, snd (snd run) !! r = Some e ∧ TileEvent.id e = i ∧
          TileEvent.location_key e
          = TileEvent.get_location_key (TileEvent.x e) (TileEvent.y e)) ∧
  (∀ j, (length specs ≤ j)%nat → TileEvent.get_event (fst (snd run)) j = None).
Proof.
  intros run. unfold run.
  destruct (create_all specs (TileEvent.reset s.1, s.2)) as [rs [st' h']] eqn:Hrun.
  destruct (create_all_lookup _ _ _ _ _ _ Hrun) as [Hin Hout]. simpl in *. split.
  - intros i r Hi. destruct (Hin i r Hi) as [Hreg (a & Ha & Hh)]. split_and!.
    + done.
    + unfold get_event_by_id.
      assert (list_find (λ r0, TileEvent.id <$> h' !! r0 = Some i) rs = Some (i, r))
        as ->; [|done].
      apply list_find_Some. split_and!; [done|by rewrite Hh|].
      intros j r' Hj Hlt. destruct (Hin j r' Hj) as [_ (a' & _ & Hh')].
      rewrite Hh'. simpl. intros [= ?]. lia.
    + eexists. split; [done|]. done.
  - intros j Hj. unfold TileEvent.get_event. rewrite Hout by (simpl; lia). done.
Qed.

(** ** [TileEvent.ts]: activation flags *)

Lemma direction_index_Some e d i :
  direction_index e d = Some i ↔
  TileEvent.activation_directions e !! i = Some d ∧
  ∀ j, (j < i)%nat → TileEvent.activation_directions e !! j ≠ Some d.
Proof.
  unfold direction_index. split.
  - destruct (list_find _ _) as [[i' a]|] eqn:Hf; [|done].
    simpl. intros [= ->]. apply list_find_Some in Hf as (Hl & -> & Hmin).
    split; [done|]. intros j Hj Hd. by apply (Hmin j d).
  - intros [Hl Hmin].
    assert (list_find (λ a, a = d) (TileEvent.activation_directions e) = Some (i, d))
      as ->; [|done].
    apply list_find_Some. split_and!; [done..|].
    intros j y Hy Hj ->. by apply (Hmin j).
Qed.

Lemma direction_index_elem e d :
  is_Some (direction_index e d) ↔ d ∈ TileEvent.activation_directions e.
Proof.
  unfold direction_index. split.
  - destruct (list_find _ _) as [[i a]|] eqn:Hf; [|by intros [? [=]]].
    intros _. apply list_find_Some in Hf as (Hl & -> & _).
    by eapply list_elem_of_lookup_2.
  - intros Hin.
    destruct (list_find_elem_of (λ a, a = d) _ d Hin eq_refl) as [[i a] ->]. eauto.
Qed.

Lemma flag_set_index e d :
  flag_set e d = match direction_index e d with
                 | Some i => truthy (mjoin (items (TileEvent.active e) !! i))
                 | None => false
                 end.
Proof.
  unfold flag_set, direction_index. by destruct (list_find _ _) as [[i a]|].
Qed.

Lemma indexOf_index e d :
  indexOf (TileEvent.activation_directions e) d
  = match direction_index e d with Some i => Z.of_nat i | None => -1 end.
Proof.
  unfold indexOf, direction_index. by destruct (list_find _ _) as [[i a]|].
Qed.

(** Writing the flag of a known direction changes that flag and no other. *)
Lemma flag_set_after_write e d b d' :
  d ∈ TileEvent.activation_directions e →
  flag_set (TileEvent.set_active
              (array_set (TileEvent.active e)
                         (indexOf (TileEvent.activation_directions e) d) b) e) d'
  = if decide (d' = d) then b else flag_set e d'.
Proof.
  intros Hd. apply direction_index_elem in Hd as [i Hi].
  rewrite !flag_set_index, indexOf_index, Hi.
  change (direction_index (TileEvent.set_active _ e) d') with (direction_index e d').
  unfold array_set. rewrite decide_True by lia. simpl. rewrite Nat2Z.id.
  destruct (decide (d' = d)) as [->|Hne].
  - rewrite Hi, set_item_lookup, decide_True by done. by destruct b.
  - destruct (direction_index e d') as [i'|] eqn:Hi'; [|done].
    assert (i' ≠ i) as Hii.
    { intros ->. apply direction_index_Some in Hi as [Hl _], Hi' as [Hl' _]. congruence. }
    rewrite set_item_lookup, decide_False by done.
    case_decide as Hlt; [done|].
    rewrite (lookup_ge_None_2 (items (TileEvent.active e)) i') by lia. done.
Qed.

(** X3: [activate_at] and [deactivate_at] with a direction the event knows
    set, respectively clear, the flag of that direction, leave the flag of
    every other direction as it was and add no property to the array. *)
Theorem X3_activate_at_known_direction (e : TileEvent.t) (d : directions) :
  d ∈ TileEvent.activation_directions e →
  (∀ d', flag_set (TileEvent.activate_at e d) d'
         = if decide (d' = d) then true else flag_set e d') ∧
  (∀ d', flag_set (TileEvent.deactivate_at e d) d'
         = if decide (d' = d) then false else flag_set e d') ∧
  props (TileEvent.active (TileEvent.activate_at e d)) = props (TileEvent.active e) ∧
  props (TileEvent.active (TileEvent.deactivate_at e d)) = props (TileEvent.active e).
Proof.
  intros Hd. split_and!.
  - intros d'. by apply flag_set_after_write.
  - intros d'. by apply flag_set_after_write.
  - unfold TileEvent.activate_at, array_set. simpl.
    rewrite decide_True; [done|]. by apply indexOf_elem.
  - unfold TileEvent.deactivate_at, array_set. simpl.
    rewrite decide_True; [done|]. by apply indexOf_elem.
Qed.

Lemma array_get_map_const a b i :
  array_get (array_map_const a b) i
  = if decide (0 ≤ i) then (λ _, b) <$> mjoin (items a !! Z.to_nat i) else None.
Proof.
  unfold array_get, array_map_const. simpl. case_decide; [|done].
  rewrite list_lookup_fmap. by destruct (items a !! Z.to_nat i) as [[|]|].
Qed.

(** X4: [deactivate()] makes [is_active] false for every direction, also
    on an event whose array carried a property under [-1]; after
    [activate()], [is_active] holds exactly when an elementary direction is
    known to the event and has a slot in the array, which on an event with
    one flag per direction means: when an elementary direction is known. *)
Theorem X4_activate_and_deactivate_all split (e : TileEvent.t) (d : directions) :
  TileEvent.is_active_with split (TileEvent.deactivate e) d = false ∧
  (TileEvent.is_active_with split (TileEvent.activate e) d = true ↔
   ∃ c i, c ∈ split d ∧ direction_index e c = Some i ∧
          is_Some (mjoin (items (TileEvent.active e) !! i))) ∧
  (one_flag_per_direction e →
   (TileEvent.is_active_with split (TileEvent.activate e) d = true ↔
    ∃ c, c ∈ split d ∧ c ∈ TileEvent.activation_directions e)).
Proof.
  assert (TileEvent.is_active_with split (TileEvent.activate e) d = true ↔
          ∃ c i, c ∈ split d ∧ direction_index e c = Some i ∧
                 is_Some (mjoin (items (TileEvent.active e) !! i))) as Hact.
  { unfold TileEvent.is_active_with. rewrite existsb_exists. split.
    - intros (c & Hin & Hc). apply list_elem_of_In in Hin.
      simpl in Hc. rewrite array_get_map_const, indexOf_index in Hc.
      destruct (direction_index e c) as [i|] eqn:Hi; [|done].
      rewrite decide_True, Nat2Z.id in Hc by lia.
      exists c, i. split_and!; [done..|].
      destruct (mjoin (items (TileEvent.active e) !! i)); [eauto|done].
    - intros (c & i & Hin & Hi & [v Hv]). exists c. split; [by apply list_elem_of_In|].
      simpl. rewrite array_get_map_const, indexOf_index, Hi.
      rewrite decide_True, Nat2Z.id by lia. by rewrite Hv. }
  split_and!.
  - unfold TileEvent.is_active_with. apply not_true_is_false.
    rewrite existsb_exists. intros (c & _ & Hc).
    simpl in Hc. rewrite array_get_map_const in Hc.
    case_decide; [|done]. by destruct (mjoin _).
  - exact Hact.
  - intros [Hlen Hall]. rewrite Hact. split.
    + intros (c & i & Hin & Hi & _). exists c. split; [done|].
      apply direction_index_elem. eauto.
    + intros (c & Hin & Hc). apply direction_index_elem in Hc as [i Hi].
      exists c, i. split_and!; [done..|].
      pose proof Hi as [Hl _]%direction_index_Some. apply lookup_lt_Some in Hl.
      destruct (lookup_lt_is_Some_2 (items (TileEvent.active e)) i) as [v Hv]; [lia|].
      rewrite Hv. rewrite Forall_forall in Hall. apply Hall.
      by eapply list_elem_of_lookup_2.
Qed.

Lemma flag_set_filled e b d :
  items (TileEvent.active e)
  = replicate (length (TileEvent.activation_directions e)) (Some b) →
  flag_set e d = true ↔ b = true ∧ d ∈ TileEvent.activation_directions e.
Proof.
  intros Hitems. rewrite flag_set_index, <- direction_index_elem.
  destruct (direction_index e d) as [i|] eqn:Hi.
  - pose proof Hi as [Hl _]%direction_index_Some. apply lookup_lt_Some in Hl.
    rewrite Hitems, lookup_replicate_2 by done. simpl.
    destruct b; (split; [|by intros [? _]]); [eauto|done].
  - split; [done|]. by intros [_ [? [=]]].
Qed.

(** X5: what the constructor makes of its [active] argument.  With the
    argument missing, every direction the event knows is active; with a
    single boolean, every known direction has that boolean; with an array,
    a direction is active exactly when the array holds [true] at the index
    of the direction, so a direction beyond the end of a short array is
    inactive.  In the first two cases the array has one flag per direction;
    in all three it has no property besides its elements, and the event
    carries the key of its coordinates. *)
Theorem X5_constructor_flags next_id ty x y dirs layers dyn origin reveal
  (active : js_arg bool) :
  let e := TileEvent.init next_id
             (TileEvent.CtorArgs ty x y dirs layers dyn active origin reveal) in
  (∀ d, flag_set e d = true ↔
        match active with
        | Undefined => d ∈ TileEvent.activation_directions e
        | Single b => b = true ∧ d ∈ TileEvent.activation_directions e
        | Many l => ∃ i, direction_index e d = Some i ∧ l !! i = Some true
        end) ∧
  (match active with Many _ => True | _ => one_flag_per_direction e end) ∧
  props (TileEvent.active e) = ∅ ∧
  TileEvent.location_key e = TileEvent.get_location_key (TileEvent.x e) (TileEvent.y e).
Proof.
  intros e.
  split_and!.
  - intros d. destruct active as [|b|l].
    + rewrite (flag_set_filled e true d eq_refl). tauto.
    + by rewrite (flag_set_filled e b d eq_refl).
    + rewrite flag_set_index. destruct (direction_index e d) as [i|].
      * simpl. rewrite list_lookup_fmap. split.
        -- destruct (l !! i) as [[|]|] eqn:Hl; try done. eauto.
        -- intros (i' & [= <-] & ->). done.
      * split; [done|]. by intros (? & [=] & _).
  - destruct active as [|b|l]; [| |done].
    + split; simpl; [by rewrite length_replicate|]. apply Forall_replicate. eauto.
    + split; simpl; [by rewrite length_replicate|]. apply Forall_replicate. eauto.
  - by destruct active.
  - done.
Qed.

(** X6: for an event that carries the key of its coordinates,
    [check_position()] holds exactly when the key of the hero's tile is the
    key of the event. *)
Theorem X6_check_position_is_key_equality (e : TileEvent.t) (hero_x hero_y : Z) :
  TileEvent.location_key e
  = TileEvent.get_location_key (TileEvent.x e) (TileEvent.y e) →
  TileEvent.check_position hero_x hero_y e = true ↔
  TileEvent.get_location_key hero_x hero_y = TileEvent.location_key e.
Proof.
  intros ->. unfold TileEvent.check_position.
  rewrite andb_true_iff, !bool_decide_eq_true. split.
  - by intros [-> ->].
  - by intros ?%get_location_key_inj.
Qed.

(** ** [push.js]: what a push moves and what it leaves *)

Section PushExtras.

Variable get_surroundings : Z → Z → bool → Z → list surrounding.
Variable get_opposite_direcion : directions → directions.
Variable active_jump_surroundings : World → list surrounding → Z → World.
Variable PUSH_SHIFT : Z.

Hypothesis active_jump_surroundings_frame :
  only_flags_change active_jump_surroundings.

(** The relocation loop leaves alone every event it is not asked to move,
    whatever the shift. *)
Lemma relocate_events_frame o sx sy evs w w' r :
  ids_unique (heap w) → r ∉ evs →
  relocate_events get_surroundings get_opposite_direcion active_jump_surroundings
                  o sx sy evs w = Some w' →
  skeleton (heap w') !! r = skeleton (heap w) !! r ∧
  ∀ k, r ∈ bucket_of w' k ↔ r ∈ bucket_of w k.
Proof.
  revert w. induction evs as [|e evs IH]; intros w Hu Hnin; simpl.
  - by intros [= <-].
  - destruct (relocate_event _ _ _ o sx sy e w) as [w1|] eqn:Hstep; simpl; [|done].
    intros Hrest. apply not_elem_of_cons in Hnin as [Hre Hnin].
    destruct (relocate_event_spec _ _ _ active_jump_surroundings_frame
                _ _ _ _ _ _ Hu Hstep) as (ev0 & He0 & Hsk1 & Hb1 & _).
    pose proof (relocate_event_ids_unique _ _ _ active_jump_surroundings_frame
                  _ _ _ _ _ _ Hu Hstep) as Hu1.
    destruct (IH w1 Hu1 Hnin Hrest) as [Hsk' Hmem]. split.
    + rewrite Hsk', Hsk1. by rewrite lookup_insert_ne.
    + intros k. rewrite Hmem, Hb1. by apply bucket_step_other.
Qed.

Lemma relocate_events_ids_unique o sx sy evs w w' :
  ids_unique (heap w) →
  relocate_events get_surroundings get_opposite_direcion active_jump_surroundings
                  o sx sy evs w = Some w' →
  ids_unique (heap w').
Proof.
  revert w. induction evs as [|e evs IH]; intros w Hu; simpl.
  - by intros [= <-].
  - destruct (relocate_event _ _ _ o sx sy e w) as [w1|] eqn:Hstep; simpl; [|done].
    apply IH. by eapply relocate_event_ids_unique.
Qed.

(** A call that does not proceed returns what it was given. *)
Lemma fire_push_movement_rejected d o push_end before_move target_only w out :
  fire_push_movement get_surroundings get_opposite_direcion active_jump_surroundings
                     PUSH_SHIFT d o push_end before_move target_only w = Some out →
  o_join out = None → out = MkOutcome d o w None.
Proof.
  unfold fire_push_movement. case_match.
  - destruct (shifts _ _) as [[[sx sy] tx] ty].
    destruct (relocate_events _ _ _ _ _ _ _ _) as [w2|]; simpl; [|done].
    intros [= <-]. simpl. done.
  - by intros [= <-].
Qed.

Lemma fire_push_movement_ids_unique d o push_end before_move target_only w out :
  ids_unique (heap w) →
  fire_push_movement get_surroundings get_opposite_direcion active_jump_surroundings
                     PUSH_SHIFT d o push_end before_move target_only w = Some out →
  ids_unique (heap (o_world out)).
Proof.
  intros Hu Hfire. destruct (o_join out) as [j|] eqn:Hj.
  - destruct (fire_push_movement_proceeds _ _ _ _ _ _ _ _ _ _ _ _ Hfire Hj)
      as (sx & sy & tx & ty & w2 & tw & _ & _ & Hloop & Hh & _).
    rewrite Hh. eapply relocate_events_ids_unique; [|exact Hloop]. exact Hu.
  - by rewrite (fire_push_movement_rejected _ _ _ _ _ _ _ Hfire Hj).
Qed.

(** A push that proceeds in a cardinal direction moves each owned event by
    the unit vector of the direction. *)
Lemma push_relocates d o push_end before_move target_only w out dx dy r ev :
  ids_unique (heap w) → NoDup (get_events o) →
  unit_vector (trying_to_push_direction d) = Some (dx, dy) →
  fire_push_movement get_surroundings get_opposite_direcion active_jump_surroundings
                     PUSH_SHIFT d o push_end before_move target_only w = Some out →
  o_join out ≠ None →
  r ∈ get_events o → heap w !! r = Some ev →
  TileEvent.location_key ev
  = TileEvent.get_location_key (TileEvent.x ev) (TileEvent.y ev) →
  relocated dx dy r ev (o_world out) ∧ o_object out = shift_current dx dy o.
Proof.
  intros Hu Hnd Hdir Hfire Hj Hr Hev Hkey.
  destruct (o_join out) as [j|] eqn:Hjoin; [clear Hj|done].
  destruct (fire_push_movement_proceeds _ _ _ _ _ _ _ _ _ _ _ _ Hfire Hjoin)
    as (sx & sy & tx & ty & w2 & tw & Hs & _ & Hloop & Hh & He & _ & _ & _ & _ & Ho & _).
  destruct (shifts_unit_vector PUSH_SHIFT _ _ _ Hdir) as (Hnz & tx' & ty' & Hs').
  rewrite Hs' in Hs. injection Hs as <- <- _ _.
  destruct (relocate_events_spec _ _ _ active_jump_surroundings_frame
              o dx dy (get_events o) (emit PhysicsPause w) w2
              Hu Hnd Hnz Hloop) as [Hmoved _].
  destruct (Hmoved r ev Hr Hev Hkey) as (Hsk & Hin & Hout).
  apply skeleton_lookup_inv in Hsk as (ev' & Hev' & Herase).
  apply erase_fields in Herase as (Hx & Hy & Hk & _). simpl in Hx, Hy, Hk.
  split; [|done]. exists ev'. split_and!.
  - by rewrite Hh.
  - done.
  - done.
  - by rewrite Hk, Hx, Hy.
  - rewrite Hk, He. by apply bucket_of_elem.
  - intros l Hl. rewrite He in Hl. by rewrite <- (bucket_of_Some _ _ _ Hl).
Qed.

(** X7: a push changes nothing but activation flags on an event the pushed
    object does not own: the event keeps its type, coordinates, key, id,
    layers and directions, and is in exactly the buckets it was in. *)
Theorem X7_push_leaves_other_events d o push_end before_move target_only w out r ev :
  ids_unique (heap w) →
  fire_push_movement get_surroundings get_opposite_direcion active_jump_surroundings
                     PUSH_SHIFT d o push_end before_move target_only w = Some out →
  r ∉ get_events o →
  heap w !! r = Some ev →
  (∃ ev', heap (o_world out) !! r = Some ev' ∧
          TileEvent.set_active (TileEvent.active ev) ev' = ev) ∧
  (∀ k, r ∈ bucket_of (o_world out) k ↔ r ∈ bucket_of w k).
Proof.
  intros Hu Hfire Hr Hev. destruct (o_join out) as [j|] eqn:Hj.
  - destruct (fire_push_movement_proceeds _ _ _ _ _ _ _ _ _ _ _ _ Hfire Hj)
      as (sx & sy & tx & ty & w2 & tw & _ & _ & Hloop & Hh & He & _).
    destruct (relocate_events_frame o sx sy (get_events o) (emit PhysicsPause w) w2 r
                Hu Hr Hloop) as [Hsk Hmem].
    split.
    + assert (skeleton (heap w2) !! r = Some (erase_active ev)) as Hlook
        by (by rewrite Hsk, skeleton_lookup; simpl; rewrite Hev).
      apply skeleton_lookup_inv in Hlook as (ev' & Hev' & Herase).
      exists ev'. split; [by rewrite Hh|].
      destruct ev, ev'. unfold erase_active, TileEvent.set_active in *. simpl in *.
      injection Herase as -> -> -> -> -> -> -> -> -> -> ->. done.
    + intros k. unfold bucket_of at 1. rewrite He. apply Hmem.
  - rewrite (fire_push_movement_rejected _ _ _ _ _ _ _ Hfire Hj). simpl.
    split; [|done]. exists ev. split; [done|]. by destruct ev.
Qed.

(** X8: a push that proceeds in a cardinal direction moves the object's
    tile position by the unit vector of the direction, keeps its event
    list, and so keeps every owned event at the same offset from the
    object. *)
Theorem X8_object_and_events_move_together d o push_end before_move target_only w out
  dx dy r ev :
  ids_unique (heap w) → NoDup (get_events o) →
  unit_vector (trying_to_push_direction d) = Some (dx, dy) →
  fire_push_movement get_surroundings get_opposite_direcion active_jump_surroundings
                     PUSH_SHIFT d o push_end before_move target_only w = Some out →
  o_join out ≠ None →
  r ∈ get_events o → heap w !! r = Some ev →
  TileEvent.location_key ev
  = TileEvent.get_location_key (TileEvent.x ev) (TileEvent.y ev) →
  current_x (o_object out) = current_x o + dx ∧
  current_y (o_object out) = current_y o + dy ∧
  get_events (o_object out) = get_events o ∧
  ∃ ev', heap (o_world out) !! r = Some ev' ∧
         TileEvent.x ev' - current_x (o_object out) = TileEvent.x ev - current_x o ∧
         TileEvent.y ev' - current_y (o_object out) = TileEvent.y ev - current_y o.
Proof.
  intros Hu Hnd Hdir Hfire Hj Hr Hev Hkey.
  destruct (push_relocates _ _ _ _ _ _ _ _ _ _ _ Hu Hnd Hdir Hfire Hj Hr Hev Hkey)
    as [(ev' & Hev' & Hx & Hy & _) ->].
  simpl. split_and!; [done..|]. exists ev'. split; [done|]. lia.
Qed.

(** X9: a push in a cardinal direction followed by a push in the opposite
    direction puts every owned event back: same coordinates, same key, in the
    bucket of that key; and the object is back on its tile. *)
Theorem X9_push_there_and_back d1 d2 o pe1 bm1 to1 pe2 bm2 to2 w out1 out2 dx dy r ev :
  ids_unique (heap w) → NoDup (get_events o) →
  unit_vector (trying_to_push_direction d1) = Some (dx, dy) →
  unit_vector (trying_to_push_direction d2) = Some (- dx, - dy) →
  fire_push_movement get_surroundings get_opposite_direcion active_jump_surroundings
                     PUSH_SHIFT d1 o pe1 bm1 to1 w = Some out1 →
  o_join out1 ≠ None →
  fire_push_movement get_surroundings get_opposite_direcion active_jump_surroundings
                     PUSH_SHIFT d2 (o_object out1) pe2 bm2 to2 (o_world out1)
  = Some out2 →
  o_join out2 ≠ None →
  r ∈ get_events o → heap w !! r = Some ev →
  TileEvent.location_key ev
  = TileEvent.get_location_key (TileEvent.x ev) (TileEvent.y ev) →
  (∃ ev2, heap (o_world out2) !! r = Some ev2 ∧
          TileEvent.x ev2 = TileEvent.x ev ∧ TileEvent.y ev2 = TileEvent.y ev ∧
          TileEvent.location_key ev2 = TileEvent.location_key ev ∧
          ∃ l, events (o_world out2) !! TileEvent.location_key ev = Some l ∧ r ∈ l) ∧
  current_x (o_object out2) = current_x o ∧
  current_y (o_object out2) = current_y o.
Proof.
  intros Hu Hnd Hdir1 Hdir2 Hfire1 Hj1 Hfire2 Hj2 Hr Hev Hkey.
  destruct (push_relocates _ _ _ _ _ _ _ _ _ _ _ Hu Hnd Hdir1 Hfire1 Hj1 Hr Hev Hkey)
    as [(ev1 & Hev1 & Hx1 & Hy1 & Hk1 & _) Ho1].
  pose proof (fire_push_movement_ids_unique _ _ _ _ _ _ _ Hu Hfire1) as Hu1.
  assert (get_events (o_object out1) = get_events o) as Hevs by (by rewrite Ho1).
  destruct (push_relocates d2 (o_object out1) pe2 bm2 to2 (o_world out1) out2
              (- dx) (- dy) r ev1) as [(ev2 & Hev2 & Hx2 & Hy2 & Hk2 & Hin2 & _) Ho2];
    [done | by rewrite Hevs | done | done | done | by rewrite Hevs | done | done |].
  assert (TileEvent.x ev2 = TileEvent.x ev) as Hx by lia.
  assert (TileEvent.y ev2 = TileEvent.y ev) as Hy by lia.
  assert (TileEvent.location_key ev2 = TileEvent.location_key ev) as Hk
    by (by rewrite Hk2, Hx, Hy).
  split_and!.
  - exists ev2. split_and!; [done..|]. by rewrite <- Hk.
  - rewrite Ho2, Ho1. simpl. lia.
  - rewrite Ho2, Ho1. simpl. lia.
Qed.

(** X10: a target-only push relocates exactly as the validated push of an
    actor standing on the right side does: same events, same registry, same
    object afterwards; and it returns exactly when that push returns. *)
Theorem X10_target_only_relocates_like_validated_push d o pe bm pe' bm' w :
  expected_position d o = Some (trying_to_push_direction d) →
  (λ out, (heap (o_world out), events (o_world out), o_object out)) <$>
    fire_push_movement get_surroundings get_opposite_direcion
                       active_jump_surroundings PUSH_SHIFT d o pe bm false w
  = (λ out, (heap (o_world out), events (o_world out), o_object out)) <$>
    target_only_push get_surroundings get_opposite_direcion
                     active_jump_surroundings PUSH_SHIFT d o bm' pe' w.
Proof.
  clear active_jump_surroundings_frame.
  intros Hexp. unfold target_only_push, fire_push_movement.
  rewrite bool_decide_eq_true_2 by done. cbn [orb].
  change (trying_to_push_direction (set_pushing true "push" d))
    with (trying_to_push_direction d).
  destruct (shifts PUSH_SHIFT (trying_to_push_direction d)) as [[[sx sy] tx] ty].
  destruct (relocate_events _ _ _ o sx sy (get_events o) (emit PhysicsPause w))
    as [w2|]; [|done].
  cbn [mbind option_bind fmap option_fmap option_map o_world o_object].
  set (f1 := tween_of _ o sx sy tx ty). set (f2 := tween_of d o sx sy tx ty).
  destruct (foldl_emit f1 [ObjectBody; Shadow; HeroBody]
              (if bm then emit (BeforeMove tx ty) w2 else w2)) as (Hh1 & He1 & _).
  destruct (foldl_emit f2 [ObjectBody]
              (if bm' then emit (BeforeMove tx ty) w2 else w2)) as (Hh2 & He2 & _).
  assert (∀ (h1 h2 : gmap loc TileEvent.t) (e1 e2 : gmap string (list loc))
            (x : InteractableObject),
            h1 = h2 → e1 = e2 → Some (h1, e1, x) = Some (h2, e2, x)) as Heq
    by (by intros ????? -> ->).
  apply Heq.
  - etrans; [exact Hh1|]. symmetry. etrans; [exact Hh2|]. by destruct bm, bm'.
  - etrans; [exact He1|]. symmetry. etrans; [exact He2|]. by destruct bm, bm'.
Qed.



(** The effects of a push that proceeds, with the tweens spelled out. *)
Lemma fire_push_movement_tweens d o push_end before_move target_only w out j :
  fire_push_movement get_surroundings get_opposite_direcion active_jump_surroundings
                     PUSH_SHIFT d o push_end before_move target_only w = Some out →
  o_join out = Some j →
  ∃ sx sy tx ty before,
    shifts PUSH_SHIFT (trying_to_push_direction d) = (sx, sy, tx, ty) ∧
    trace (o_world out)
    = before ++ (tween_of (o_data out) o sx sy tx ty <$> unresolved j).
Proof.
  clear active_jump_surroundings_frame.
  unfold fire_push_movement. case_match eqn:Hcond; [|by intros [= <-]].
  assert (trying_to_push_direction (if target_only then d else set_pushing true "push" d)
          = trying_to_push_direction d) as -> by (by destruct target_only).
  destruct (shifts PUSH_SHIFT (trying_to_push_direction d)) as [[[sx sy] tx] ty] eqn:Hs.
  destruct (relocate_events _ _ _ o sx sy (get_events o) (emit PhysicsPause w))
    as [w2|] eqn:Hloop; cbn [mbind option_bind]; [|done].
  intros [= <-]. cbn [o_join o_world o_object o_data]. intros [= <-].
  set (d' := if target_only then d else set_pushing true "push" d).
  set (sprites := ObjectBody :: (if target_only then [] else [Shadow; HeroBody])).
  set (w3 := if before_move then emit (BeforeMove tx ty) w2 else w2).
  destruct (foldl_emit (tween_of d' o sx sy tx ty) sprites w3) as (_ & _ & Ht).
  exists sx, sy, tx, ty, (trace w3). split; [done|]. exact Ht.
Qed.

(** X12: where the tweens of an actor's push go.  With a non-zero push
    shift, the object body moves by the push shift along the direction; the
    shadow and the hero body do the same on the moving axis, each from its
    own position, and on the other axis both are sent to the centre of the
    hero's tile, wherever they stand. *)
Theorem X12_tween_destinations d o push_end before_move w out dx dy :
  PUSH_SHIFT ≠ 0 →
  unit_vector (trying_to_push_direction d) = Some (dx, dy) →
  fire_push_movement get_surroundings get_opposite_direcion active_jump_surroundings
                     PUSH_SHIFT d o push_end before_move false w = Some out →
  o_join out ≠ None →
  let centre_x := (inject_Z (tileWidth d)
                   * (inject_Z (hero_tile_pos_x d + dx) + (1 # 2)))%Q in
  let centre_y := (inject_Z (tileHeight d)
                   * (inject_Z (hero_tile_pos_y d + dy) + (1 # 2)))%Q in
  ∃ before,
    trace (o_world out)
    = before
      ++ [TweenStart ObjectBody (inject_Z (body_x o + dx * PUSH_SHIFT))
                                (inject_Z (body_y o + dy * PUSH_SHIFT));
          TweenStart Shadow
            (if decide (dx = 0) then centre_x
             else inject_Z (shadow_x d + dx * PUSH_SHIFT))
            (if decide (dx = 0) then inject_Z (shadow_y d + dy * PUSH_SHIFT)
             else centre_y);
          TweenStart HeroBody
            (if decide (dx = 0) then centre_x
             else inject_Z (hero_body_x d + dx * PUSH_SHIFT))
            (if decide (dx = 0) then inject_Z (hero_body_y d + dy * PUSH_SHIFT)
             else centre_y)].
Proof.
  clear active_jump_surroundings_frame.
  intros Hps Hdir Hfire Hj.
  destruct (o_join out) as [j|] eqn:Hjoin; [clear Hj|done].
  destruct (fire_push_movement_tweens _ _ _ _ _ _ _ _ Hfire Hjoin)
    as (sx & sy & tx & ty & before & Hs & Htr).
  destruct (fire_push_movement_proceeds _ _ _ _ _ _ _ _ _ _ _ _ Hfire Hjoin)
    as (_ & _ & _ & _ & _ & _ & _ & _ & _ & _ & _ & _ & _ & _ & -> & _ & Hd).
  exists before. rewrite Htr, Hd. clear Htr Hd Hfire Hjoin.
  unfold unit_vector in Hdir. unfold shifts in Hs.
  repeat case_decide; simplify_eq; cbn [fmap list_fmap unresolved];
    unfold tween_of; simpl;
    repeat (rewrite decide_True by lia);
    repeat (rewrite decide_False by lia);
    repeat (rewrite decide_True by lia);
    repeat f_equal; lia.
Qed.

(** ** Pushes on a loaded map return *)

Lemma relocate_event_live o sx sy e w w' r :
  ids_unique (heap w) →
  relocate_event get_surroundings get_opposite_direcion active_jump_surroundings
                 o sx sy e w = Some w' →
  is_Some (heap w !! r) → is_Some (heap w' !! r).
Proof.
  intros Hu Hstep [ev Hr].
  destruct (relocate_event_spec _ _ _ active_jump_surroundings_frame
              _ _ _ _ _ _ Hu Hstep) as (ev0 & He0 & Hsk & _).
  assert (is_Some (skeleton (heap w') !! r)) as [x Hx].
  { rewrite Hsk. destruct (decide (r = e)) as [->|Hne].
    - rewrite lookup_insert_eq. eauto.
    - rewrite lookup_insert_ne by done. rewrite skeleton_lookup, Hr. simpl. eauto. }
  apply skeleton_lookup_inv in Hx as (e' & -> & _). eauto.
Qed.

Lemma relocate_events_live o sx sy evs w w' r :
  ids_unique (heap w) →
  relocate_events get_surroundings get_opposite_direcion active_jump_surroundings
                  o sx sy evs w = Some w' →
  is_Some (heap w !! r) → is_Some (heap w' !! r).
Proof.
  revert w. induction evs as [|e evs IH]; intros w Hu; simpl.
  - by intros [= <-].
  - destruct (relocate_event _ _ _ o sx sy e w) as [w1|] eqn:Hstep; simpl; [|done].
    intros Hrest Hr. apply (IH w1); [|done|].
    + by eapply (relocate_event_ids_unique _ _ _ active_jump_surroundings_frame).
    + by eapply relocate_event_live.
Qed.

Lemma fire_push_movement_live d o push_end before_move target_only w out r :
  ids_unique (heap w) →
  fire_push_movement get_surroundings get_opposite_direcion active_jump_surroundings
                     PUSH_SHIFT d o push_end before_move target_only w = Some out →
  is_Some (heap w !! r) → is_Some (heap (o_world out) !! r).
Proof.
  intros Hu Hfire Hr. destruct (o_join out) as [j|] eqn:Hj.
  - destruct (fire_push_movement_proceeds _ _ _ _ _ _ _ _ _ _ _ _ Hfire Hj)
      as (sx & sy & tx & ty & w2 & tw & _ & _ & Hloop & Hh & _).
    rewrite Hh. eapply relocate_events_live; [|exact Hloop|exact Hr]. exact Hu.
  - by rewrite (fire_push_movement_rejected _ _ _ _ _ _ _ Hfire Hj).
Qed.

Lemma run_push_live c w w' r :
  ids_unique (heap w) →
  run_push get_surroundings get_opposite_direcion active_jump_surroundings
           PUSH_SHIFT c w = Some w' →
  is_Some (heap w !! r) → is_Some (heap w' !! r).
Proof.
  intros Hu. unfold run_push. destruct c as [d o|d o bm pe].
  - unfold normal_push. case_match.
    + destruct (fire_push_movement _ _ _ _ d o false false false w) as [out|] eqn:Hfire;
        simpl; [|done].
      intros [= <-]. by eapply fire_push_movement_live.
    + simpl. by intros [= <-].
  - unfold target_only_push.
    destruct (fire_push_movement _ _ _ _ d o pe bm true w) as [out|] eqn:Hfire;
      simpl; [|done].
    intros [= <-]. by eapply fire_push_movement_live.
Qed.

Lemma run_push_total c w :
  registry_wf w → every_event_filed w →
  NoDup (get_events (pushed_object c)) →
  (∀ r, r ∈ get_events (pushed_object c) → is_Some (heap w !! r)) →
  is_Some (run_push get_surroundings get_opposite_direcion active_jump_surroundings
                    PUSH_SHIFT c w).
Proof.
  intros Hwf Hfiled Hnd Hlive.
  assert (all_registered (get_events (pushed_object c)) w) as Hreg.
  { intros r Hr. destruct (Hlive r Hr) as [ev Hev]. exists ev. split; [done|].
    by apply Hfiled. }
  unfold run_push. destruct c as [d o|d o bm pe]; simpl in *.
  - destruct (normal_push_total get_surroundings get_opposite_direcion
                active_jump_surroundings PUSH_SHIFT active_jump_surroundings_frame
                d o w Hwf Hnd Hreg) as [out ->].
    simpl. eauto.
  - unfold target_only_push.
    destruct (fire_push_movement_total get_surroundings get_opposite_direcion
                active_jump_surroundings PUSH_SHIFT active_jump_surroundings_frame
                d o pe bm true w Hwf Hnd Hreg) as [out ->].
    simpl. eauto.
Qed.

(** X13: on a map as loaded (well-formed registry, every event of the heap
    filed), any sequence of normal and target-only pushes returns, whatever
    [data] each call is handed, as long as each pushed object lists live
    events, each once: no call reads a missing bucket or a missing event. *)
Theorem X13_pushes_return calls w :
  registry_wf w → every_event_filed w →
  Forall (λ c, NoDup (get_events (pushed_object c)) ∧
               ∀ r, r ∈ get_events (pushed_object c) → is_Some (heap w !! r)) calls →
  is_Some (run_pushes get_surroundings get_opposite_direcion active_jump_surroundings
                      PUSH_SHIFT calls w).
Proof.
  revert w. induction calls as [|c calls IH]; intros w Hwf Hfiled Hcalls; simpl; [eauto|].
  apply Forall_cons in Hcalls as [[Hnd Hlive] Hcalls].
  destruct (run_push_total c w Hwf Hfiled Hnd Hlive) as [w1 Hc]. rewrite Hc. simpl.
  pose proof Hwf as (_ & _ & Hu).
  apply IH.
  - by eapply (run_push_registry_wf _ _ _ _ active_jump_surroundings_frame).
  - by eapply (run_push_every_event_filed _ _ _ _ active_jump_surroundings_frame).
  - eapply Forall_impl; [exact Hcalls|]. intros c' [Hnd' Hlive']. split; [done|].
    intros r Hr. eapply run_push_live; [exact Hu|exact Hc|]. by apply Hlive'.
Qed.

(** X14: a push that proceeds throws when the first event of the pushed
    object carries a key that the registry does not have: line 62 calls
    [filter] on [undefined]. *)
Theorem X14_push_throws_on_unfiled_event d o push_end before_move target_only w r rest
  ev :
  target_only = true ∨ expected_position d o = Some (trying_to_push_direction d) →
  get_events o = r :: rest →
  heap w !! r = Some ev →
  events w !! TileEvent.location_key ev = None →
  fire_push_movement get_surroundings get_opposite_direcion active_jump_surroundings
                     PUSH_SHIFT d o push_end before_move target_only w = None.
Proof.
  clear active_jump_surroundings_frame.
  intros Hcond Hevs Hr Hk. unfold fire_push_movement.
  assert (target_only
          || bool_decide (expected_position d o = Some (trying_to_push_direction d))
          = true) as ->.
  { destruct Hcond as [->|Hexp]; [done|].
    rewrite bool_decide_eq_true_2 by done. by destruct target_only. }
  destruct (shifts PUSH_SHIFT _) as [[[sx sy] tx] ty].
  rewrite Hevs. cbn [relocate_events].
  unfold relocate_event at 1. cbn [heap emit]. rewrite Hr. cbn [mbind option_bind].
  unfold move_event at 1. cbn [heap emit]. rewrite Hr. cbn [mbind option_bind].
  unfold leave_bucket at 1. cbn [events emit]. rewrite Hk. done.
Qed.

(** ** No event is filed twice *)

Lemma relocate_event_filed_once o sx sy e w w' :
  registry_wf w → filed_once w →
  relocate_event get_surroundings get_opposite_direcion active_jump_surroundings
                 o sx sy e w = Some w' →
  filed_once w'.
Proof.
  intros (Hne & Hfiled & Hu) Honce Hstep k l Hk.
  destruct (relocate_event_spec _ _ _ active_jump_surroundings_frame
              _ _ _ _ _ _ Hu Hstep) as (ev & He & _ & Hb & _).
  rewrite <- (bucket_of_Some _ _ _ Hk), Hb.
  assert (NoDup (bucket_of w k)) as Hnd.
  { unfold bucket_of. destruct (events w !! k) as [l0|] eqn:Hl0; simpl.
    - by eapply Honce.
    - constructor. }
  apply NoDup_app. split_and!.
  - case_decide; [by apply NoDup_filter|done].
  - intros x Hx Hx'. case_decide as Hnew; [|by apply elem_of_nil in Hx'].
    apply list_elem_of_singleton in Hx' as ->.
    case_decide as Hold.
    + by apply list_elem_of_filter in Hx as [? _].
    + apply bucket_of_elem in Hx as (l0 & Hl0 & Hin).
      destruct (Hfiled k l0 e Hl0 Hin) as (ev' & Hev' & Hkey).
      assert (ev' = ev) as -> by congruence. done.
  - case_decide; [apply NoDup_singleton|constructor].
Qed.

Lemma relocate_events_filed_once o sx sy evs w w' :
  registry_wf w → filed_once w →
  relocate_events get_surroundings get_opposite_direcion active_jump_surroundings
                  o sx sy evs w = Some w' →
  filed_once w'.
Proof.
  revert w. induction evs as [|e evs IH]; intros w Hwf Honce; simpl.
  - by intros [= <-].
  - destruct (relocate_event _ _ _ o sx sy e w) as [w1|] eqn:Hstep; simpl; [|done].
    apply IH.
    + by eapply (relocate_event_registry_wf _ _ _ active_jump_surroundings_frame).
    + by eapply relocate_event_filed_once.
Qed.

Lemma fire_push_movement_filed_once d o push_end before_move target_only w out :
  registry_wf w → filed_once w →
  fire_push_movement get_surroundings get_opposite_direcion active_jump_surroundings
                     PUSH_SHIFT d o push_end before_move target_only w = Some out →
  filed_once (o_world out).
Proof.
  intros Hwf Honce Hfire. destruct (o_join out) as [j|] eqn:Hj.
  - destruct (fire_push_movement_proceeds _ _ _ _ _ _ _ _ _ _ _ _ Hfire Hj)
      as (sx & sy & tx & ty & w2 & tw & _ & _ & Hloop & _ & He & _).
    unfold filed_once. rewrite He.
    eapply relocate_events_filed_once; [| |exact Hloop]; [|done].
    by apply (registry_wf_ext w).
  - by rewrite (fire_push_movement_rejected _ _ _ _ _ _ _ Hfire Hj).
Qed.

Lemma run_push_filed_once c w w' :
  registry_wf w → filed_once w →
  run_push get_surroundings get_opposite_direcion active_jump_surroundings
           PUSH_SHIFT c w = Some w' →
  filed_once w'.
Proof.
  intros Hwf Honce. unfold run_push. destruct c as [d o|d o bm pe].
  - unfold normal_push. case_match.
    + destruct (fire_push_movement _ _ _ _ d o false false false w) as [out|] eqn:Hfire;
        simpl; [|done].
      intros [= <-]. by eapply fire_push_movement_filed_once.
    + simpl. by intros [= <-].
  - unfold target_only_push.
    destruct (fire_push_movement _ _ _ _ d o pe bm true w) as [out|] eqn:Hfire;
      simpl; [|done].
    intros [= <-]. by eapply fire_push_movement_filed_once.
Qed.

(** X15: pushes never file an event twice.  On a well-formed registry where
    no bucket lists an event twice, the same holds after any sequence of
    pushes, although every relocation appends to a bucket. *)
Theorem X15_pushes_file_each_event_once calls w w' :
  registry_wf w → filed_once w →
  run_pushes get_surroundings get_opposite_direcion active_jump_surroundings
             PUSH_SHIFT calls w = Some w' →
  filed_once w'.
Proof.
  revert w. induction calls as [|c calls IH]; intros w Hwf Honce; simpl.
  - by intros [= <-].
  - destruct (run_push _ _ _ _ c w) as [w1|] eqn:Hc; simpl; [|done].
    apply IH.
    + by eapply (run_push_registry_wf _ _ _ _ active_jump_surroundings_frame).
    + by eapply run_push_filed_once.
Qed.

(** ** A target-only push without a cardinal direction *)

Lemma erase_set_position_zero ev :
  TileEvent.location_key ev
  = TileEvent.get_location_key (TileEvent.x ev) (TileEvent.y ev) →
  erase_active
    (TileEvent.set_position (TileEvent.x ev + 0) (TileEvent.y ev + 0)
       (TileEvent.get_location_key (TileEvent.x ev + 0) (TileEvent.y ev + 0)) ev)
  = erase_active ev.
Proof.
  clear. intros Hkey. rewrite !Z.add_0_r, <- Hkey. by destruct ev.
Qed.

Lemma relocate_events_zero o evs w w' :
  ids_unique (heap w) →
  (∀ r, r ∈ evs → filed_at_position w r) →
  relocate_events get_surroundings get_opposite_direcion active_jump_surroundings
                  o 0 0 evs w = Some w' →
  skeleton (heap w') = skeleton (heap w) ∧
  ∀ r k, r ∈ bucket_of w' k ↔ r ∈ bucket_of w k.
Proof.
  revert w. induction evs as [|e evs IH]; intros w Hu Hfiled; simpl.
  - by intros [= <-].
  - destruct (relocate_event _ _ _ o 0 0 e w) as [w1|] eqn:Hstep; simpl; [|done].
    intros Hrest.
    destruct (relocate_event_spec _ _ _ active_jump_surroundings_frame
                _ _ _ _ _ _ Hu Hstep) as (ev & He & Hsk & Hb & _).
    destruct (Hfiled e) as (ev0 & He0 & Hkey & Hin); [by left|].
    assert (ev0 = ev) as -> by congruence.
    rewrite (erase_set_position_zero _ Hkey) in Hsk.
    rewrite insert_id in Hsk by (by rewrite skeleton_lookup, He).
    rewrite !Z.add_0_r, <- Hkey in Hb.
    assert (∀ r k, r ∈ bucket_of w1 k ↔ r ∈ bucket_of w k) as Hmem1.
    { intros r k. rewrite Hb. destruct (decide (r = e)) as [->|Hne].
      - rewrite elem_of_app. case_decide as Hk.
        + subst k. split; [done|]. intros _. right. by apply list_elem_of_singleton.
        + split; [|by left]. intros [?|Hnil]; [done|]. by apply elem_of_nil in Hnil.
      - by apply bucket_step_other. }
    destruct (IH w1) as [Hsk' Hmem']; [| |done|].
    + by eapply (relocate_event_ids_unique _ _ _ active_jump_surroundings_frame).
    + intros r Hr. destruct (Hfiled r) as (evr & Hevr & Hkr & Hinr); [by right|].
      destruct (skeleton_lookup_Some _ _ _ _ Hsk Hevr) as (evr' & Hevr' & Herase).
      apply erase_fields in Herase as (Hx & Hy & Hk & _).
      exists evr'. split_and!; [done|congruence|]. rewrite Hk. by apply Hmem1.
    + split; [congruence|]. intros r k. by rewrite Hmem', Hmem1.
Qed.

(** X16: the switch of lines 41-58 has no default.  A target-only push
    whose direction is none of the four cardinals still proceeds: it pauses
    physics and runs the loop with zero shifts.  When the events of the
    object are filed at their positions, every event of the map keeps its
    fields up to activation flags, every bucket keeps its members, the object
    stays on its tile, and one tween is started whose destination is where
    the object body already is. *)
Theorem X16_target_only_push_without_direction d o before_move push_end w out :
  unit_vector (trying_to_push_direction d) = None →
  ids_unique (heap w) →
  (∀ r, r ∈ get_events o → filed_at_position w r) →
  target_only_push get_surroundings get_opposite_direcion active_jump_surroundings
                   PUSH_SHIFT d o before_move push_end w = Some out →
  skeleton (heap (o_world out)) = skeleton (heap w) ∧
  (∀ r k, r ∈ bucket_of (o_world out) k ↔ r ∈ bucket_of w k) ∧
  o_object out = o ∧
  o_join out = Some (MkJoin [ObjectBody] push_end) ∧
  ∃ before,
    trace (o_world out)
    = trace w ++ PhysicsPause :: before
      ++ [TweenStart ObjectBody (inject_Z (body_x o)) (inject_Z (body_y o))].
Proof.
  intros Hdir Hu Hfiled Hpush. unfold target_only_push in Hpush.
  assert (shifts PUSH_SHIFT (trying_to_push_direction d) = (0, 0, 0, 0)) as Hs.
  { unfold unit_vector in Hdir. unfold shifts. by repeat case_decide. }
  unfold fire_push_movement in Hpush. cbn [orb] in Hpush. rewrite Hs in Hpush.
  destruct (relocate_events _ _ _ o 0 0 (get_events o) (emit PhysicsPause w))
    as [w2|] eqn:Hloop; cbn [mbind option_bind] in Hpush; [|done].
  injection Hpush as <-. cbn [o_world o_object o_join foldl].
  destruct (relocate_events_zero o (get_events o) (emit PhysicsPause w) w2 Hu Hfiled Hloop)
    as [Hsk Hmem].
  destruct (relocate_events_trace _ _ _ active_jump_surroundings_frame
              _ _ _ _ _ _ Hloop) as (writes & Htr & _).
  split_and!.
  - by destruct before_move.
  - intros r k. rewrite <- (Hmem r k). unfold bucket_of. by destruct before_move.
  - destruct o. unfold shift_current. simpl. by rewrite !Z.add_0_r.
  - done.
  - exists (writes ++ if before_move then [BeforeMove 0 0] else []).
    unfold tween_of. simpl. rewrite !Z.add_0_r.
    destruct before_move; simpl; rewrite Htr; simpl;
      rewrite <- ?app_assoc; simpl; by rewrite ?app_nil_r.
Qed.

End PushExtras.

(** X17: the direction test of lines 20-32 in closed form.  With [(dx, dy)]
    the offset of the object sprite from the hero, the expected direction is
    down when [|dx| <= dy], else left when [|dy| <= -dx], else up when
    [dy <= -|dx|], else right: the four quadrants cut by the two diagonals
    through the hero, ties going to the earlier test.  The test always
    yields a direction. *)
Theorem X17_expected_position_quadrants d o :
  let dx := sprite_x o - hero_x d in
  let dy := sprite_y o - hero_y d in
  expected_position d o
  = Some (if decide (Z.abs dx ≤ dy) then "down"%string
          else if decide (Z.abs dy ≤ - dx) then "left"%string
          else if decide (dy ≤ - Z.abs dx) then "up"%string
          else "right"%string).
Proof.
  intros dx dy. subst dx dy.
  unfold expected_position, classify, positive_limit, negative_limit.
  rewrite !Z.geb_leb.
  repeat case_decide;
    repeat match goal with
           | |- context [?a <=? ?b] => destruct (Z.leb_spec a b)
           end; simpl; try done; lia.
Qed.

(** ** The further properties on the scene *)

Lemma scene_ids_unique : ids_unique (heap scene_world).
Proof. by destruct scene_world_wf as (_ & _ & ?). Qed.

Lemma scene_object_filed r :
  r ∈ get_events scene_object → filed_at_position scene_world r.
Proof.
  intros Hr. apply list_elem_of_In in Hr. vm_compute in Hr.
  destruct Hr as [<-|[<-|[]]].
  - eexists. split_and!; [by vm_compute|by vm_compute|].
    vm_compute. apply list_elem_of_here.
  - eexists. split_and!; [by vm_compute|by vm_compute|].
    vm_compute. apply list_elem_of_here.
Qed.

Lemma scene_filed_once : filed_once scene_world.
Proof.
  change (map_Forall (λ _ l, NoDup l) (events scene_world)).
  eapply bool_decide_unpack. by vm_compute.
Qed.

Lemma X3_witness :
  up ∈ TileEvent.activation_directions up_only_event ∧
  flag_set up_only_event up = false ∧
  flag_set (TileEvent.activate_at up_only_event up) up = true.
Proof.
  assert (up ∈ TileEvent.activation_directions up_only_event) as Hup
    by (vm_compute; apply list_elem_of_here).
  split; [exact Hup|]. split; [by vm_compute|].
  destruct (X3_activate_at_known_direction up_only_event up Hup) as (Hset & _).
  rewrite Hset. by rewrite decide_True.
Defined.

Lemma X6_witness :
  TileEvent.check_position 0 0 up_only_event = true ↔
  TileEvent.get_location_key 0 0 = TileEvent.location_key up_only_event.
Proof.
  apply (X6_check_position_is_key_equality up_only_event 0 0). by vm_compute.
Defined.

Lemma X7_witness :
  (∃ ev', heap (o_world scene_pushed) !! 2%nat = Some ev' ∧
          TileEvent.set_active
            (TileEvent.active (TileEvent.init 2 (jump_at 1 3 false))) ev'
          = TileEvent.init 2 (jump_at 1 3 false)) ∧
  (∀ k, 2%nat ∈ bucket_of (o_world scene_pushed) k ↔ 2%nat ∈ bucket_of scene_world k).
Proof.
  apply (X7_push_leaves_other_events
           get_surroundings_model opposite_direction active_jump_surroundings_model 16
           active_jump_surroundings_model_frame
           scene_data scene_object false false false scene_world scene_pushed).
  - apply scene_ids_unique.
  - by vm_compute.
  - eapply bool_decide_unpack. by vm_compute.
  - by vm_compute.
Defined.

Lemma X8_witness :
  current_x (o_object scene_pushed) = current_x scene_object + 1 ∧
  current_y (o_object scene_pushed) = current_y scene_object + 0 ∧
  get_events (o_object scene_pushed) = get_events scene_object ∧
  ∃ ev', heap (o_world scene_pushed) !! 1%nat = Some ev' ∧
         TileEvent.x ev' - current_x (o_object scene_pushed)
         = TileEvent.x (TileEvent.init 1 (jump_at 3 4 false)) - current_x scene_object ∧
         TileEvent.y ev' - current_y (o_object scene_pushed)
         = TileEvent.y (TileEvent.init 1 (jump_at 3 4 false)) - current_y scene_object.
Proof.
  apply (X8_object_and_events_move_together
           get_surroundings_model opposite_direction active_jump_surroundings_model 16
           active_jump_surroundings_model_frame
           scene_data scene_object false false false scene_world scene_pushed).
  - apply scene_ids_unique.
  - eapply bool_decide_unpack. by vm_compute.
  - by vm_compute.
  - by vm_compute.
  - by vm_compute.
  - eapply bool_decide_unpack. by vm_compute.
  - by vm_compute.
  - by vm_compute.
Defined.

Lemma X9_witness :
  (∃ ev2, heap (o_world scene_pushed_back) !! 0%nat = Some ev2 ∧
          TileEvent.x ev2 = 3 ∧ TileEvent.y ev2 = 3 ∧
          TileEvent.location_key ev2 = "3_3"%string ∧
          ∃ l, events (o_world scene_pushed_back) !! "3_3"%string = Some l ∧
               0%nat ∈ l) ∧
  current_x (o_object scene_pushed_back) = 3 ∧
  current_y (o_object scene_pushed_back) = 3.
Proof.
  apply (X9_push_there_and_back
           get_surroundings_model opposite_direction active_jump_surroundings_model 16
           active_jump_surroundings_model_frame
           scene_data scene_data_left scene_object false false false false false false
           scene_world scene_pushed scene_pushed_back 1 0 0%nat
           (TileEvent.init 0 (jump_at 3 3 false))).
  - apply scene_ids_unique.
  - eapply bool_decide_unpack. by vm_compute.
  - by vm_compute.
  - by vm_compute.
  - by vm_compute.
  - by vm_compute.
  - by vm_compute.
  - by vm_compute.
  - eapply bool_decide_unpack. by vm_compute.
  - by vm_compute.
  - by vm_compute.
Defined.

Lemma X10_witness :
  (λ out, (heap (o_world out), events (o_world out), o_object out)) <$>
    fire_push_movement get_surroundings_model opposite_direction
                       active_jump_surroundings_model 16
                       scene_data scene_object false false false scene_world
  = (λ out, (heap (o_world out), events (o_world out), o_object out)) <$>
    target_only_push get_surroundings_model opposite_direction
                     active_jump_surroundings_model 16
                     scene_data scene_object true true scene_world.
Proof.
  apply (X10_target_only_relocates_like_validated_push
           get_surroundings_model opposite_direction active_jump_surroundings_model 16
           scene_data scene_object false false true true scene_world).
  by vm_compute.
Defined.


Lemma X12_witness :
  ∃ before,
    trace (o_world scene_pushed)
    = before ++ [TweenStart ObjectBody (inject_Z 72) (inject_Z 56);
                 TweenStart Shadow (inject_Z 56) (inject_Z 16 * (inject_Z 3 + (1 # 2)))%Q;
                 TweenStart HeroBody (inject_Z 56)
                            (inject_Z 16 * (inject_Z 3 + (1 # 2)))%Q].
Proof.
  apply (X12_tween_destinations
           get_surroundings_model opposite_direction active_jump_surroundings_model 16
           scene_data scene_object false false scene_world scene_pushed 1 0).
  - done.
  - by vm_compute.
  - by vm_compute.
  - by vm_compute.
Defined.

Lemma X13_witness :
  is_Some (run_pushes get_surroundings_model opposite_direction
                      active_jump_surroundings_model 16
                      [NormalPush scene_data scene_object;
                       TargetOnlyPush scene_data_left scene_object true true;
                       TargetOnlyPush scene_data_diagonal scene_object false false]
                      scene_world).
Proof.
  apply (X13_pushes_return
           get_surroundings_model opposite_direction active_jump_surroundings_model 16
           active_jump_surroundings_model_frame).
  - apply scene_world_wf.
  - apply scene_every_event_filed.
  - assert (NoDup (get_events scene_object) ∧
            ∀ r, r ∈ get_events scene_object → is_Some (heap scene_world !! r)) as Hobj.
    { split; [eapply bool_decide_unpack; by vm_compute|].
      intros r Hr. destruct (scene_object_filed r Hr) as (ev & -> & _). eauto. }
    repeat (apply Forall_cons_2; [exact Hobj|]). apply Forall_nil_2.
Defined.

Lemma X14_witness :
  fire_push_movement get_surroundings_model opposite_direction
                     active_jump_surroundings_model 16
                     scene_data scene_object false false false scene_world_unfiled
  = None.
Proof.
  apply (X14_push_throws_on_unfiled_event
           get_surroundings_model opposite_direction active_jump_surroundings_model 16
           scene_data scene_object false false false scene_world_unfiled
           0%nat [1%nat] (TileEvent.init 0 (jump_at 3 3 false))).
  - right. by vm_compute.
  - by vm_compute.
  - by vm_compute.
  - by vm_compute.
Defined.

Lemma X15_witness : filed_once scene_after_pushes.
Proof.
  apply (X15_pushes_file_each_event_once
           get_surroundings_model opposite_direction active_jump_surroundings_model 16
           active_jump_surroundings_model_frame
           [NormalPush scene_data scene_object] scene_world scene_after_pushes).
  - apply scene_world_wf.
  - apply scene_filed_once.
  - by vm_compute.
Defined.

Lemma X16_witness :
  skeleton (heap (o_world scene_target_only_diagonal)) = skeleton (heap scene_world) ∧
  (∀ r k, r ∈ bucket_of (o_world scene_target_only_diagonal) k
          ↔ r ∈ bucket_of scene_world k) ∧
  o_object scene_target_only_diagonal = scene_object ∧
  o_join scene_target_only_diagonal = Some (MkJoin [ObjectBody] true) ∧
  ∃ before,
    trace (o_world scene_target_only_diagonal)
    = trace scene_world ++ PhysicsPause :: before
      ++ [TweenStart ObjectBody (inject_Z (body_x scene_object))
                                (inject_Z (body_y scene_object))].
Proof.
  apply (X16_target_only_push_without_direction
           get_surroundings_model opposite_direction active_jump_surroundings_model 16
           active_jump_surroundings_model_frame
           scene_data_diagonal scene_object true true scene_world
           scene_target_only_diagonal).
  - by vm_compute.
  - apply scene_ids_unique.
  - apply scene_object_filed.
  - by vm_compute.
Defined.

(** * The battle animation manager *)

(** ** JavaScript objects *)

Lemma obj_has_elem {A} (o : js_object A) key : obj_has o key = true ↔ key ∈ o.*1.
Proof. unfold obj_has. apply bool_decide_eq_true. Qed.

Lemma obj_set_elem {A} (o : js_object A) key v key' :
  key' ∈ (obj_set o key v).*1 ↔ key' = key ∨ key' ∈ o.*1.
Proof.
  induction o as [|[k0 v0] o IH]; simpl.
  - rewrite list_elem_of_singleton. split; [by left|]. intros [?|Hin]; [done|].
    by apply elem_of_nil in Hin.
  - destruct (decide (k0 = key)) as [->|Hne]; simpl.
    + rewrite !elem_of_cons. tauto.
    + rewrite !elem_of_cons, IH. tauto.
Qed.

Lemma obj_delete_elem {A} (o : js_object A) key key' :
  key' ∈ (obj_delete o key).*1 ↔ key' ≠ key ∧ key' ∈ o.*1.
Proof.
  unfold obj_delete. rewrite !list_elem_of_fmap. split.
  - intros ([k v] & -> & [Hne Hin]%list_elem_of_filter). split; [done|].
    by exists (k, v).
  - intros (Hne & [k v] & -> & Hin). exists (k, v). split; [done|].
    by apply list_elem_of_filter.
Qed.

Lemma obj_get_set {A} (o : js_object A) key v : obj_get (obj_set o key v) key = Some v.
Proof.
  unfold obj_get. induction o as [|[k0 v0] o IH]; simpl.
  - by case_decide.
  - destruct (decide (k0 = key)) as [->|Hne]; simpl.
    + by case_decide.
    + case_decide; [done|].
      destruct (list_find _ (obj_set o key v)) as [[i p]|]; simpl in *; [done|done].
Qed.

Lemma obj_get_None {A} (o : js_object A) key : key ∉ o.*1 → obj_get o key = None.
Proof.
  intros Hnin. unfold obj_get.
  destruct (list_find _ o) as [[i [k v]]|] eqn:Hfind; [|done].
  apply list_find_Some in Hfind as (Hi & Hk & _). simpl in Hk. subst k.
  destruct Hnin. apply list_elem_of_fmap. exists (key, v). split; [done|].
  by eapply list_elem_of_lookup_2.
Qed.

(** ** The key of an animation *)

Lemma split_head_free sep s : free_of sep (split_head sep s).
Proof. induction s as [|a s IH]; simpl; [done|]. by case_decide. Qed.

Lemma split_head_append sep k rest :
  free_of sep k → split_head sep (k +:+ String sep rest) = k.
Proof.
  induction k as [|a k IH]; simpl.
  - by rewrite decide_True.
  - intros [Hne Hk]. rewrite decide_False by done. by rewrite IH.
Qed.

Section BattleAnimations.

Context {Recipe : Type}.

Implicit Types m : BattleAnimationManager.t Recipe.
Implicit Types es : list (BattleAnimationManager.event Recipe).

Lemma not_available_grows e m k :
  k ∈ BattleAnimationManager.not_available m →
  k ∈ BattleAnimationManager.not_available (BattleAnimationManager.run_event e m).
Proof.
  intros Hk. destruct e as [k' c mir|i ok recipe|k' c|i| |]; simpl.
  - unfold BattleAnimationManager.load_animation. by case_match.
  - unfold BattleAnimationManager.load_animation_resume.
    destruct (BattleAnimationManager.awaiting_load m !! i) as [call|]; simpl; [|done].
    destruct ok; [by destruct recipe|]. simpl. set_solver.
  - unfold BattleAnimationManager.play. by case_match.
  - unfold BattleAnimationManager.play_resume.
    by destruct (BattleAnimationManager.awaiting_play m !! i).
  - unfold BattleAnimationManager.render. by case_match.
  - done.
Qed.

Lemma not_available_grows_events es m k :
  k ∈ BattleAnimationManager.not_available m →
  k ∈ BattleAnimationManager.not_available (BattleAnimationManager.run_events es m).
Proof.
  revert m. induction es as [|e es IH]; intros m Hk; [done|].
  apply IH. by apply not_available_grows.
Qed.

(** X18: a failed load is never retried.  When the continuation of a load
    runs with [all_succeed] false, the animations stay as they are, and from
    then on, whatever happens to the manager, [load_animation] with that
    battle animation key returns at once: it asks the loader for nothing and
    suspends nothing. *)
Theorem X18_failed_load_is_never_retried i recipe m m1 call es c mirrored :
  BattleAnimationManager.awaiting_load m !! i = Some call →
  BattleAnimationManager.load_animation_resume i false recipe m = Some m1 →
  BattleAnimationManager.animations m1 = BattleAnimationManager.animations m ∧
  BattleAnimationManager.load_animation
    (BattleAnimationManager.l_battle_anim_key call) c mirrored
    (BattleAnimationManager.run_events es m1)
  = BattleAnimationManager.run_events es m1.
Proof.
  intros Hcall. unfold BattleAnimationManager.load_animation_resume.
  rewrite Hcall. simpl. intros [= <-]. split; [done|].
  unfold BattleAnimationManager.load_animation.
  rewrite bool_decide_eq_true_2; [done|].
  apply not_available_grows_events. simpl. set_solver.
Qed.

Lemma keys_well_formed_event e m :
  match e with
  | BattleAnimationManager.LoadAnimation k _ _ => free_of "/" k
  | _ => True
  end →
  keys_well_formed m → keys_well_formed (BattleAnimationManager.run_event e m).
Proof.
  intros He [Hload Hkeys]. destruct e as [k c mir|i ok recipe|k c|i| |]; simpl.
  - unfold BattleAnimationManager.load_animation.
    destruct (bool_decide (k ∈ _) || bool_decide (k = _)) eqn:Hguard; [done|].
    apply orb_false_iff in Hguard as [_ Hk%bool_decide_eq_false].
    split; [|done]. simpl. intros call [Hin|Hin]%elem_of_app; [by apply Hload|].
    apply list_elem_of_singleton in Hin as ->. done.
  - unfold BattleAnimationManager.load_animation_resume.
    destruct (BattleAnimationManager.awaiting_load m !! i) as [call|] eqn:Hcall;
      simpl; [|done].
    assert (∀ call', call' ∈ delete i (BattleAnimationManager.awaiting_load m) →
                     call' ∈ BattleAnimationManager.awaiting_load m) as Hsub.
    { intros call' Hin. by eapply list_elem_of_delete_inv. }
    destruct ok; [destruct recipe as [r|]|]; (split; simpl; [by auto|]); try done.
    intros key [->|Hin]%obj_set_elem; [|by apply Hkeys].
    destruct (Hload call) as [Hfree Hne]; [by eapply list_elem_of_lookup_2|].
    eauto.
  - unfold BattleAnimationManager.play. by case_match.
  - unfold BattleAnimationManager.play_resume.
    destruct (BattleAnimationManager.awaiting_play m !! i) as [key|]; simpl; [|done].
    split; [done|]. simpl. intros key' [_ Hin]%obj_delete_elem. by apply Hkeys.
  - unfold BattleAnimationManager.render. by case_match.
  - done.
Qed.

Lemma keys_well_formed_events es m :
  loads_slash_free es → keys_well_formed m →
  keys_well_formed (BattleAnimationManager.run_events es m).
Proof.
  revert m. induction es as [|e es IH]; intros m Hes Hm; [done|].
  apply Forall_cons in Hes as [He Hes].
  apply IH; [done|]. by apply keys_well_formed_event.
Qed.

(** X19: ["no_animation"] is never loaded.  [load_animation] with that key
    returns at once, and on a manager that started empty and whose loads had
    battle animation keys without ["/"], whatever else happened,
    [animation_available] answers [NO_ANIMATION] for it with any caster. *)
Theorem X19_no_animation_is_never_available es c mirrored :
  loads_slash_free es →
  let m := BattleAnimationManager.run_events es BattleAnimationManager.new in
  BattleAnimationManager.animation_available "no_animation" c m
  = BattleAnimationManager.NO_ANIMATION ∧
  BattleAnimationManager.load_animation "no_animation" c mirrored m = m.
Proof.
  intros Hes m. split.
  - assert (keys_well_formed m) as [_ Hkeys].
    { apply keys_well_formed_events; [done|]. split.
      - intros call Hin. by apply elem_of_nil in Hin.
      - intros key Hin. by apply elem_of_nil in Hin. }
    unfold BattleAnimationManager.animation_available.
    destruct (obj_has _ _) eqn:Hhas; [|done].
    apply obj_has_elem in Hhas. destruct (Hkeys _ Hhas) as (k & c' & Heq & Hfree & Hne).
    unfold BattleAnimationManager.animation_key in Heq.
    apply (split_at_separator "/" "no_animation" k c c') in Heq as [<- _]; [done| |done].
    simpl. by repeat split.
  - unfold BattleAnimationManager.load_animation.
    by rewrite (bool_decide_eq_true_2 ("no_animation"%string = _)), orb_true_r.
Qed.

(** X20: an animation is played once.  A load of a key that is neither
    marked unavailable nor ["no_animation"], resumed with success and a
    recipe, makes the animation [AVAILABLE]; [play] then binds the render
    function to the object the load made; when the play resolves, the render
    function is unset and the animation is [NOT_AVAILABLE] again, so that a
    second [play] does nothing; the key is not marked unavailable. *)
Theorem X20_an_animation_is_played_once k c mirrored recipe m :
  k ∉ BattleAnimationManager.not_available m →
  k ≠ "no_animation"%string →
  let made := BattleAnimationManager.MkAnimation
                (BattleAnimationManager.objects_made m) recipe mirrored in
  ∃ m2 m4,
    BattleAnimationManager.load_animation_resume
      (length (BattleAnimationManager.awaiting_load m)) true (Some recipe)
      (BattleAnimationManager.load_animation k c mirrored m) = Some m2 ∧
    BattleAnimationManager.animation_available k c m2
    = BattleAnimationManager.AVAILABLE ∧
    BattleAnimationManager.render_function (BattleAnimationManager.play k c m2)
    = Some made ∧
    BattleAnimationManager.play_resume
      (length (BattleAnimationManager.awaiting_play m))
      (BattleAnimationManager.play k c m2) = Some m4 ∧
    BattleAnimationManager.render_function m4 = None ∧
    BattleAnimationManager.animation_available k c m4
    = BattleAnimationManager.NOT_AVAILABLE ∧
    BattleAnimationManager.play k c m4 = m4 ∧
    BattleAnimationManager.not_available m4 = BattleAnimationManager.not_available m.
Proof.
  intros Hk Hne made.
  set (key := BattleAnimationManager.animation_key k c).
  destruct (BattleAnimationManager.load_animation k c mirrored m) as [a1 n1 r1 l1 p1 o1 g1]
    eqn:Hm1.
  unfold BattleAnimationManager.load_animation in Hm1.
  rewrite !bool_decide_eq_false_2 in Hm1 by done. cbn [orb] in Hm1.
  injection Hm1 as <- <- <- <- <- <- Hlog.
  set (m2 := BattleAnimationManager.Mk
               (obj_set (BattleAnimationManager.animations m) key made)
               (BattleAnimationManager.not_available m)
               (BattleAnimationManager.render_function m)
               (BattleAnimationManager.awaiting_load m)
               (BattleAnimationManager.awaiting_play m)
               (S (BattleAnimationManager.objects_made m))
               (g1 ++ [BattleAnimationManager.GetJSON
                      (k +:+ BattleAnimationManager.RECIPE_SUFFIX)])).
  set (m3 := BattleAnimationManager.Mk
               (BattleAnimationManager.animations m2)
               (BattleAnimationManager.not_available m) (Some made)
               (BattleAnimationManager.awaiting_load m)
               (BattleAnimationManager.awaiting_play m ++ [key])
               (S (BattleAnimationManager.objects_made m))
               (BattleAnimationManager.log m2
                ++ [BattleAnimationManager.Initialize made
                      (k +:+ BattleAnimationManager.ANIMATION_SUFFIX);
                    BattleAnimationManager.PlayAnimation made])).
  set (m4 := BattleAnimationManager.Mk
               (obj_delete (BattleAnimationManager.animations m2) key)
               (BattleAnimationManager.not_available m) None
               (BattleAnimationManager.awaiting_load m)
               (BattleAnimationManager.awaiting_play m)
               (S (BattleAnimationManager.objects_made m))
               (BattleAnimationManager.log m3)).
  assert (BattleAnimationManager.load_animation_resume
            (length (BattleAnimationManager.awaiting_load m)) true (Some recipe)
            (BattleAnimationManager.Mk
               (BattleAnimationManager.animations m)
               (BattleAnimationManager.not_available m)
               (BattleAnimationManager.render_function m)
               (BattleAnimationManager.awaiting_load m
                ++ [BattleAnimationManager.MkLoad k c mirrored])
               (BattleAnimationManager.awaiting_play m)
               (BattleAnimationManager.objects_made m) g1) = Some m2) as Hload.
  { unfold BattleAnimationManager.load_animation_resume.
    cbn [BattleAnimationManager.awaiting_load].
    rewrite list_lookup_middle by done. cbn [mbind option_bind].
    rewrite delete_middle, app_nil_r. done. }
  assert (BattleAnimationManager.play k c m2 = m3) as Hplay.
  { unfold BattleAnimationManager.play. fold key.
    unfold m2 at 1. cbn [BattleAnimationManager.animations].
    by rewrite obj_get_set. }
  assert (BattleAnimationManager.play_resume
            (length (BattleAnimationManager.awaiting_play m)) m3 = Some m4) as Hresume.
  { unfold BattleAnimationManager.play_resume, m4, m3.
    cbn [BattleAnimationManager.awaiting_play].
    rewrite list_lookup_middle by done. cbn [mbind option_bind].
    rewrite delete_middle, app_nil_r. done. }
  assert (key ∉ (obj_delete (BattleAnimationManager.animations m2) key).*1) as Hgone.
  { rewrite obj_delete_elem. by intros [? _]. }
  exists m2, m4. rewrite Hplay. split_and!; try done.
    unfold BattleAnimationManager.animation_available. fold key.
    assert (obj_has (BattleAnimationManager.animations m2) key = true) as ->; [|done].
    apply obj_has_elem, obj_set_elem. by left.
  - unfold BattleAnimationManager.animation_available. fold key.
    assert (obj_has (BattleAnimationManager.animations m4) key = false) as ->.
    { apply not_true_iff_false. by rewrite obj_has_elem. }
    by rewrite bool_decide_eq_false_2.
  - unfold BattleAnimationManager.play. fold key.
    by rewrite (obj_get_None (BattleAnimationManager.animations m4) key Hgone).
Qed.

(** X21: [destroy] recovers the battle animation key from the key of an
    animation by [split("/")[0]], which gives it back exactly when it has no
    ["/"].  On a manager whose animations were filed from keys without
    ["/"], [destroy] removes from the cache the texture atlas and the recipe
    of each animation that is loaded and not yet played, in the order the
    animations were filed, and leaves [animations] as it is. *)
Theorem X21_destroy_unloads_what_is_filed m
  (filed : list (string * string * BattleAnimationManager.BattleAnimation Recipe)) :
  BattleAnimationManager.animations m
  = (λ f, (BattleAnimationManager.animation_key (fst (fst f)) (snd (fst f)), snd f))
      <$> filed →
  Forall (λ f, free_of "/" (fst (fst f))) filed →
  BattleAnimationManager.log (BattleAnimationManager.destroy m)
  = BattleAnimationManager.log m
    ++ flat_map (λ f, [BattleAnimationManager.RemoveTextureAtlas
                         (fst (fst f) +:+ BattleAnimationManager.ANIMATION_SUFFIX);
                       BattleAnimationManager.RemoveJSON
                         (fst (fst f) +:+ BattleAnimationManager.RECIPE_SUFFIX)]) filed ∧
  BattleAnimationManager.animations (BattleAnimationManager.destroy m)
  = BattleAnimationManager.animations m ∧
  (∀ k c, split_head "/" (BattleAnimationManager.animation_key k c) = k
          ↔ free_of "/" k).
Proof.
  intros Hanims Hfree. split_and!.
  - unfold BattleAnimationManager.destroy. simpl. f_equal. rewrite Hanims.
    clear Hanims. induction Hfree as [|[[k c] a] filed Hk _ IH]; [done|].
    rewrite fmap_cons. cbn [flat_map fst snd]. rewrite IH.
    change (BattleAnimationManager.animation_key k c) with (k +:+ String "/" c).
    by rewrite (split_head_append "/" k c Hk).
  - done.
  - intros k c. split.
    + intros <-. apply split_head_free.
    + intros Hk. by apply split_head_append.
Qed.

End BattleAnimations.

(** * The control manager *)

(** ** Keys *)

Lemma make_key_from_ext fuel i (sets sets' : gmap nat (list nat)) :
  (∀ j, (i ≤ j)%nat → is_Some (sets !! j) ↔ is_Some (sets' !! j)) →
  ControlManager.make_key_from fuel i sets = ControlManager.make_key_from fuel i sets'.
Proof.
  revert i. induction fuel as [|fuel IH]; intros i Hext; simpl; [done|].
  destruct (decide (is_Some (sets !! i))) as [Hi|Hi].
  - rewrite decide_True by (by apply Hext). apply IH. intros j Hj. apply Hext. lia.
  - rewrite decide_False; [done|]. intros Hi'. apply Hi. by apply Hext.
Qed.

Lemma make_key_from_total fuel i (sets : gmap nat (list nat)) :
  (size sets < fuel)%nat → is_Some (ControlManager.make_key_from fuel i sets).
Proof.
  revert i sets. induction fuel as [|fuel IH]; intros i sets Hsize; [lia|]. simpl.
  destruct (decide (is_Some (sets !! i))) as [Hi|Hi]; [|eauto].
  rewrite (make_key_from_ext fuel (S i) sets (delete i sets)).
  - apply IH. rewrite map_size_delete_Some by done.
    destruct (size sets) eqn:Hs; [|simpl; lia].
    apply map_size_empty_inv in Hs. subst sets. by destruct Hi.
  - intros j Hj. rewrite lookup_delete_ne by lia. done.
Qed.

Lemma make_key_from_spec fuel i (sets : gmap nat (list nat)) k :
  ControlManager.make_key_from fuel i sets = Some k →
  (i ≤ k)%nat ∧ sets !! k = None ∧ ∀ j, (i ≤ j < k)%nat → is_Some (sets !! j).
Proof.
  revert i. induction fuel as [|fuel IH]; intros i; simpl; [done|].
  destruct (decide (is_Some (sets !! i))) as [Hi|Hi].
  - intros Hk. destruct (IH _ Hk) as (Hle & Hnone & Hbelow). split_and!; [lia|done|].
    intros j Hj. destruct (decide (j = i)) as [->|Hne]; [done|]. apply Hbelow. lia.
  - intros [= <-]. split_and!; [done| |intros j Hj; lia].
    by apply eq_None_not_Some.
Qed.

Lemma make_key_spec (s : ControlManager.t) :
  ∃ key,
    ControlManager.make_key s
    = Some (key, ControlManager.set_signal_bindings
                   (<[key := []]> (ControlManager.signal_bindings s)) s) ∧
    ControlManager.signal_bindings s !! key = None ∧
    ∀ j, (j < key)%nat → is_Some (ControlManager.signal_bindings s !! j).
Proof.
  unfold ControlManager.make_key.
  destruct (make_key_from_total (S (size (ControlManager.signal_bindings s))) 0
              (ControlManager.signal_bindings s)) as [key Hkey]; [lia|].
  rewrite Hkey. simpl. exists key. split; [done|].
  apply make_key_from_spec in Hkey as (_ & Hnone & Hbelow).
  split; [done|]. intros j Hj. apply Hbelow. lia.
Qed.

(** X22: [make_key] returns, although its loop has no bound, and returns
    the least key that [signal_bindings] does not have; it files an empty set
    under that key and changes nothing else. *)
Theorem X22_make_key_least_free_key (s : ControlManager.t) :
  ∃ key,
    ControlManager.make_key s
    = Some (key, ControlManager.set_signal_bindings
                   (<[key := []]> (ControlManager.signal_bindings s)) s) ∧
    ControlManager.signal_bindings s !! key = None ∧
    ∀ j, (j < key)%nat → is_Some (ControlManager.signal_bindings s !! j).
Proof. apply make_key_spec. Qed.

(** ** Detaching *)

Lemma attached_flags s s' :
  detached_flags s' = detached_flags s → ∀ bind, attached s' bind ↔ attached s bind.
Proof.
  intros Hflags bind. unfold attached.
  assert (detached_flags s' !! bind = detached_flags s !! bind) as Hb by (by rewrite Hflags).
  unfold detached_flags in Hb. rewrite !list_lookup_fmap in Hb.
  destruct (ControlManager.signal_binding_objects s' !! bind) as [sb'|];
    destruct (ControlManager.signal_binding_objects s !! bind) as [sb|];
    simpl in Hb; try done.
  injection Hb as Hb. split; intros (x & [= <-] & Hx); eexists; (split; [done|]);
    congruence.
Qed.

Lemma detach_all_eq l s :
  foldl (λ s bind, ControlManager.detach bind s) s l
  = ControlManager.set_signal_binding_objects
      (foldl (λ objects bind,
                alter (λ sb, ControlManager.MkBinding
                               (ControlManager.b_button sb) (ControlManager.b_edge sb)
                               (ControlManager.b_listener sb) true) bind objects)
             (ControlManager.signal_binding_objects s) l) s.
Proof.
  revert s. induction l as [|bind l IH]; intros s; simpl.
  - by destruct s.
  - by rewrite IH.
Qed.

Lemma detach_all_lookup (l : list nat) (objects : list ControlManager.SignalBinding) x :
  foldl (λ objects bind,
           alter (λ sb, ControlManager.MkBinding
                          (ControlManager.b_button sb) (ControlManager.b_edge sb)
                          (ControlManager.b_listener sb) true) bind objects) objects l !! x
  = (λ sb, if decide (x ∈ l)
           then ControlManager.MkBinding
                  (ControlManager.b_button sb) (ControlManager.b_edge sb)
                  (ControlManager.b_listener sb) true
           else sb) <$> objects !! x.
Proof.
  revert objects. induction l as [|bind l IH]; intros objects; cbn [foldl].
  - destruct (objects !! x) as [sb|]; [|done]. cbn [fmap option_fmap option_map].
    by rewrite decide_False by apply not_elem_of_nil.
  - rewrite IH, list_lookup_alter. destruct (decide (bind = x)) as [->|Hne].
    + destruct (objects !! x) as [sb|]; [|done]. cbn [fmap option_fmap option_map].
      rewrite (decide_True (P := x ∈ x :: l)) by (by left). by case_decide.
    + destruct (objects !! x) as [sb|]; [|done]. cbn [fmap option_fmap option_map].
      destruct (decide (x ∈ l)) as [Hin|Hin].
      * rewrite decide_True; [done|]. by right.
      * rewrite decide_False; [done|]. apply not_elem_of_cons. by split.
Qed.

Lemma detach_all_length (l : list nat) (objects : list ControlManager.SignalBinding) :
  length (foldl (λ objects bind,
                   alter (λ sb, ControlManager.MkBinding
                                  (ControlManager.b_button sb) (ControlManager.b_edge sb)
                                  (ControlManager.b_listener sb) true) bind objects)
                objects l)
  = length objects.
Proof.
  revert objects. induction l as [|bind l IH]; intros objects; simpl; [done|].
  by rewrite IH, length_alter.
Qed.

Lemma detach_all_detached_only l s :
  detached_only l s (foldl (λ s bind, ControlManager.detach bind s) s l).
Proof.
  rewrite detach_all_eq. split; simpl.
  - apply detach_all_length.
  - intros bind. unfold attached. simpl. rewrite detach_all_lookup.
    destruct (ControlManager.signal_binding_objects s !! bind) as [sb|]; simpl.
    + case_decide as Hin.
      * split; [by intros (x & [= <-] & ?)|]. by intros [_ ?].
      * split; [|by intros [? _]]. intros ?. by split.
    + split; [by intros (x & ? & _)|]. by intros [(x & ? & _) _].
Qed.

Lemma detached_only_trans l1 l2 s1 s2 s3 :
  detached_only l1 s1 s2 → detached_only l2 s2 s3 → detached_only (l1 ++ l2) s1 s3.
Proof.
  intros [Hlen1 H1] [Hlen2 H2]. split; [congruence|].
  intros bind. rewrite H2, H1, not_elem_of_app. tauto.
Qed.

(** The manager after [detach_bindings]. *)
Lemma detach_bindings_spec key s :
  let s' := ControlManager.detach_bindings key s in
  ControlManager.signal_bindings s' = delete key (ControlManager.signal_bindings s) ∧
  ControlManager.current_signal_bindings s' = ControlManager.current_signal_bindings s ∧
  ControlManager.current_set_key s' = ControlManager.current_set_key s ∧
  ControlManager.disabled s' = ControlManager.disabled s ∧
  ControlManager.log s' = ControlManager.log s ∧
  ControlManager.control_objects s' = ControlManager.control_objects s ∧
  ControlManager.params_objects s' = ControlManager.params_objects s ∧
  detached_only (default [] (ControlManager.signal_bindings s !! key)) s s'.
Proof.
  unfold ControlManager.detach_bindings.
  destruct (ControlManager.signal_bindings s !! key) as [set|]; simpl.
  - rewrite detach_all_eq. simpl. split_and!; try done.
    pose proof (detach_all_detached_only set s) as Hd. rewrite detach_all_eq in Hd.
    destruct Hd as [Hlen Hatt]. split; [done|]. intros bind. apply Hatt.
  - split_and!; try done. split; [done|]. intros bind. split; [|by intros [? _]].
    intros ?. split; [done|]. apply not_elem_of_nil.
Qed.

(** The manager after [reset()]. *)
Lemma reset_spec s :
  let s' := ControlManager.reset true s in
  ControlManager.signal_bindings s'
  = match ControlManager.current_set_key s with
    | Some key => if bool_decide (key ≠ 0%nat)
                  then delete key (ControlManager.signal_bindings s)
                  else ControlManager.signal_bindings s
    | None => ControlManager.signal_bindings s
    end ∧
  ControlManager.current_signal_bindings s' = [] ∧
  ControlManager.current_set_key s' = None ∧
  ControlManager.disabled s' = ControlManager.disabled s ∧
  ControlManager.log s'
  = ControlManager.log s ++ [ControlManager.TimerStop ControlManager.LoopStartTimer;
                             ControlManager.TimerStop ControlManager.LoopRepeatTimer] ∧
  ControlManager.control_objects s' = ControlManager.control_objects s ∧
  ControlManager.params_objects s' = ControlManager.params_objects s ∧
  detached_only (reset_detaches s) s s'.
Proof.
  unfold ControlManager.reset, reset_detaches. cbn zeta.
  rewrite detach_all_eq.
  set (s1 := ControlManager.set_current_signal_bindings [] _).
  assert (detached_only (ControlManager.current_signal_bindings s) s s1) as Hd1.
  { pose proof (detach_all_detached_only (ControlManager.current_signal_bindings s)
                  (ControlManager.stop_timers s)) as [Hlen Hatt].
    rewrite detach_all_eq in Hlen, Hatt. split; [exact Hlen|]. exact Hatt. }
  change (ControlManager.current_set_key s1) with (ControlManager.current_set_key s).
  destruct (ControlManager.current_set_key s) as [key|]; [case_bool_decide|].
  - destruct (detach_bindings_spec key s1)
      as (Hsets & Hcur & Hkey & Hdis & Hlog & Hc & Hp & Hd).
    split_and!; simpl; try done.
    eapply detached_only_trans; [exact Hd1|exact Hd].
  - split_and!; simpl; try done. by rewrite app_nil_r.
  - split_and!; simpl; try done. by rewrite app_nil_r.
Qed.

(** ** Enabling controls *)

Lemma enabling_refl persist acc : enabling persist acc acc.
Proof.
  exists []. simpl. split_and!; try done; try (by rewrite app_nil_r).
  destruct (truthy persist); by rewrite app_nil_r.
Qed.

Lemma enabling_trans persist acc1 acc2 acc3 :
  enabling persist acc1 acc2 → enabling persist acc2 acc3 → enabling persist acc1 acc3.
Proof.
  intros (m1 & Ho1 & Hf1 & Hb1 & Hc1 & Hd1 & Hk1 & Hs1 & Hco1 & Hp1 & Hl1)
         (m2 & Ho2 & Hf2 & Hb2 & Hc2 & Hd2 & Hk2 & Hs2 & Hco2 & Hp2 & Hl2).
  exists (m1 ++ m2).
  rewrite Ho2, Ho1, Hb2, Hb1, Hc2, Hc1, Hd2, Hd1, Hk2, Hk1, Hs2, Hs1, Hco2, Hco1,
    Hp2, Hp1, Hl2, Hl1, Ho1.
  rewrite !length_app, seq_app, <- !app_assoc.
  split_and!; try done.
  - by apply Forall_app.
  - by destruct (truthy persist).
Qed.

Lemma enabling_one persist b e l bindings s :
  enabling persist (bindings, s)
    (let '(sb, s0) := ControlManager.signal_add b e l s in
     ControlManager.register persist sb (bindings, s0)).
Proof.
  exists [ControlManager.MkBinding b e l false].
  unfold ControlManager.register, ControlManager.signal_add.
  destruct (truthy persist); simpl;
    split_and!; try done; try (by rewrite app_nil_r); by repeat constructor.
Qed.

Lemma enabling_two persist b1 e1 l1 b2 e2 l2 bindings s :
  enabling persist (bindings, s)
    (let '(sb1, s1) := ControlManager.signal_add b1 e1 l1 s in
     let '(sb2, s2) := ControlManager.signal_add b2 e2 l2 s1 in
     ControlManager.register persist sb2
       (ControlManager.register persist sb1 (bindings, s2))).
Proof.
  exists [ControlManager.MkBinding b1 e1 l1 false; ControlManager.MkBinding b2 e2 l2 false].
  unfold ControlManager.register, ControlManager.signal_add.
  cbn [ControlManager.signal_binding_objects ControlManager.set_signal_binding_objects].
  rewrite length_app, Nat.add_1_r.
  destruct (truthy persist); simpl; rewrite <- ?app_assoc; simpl;
    split_and!; try done; try (by rewrite app_nil_r); by repeat constructor.
Qed.

Lemma enable_control_enabling persist c acc acc' :
  ControlManager.enable_control persist c acc = Some acc' → enabling persist acc acc'.
Proof.
  unfold ControlManager.enable_control.
  destruct (ControlManager.control_objects (snd acc) !! c) as [control|];
    cbn [mbind option_bind]; [|done].
  set (b := ControlManager.last_button control).
  set (combo := match ControlManager.buttons control with
                | Some (ControlManager.ButtonArray l) => Some l
                | _ => None
                end).
  destruct acc as [bindings s].
  assert (enabling persist (bindings, s)
            match ControlManager.on_up control with
            | Some _ =>
                let '(sb, s0) := ControlManager.signal_add b ControlManager.OnUp
                                   (ControlManager.UpListener c) (snd (bindings, s)) in
                ControlManager.register persist sb (fst (bindings, s), s0)
            | None => (bindings, s)
            end) as Hup.
  { destruct (ControlManager.on_up control); [|apply enabling_refl].
    cbn [fst snd]. apply enabling_one. }
  revert Hup. generalize (match ControlManager.on_up control with
            | Some _ =>
                let '(sb, s0) := ControlManager.signal_add b ControlManager.OnUp
                                   (ControlManager.UpListener c) (snd (bindings, s)) in
                ControlManager.register persist sb (fst (bindings, s), s0)
            | None => (bindings, s)
            end).
  intros [bindings1 s1] Hup.
  destruct (ControlManager.on_down control) as [f|]; [|by intros [= <-]].
  destruct (match ControlManager.params control with
            | Some p => Some <$> ControlManager.params_objects (snd (bindings1, s1)) !! p
            | None => Some None
            end) as [prm|]; cbn [mbind option_bind]; [|done].
  destruct (prm ≫= ControlManager.loop_time) as [time|]; [case_bool_decide|];
    intros [= <-]; (eapply enabling_trans; [exact Hup|]); cbn [fst snd].
  - apply enabling_two.
  - apply enabling_one.
  - apply enabling_one.
Qed.

Lemma enable_each_enabling persist controls acc acc' :
  ControlManager.enable_each persist controls acc = Some acc' → enabling persist acc acc'.
Proof.
  revert acc. induction controls as [|c controls IH]; intros acc; simpl.
  - intros [= <-]. apply enabling_refl.
  - destruct (ControlManager.enable_control persist c acc) as [acc1|] eqn:Hc; simpl;
      [|done].
    intros Hrest. eapply enabling_trans; [by eapply enable_control_enabling|by apply IH].
Qed.

Lemma enable_controls_spec controls persist s key s' :
  ControlManager.enable_controls controls persist s = Some (key, s') →
  (∃ set, enabled_from (truthy persist) key set s s') ∧
  ControlManager.disabled s' = ControlManager.disabled s ∧
  ControlManager.control_objects s' = ControlManager.control_objects s ∧
  ControlManager.params_objects s' = ControlManager.params_objects s ∧
  ControlManager.log s'
  = ControlManager.log s ++ [ControlManager.TimerStop ControlManager.LoopStartTimer;
                             ControlManager.TimerStop ControlManager.LoopRepeatTimer].
Proof.
  unfold ControlManager.enable_controls.
  destruct (ControlManager.enable_each persist controls ([], s)) as [[bindings s1]|]
    eqn:Heach; cbn [mbind option_bind]; [|done].
  apply enable_each_enabling in Heach
    as (made & Ho & Hf & Hb & Hc & Hd & Hk & Hs & Hco & Hp & Hl).
  cbn [fst snd] in *.
  destruct (make_key_spec (ControlManager.reset false s1)) as (k & -> & Hnone & Hbelow).
  cbn [mbind option_bind]. intros [= <- <-].
  cbn [ControlManager.reset ControlManager.stop_timers ControlManager.emit
       ControlManager.signal_bindings] in Hnone, Hbelow.
  rewrite Hs in Hnone, Hbelow.
  split; [exists bindings|].
  - unfold enabled_from. rewrite Hb. simpl. rewrite length_seq.
    destruct (truthy persist); simpl; rewrite ?Hs, ?insert_insert_eq, ?Ho, ?Hc, ?Hk;
      split_and!; try done; by exists made.
  - destruct (truthy persist); simpl; by rewrite Hd, Hco, Hp, Hl.
Qed.

Lemma enable_each_total persist controls acc :
  controls_live (snd acc) controls →
  is_Some (ControlManager.enable_each persist controls acc).
Proof.
  revert acc. induction controls as [|c controls IH]; intros acc Hlive; simpl; [eauto|].
  destruct (Hlive c) as (control & Hc & Hparams); [by left|].
  assert (is_Some (ControlManager.enable_control persist c acc)) as [acc1 Hacc1].
  { unfold ControlManager.enable_control. rewrite Hc. cbn [mbind option_bind].
    destruct (ControlManager.on_down control) as [f|]; [|eauto].
    match goal with
    | |- context [ControlManager.params_objects (snd ?a) !! _] =>
        assert (ControlManager.params_objects (snd a)
                = ControlManager.params_objects (snd acc)) as ->
    end.
    { destruct (ControlManager.on_up control); [|done].
      unfold ControlManager.signal_add, ControlManager.register.
      by destruct (truthy persist). }
    destruct (ControlManager.params control) as [p|] eqn:Hp.
    - destruct (Hparams p eq_refl) as [prm ->].
      cbn [fmap option_fmap option_map mbind option_bind].
      destruct (ControlManager.loop_time prm) as [time|]; [case_bool_decide|]; eauto.
    - cbn [mbind option_bind]. eauto. }
  rewrite Hacc1. simpl. apply IH.
  apply enable_control_enabling in Hacc1 as (_ & _ & _ & _ & _ & _ & _ & _ & Hco & Hp & _).
  intros c' Hc'. destruct (Hlive c') as (control' & Hc'' & Hparams'); [by right|].
  exists control'. rewrite Hco, Hp. done.
Qed.

Lemma enable_controls_total controls persist s :
  controls_live s controls →
  is_Some (ControlManager.enable_controls controls persist s).
Proof.
  intros Hlive. unfold ControlManager.enable_controls.
  destruct (enable_each_total persist controls ([], s) Hlive) as [[bindings s1] ->].
  cbn [mbind option_bind].
  destruct (make_key_spec (ControlManager.reset false s1)) as (k & -> & _).
  cbn [mbind option_bind]. eauto.
Qed.

(** X23: [enable_controls] files the bindings it makes as a new set.  When
    the controls and their [params] are objects, it returns; the key it
    returns is the least key [signal_bindings] did not have; the set filed
    under it holds the bindings made by this call, all attached, in the
    order they were made; the sets of other keys and the bindings made
    before are as they were; without [persist] the bindings are appended to
    the current ones and the key becomes the current key, with [persist] the
    current bindings and the current key are as they were. *)
Theorem X23_enable_controls_files_a_new_set controls persist s :
  (controls_live s controls →
   is_Some (ControlManager.enable_controls controls persist s)) ∧
  ∀ key s', ControlManager.enable_controls controls persist s = Some (key, s') →
            ∃ set, enabled_from (truthy persist) key set s s'.
Proof.
  split; [apply enable_controls_total|].
  intros key s' Henable. by apply enable_controls_spec in Henable as [? _].
Qed.

(** ** What an event does to the sets and the bindings *)

Lemma same_bindings_refl s : same_bindings s s.
Proof. by repeat split. Qed.

Lemma same_bindings_trans s1 s2 s3 :
  same_bindings s1 s2 → same_bindings s2 s3 → same_bindings s1 s3.
Proof.
  intros (Hc1 & Hk1 & Hs1 & Ho1) (Hc2 & Hk2 & Hs2 & Ho2).
  repeat split; congruence.
Qed.

Lemma same_bindings_attached s s' bind :
  same_bindings s s' → attached s' bind ↔ attached s bind.
Proof. intros (_ & _ & _ & Ho). unfold attached. by rewrite Ho. Qed.

Lemma was_reset_same_r s s1 s2 :
  was_reset s s1 → same_bindings s1 s2 → was_reset s s2.
Proof.
  intros (Hs & Hc & Hk & Hlen & Hatt) Hsame.
  pose proof Hsame as (Hc2 & Hk2 & Hs2 & Ho2).
  unfold was_reset. rewrite Hs2, Hc2, Hk2. split_and!; try done.
  split; [by rewrite Ho2|]. intros bind.
  by rewrite (same_bindings_attached s1 s2 bind Hsame).
Qed.

Lemma was_reset_same_l s s1 s2 :
  same_bindings s s1 → was_reset s1 s2 → was_reset s s2.
Proof.
  intros Hsame (Hs & Hc & Hk & Hlen & Hatt).
  pose proof Hsame as (Hc1 & Hk1 & Hs1 & Ho1).
  unfold was_reset, reset_detaches in *.
  rewrite Hk1, Hs1, Hc1 in *. split_and!; try done.
  split; [by rewrite <- Ho1|]. intros bind.
  by rewrite Hatt, (same_bindings_attached s s1 bind Hsame).
Qed.

Lemma enabled_from_same_l persist key set s s0 s' :
  same_bindings s s0 → enabled_from persist key set s0 s' →
  enabled_from persist key set s s'.
Proof.
  intros (Hc & Hk & Hs & Ho). unfold enabled_from. by rewrite Hc, Hk, Hs, Ho.
Qed.

Lemma reset_was_reset s : was_reset s (ControlManager.reset true s).
Proof.
  destruct (reset_spec s) as (Hs & Hc & Hk & _ & _ & _ & _ & Hd).
  split; [exact Hs|]. split; [exact Hc|]. split; [exact Hk|]. exact Hd.
Qed.

Section ControlEvents.

Variable QUARTER : Z.

Lemma apply_edit_same controls edit s s' :
  ControlManager.apply_edit QUARTER controls edit s = Some s' →
  same_bindings s s' ∧ ControlManager.disabled s' = ControlManager.disabled s ∧
  ControlManager.log s' = ControlManager.log s.
Proof.
  unfold ControlManager.apply_edit.
  destruct (ControlManager.find_control _ _ _) as [[c|]|]; cbn [mbind option_bind];
    [| |done].
  - destruct (ControlManager.control_objects s !! c) as [control|];
      cbn [mbind option_bind]; [|done].
    destruct (ControlManager.params control) as [p|].
    + destruct (ControlManager.params_objects s !! p) as [prm|];
        cbn [mbind option_bind]; [|done].
      intros [= <-]. by repeat split.
    + cbn [ControlManager.params_objects ControlManager.set_control_objects
           ControlManager.set_params_objects].
      rewrite lookup_insert_eq. cbn [mbind option_bind].
      intros [= <-]. by repeat split.
  - intros [= <-]. by repeat split.
Qed.

Lemma apply_edits_same controls edits s s' :
  ControlManager.apply_edits QUARTER controls edits s = Some s' →
  same_bindings s s' ∧ ControlManager.disabled s' = ControlManager.disabled s ∧
  ControlManager.log s' = ControlManager.log s.
Proof.
  revert s. induction edits as [|edit edits IH]; intros s; simpl.
  - intros [= <-]. by repeat split.
  - destruct (ControlManager.apply_edit QUARTER controls edit s) as [s1|] eqn:H1;
      simpl; [|done].
    intros H2. destruct (apply_edit_same _ _ _ _ H1) as (Hs1 & Hd1 & Hl1).
    destruct (IH _ H2) as (Hs2 & Hd2 & Hl2).
    split_and!; [by eapply same_bindings_trans|congruence..].
Qed.

Lemma add_controls_step controls params s key s' :
  ControlManager.add_controls QUARTER controls params s = Some (key, s') →
  ∃ s0 set,
    (same_bindings s s0 ∨ was_reset s s0) ∧
    enabled_from (truthy (params ≫= ControlManager.persist)) key set s0 s'.
Proof.
  unfold ControlManager.add_controls.
  set (s1 := if _ && _ then ControlManager.reset true s else s).
  assert (same_bindings s s1 ∨ was_reset s s1) as Hs1.
  { unfold s1. case_match; [right; apply reset_was_reset|left; apply same_bindings_refl]. }
  destruct (match params with
            | Some p => ControlManager.apply_control_params QUARTER controls p s1
            | None => Some s1
            end) as [s2|] eqn:Hparams; cbn [mbind option_bind]; [|done].
  assert (same_bindings s1 s2) as Hs2.
  { destruct params as [p|].
    - by apply apply_edits_same in Hparams as [? _].
    - injection Hparams as <-. apply same_bindings_refl. }
  intros Henable. apply enable_controls_spec in Henable as [[set Hset] _].
  exists s2, set. split; [|done].
  destruct Hs1 as [Hs1|Hs1].
  - left. by eapply same_bindings_trans.
  - right. by eapply was_reset_same_r.
Qed.

Lemma new_simple_control_same b f params sfx s :
  same_bindings s (snd (ControlManager.new_simple_control b f params sfx s)).
Proof. by repeat split. Qed.

Lemma add_simple_controls_step f params sfx s key s' :
  ControlManager.add_simple_controls QUARTER f params sfx s = Some (key, s') →
  ∃ s0 set,
    (same_bindings s s0 ∨ was_reset s s0) ∧
    enabled_from (truthy (params ≫= ControlManager.simple_persist)) key set s0 s'.
Proof.
  unfold ControlManager.add_simple_controls.
  destruct (ControlManager.new_simple_control Button.A f params sfx s) as [a sa] eqn:Ha.
  assert (same_bindings s sa) as Hsa.
  { pose proof (new_simple_control_same Button.A f params sfx s) as H. by rewrite Ha in H. }
  destruct (ControlManager.new_simple_control Button.B f params sfx sa) as [b sb] eqn:Hb.
  assert (same_bindings sa sb) as Hsb.
  { pose proof (new_simple_control_same Button.B f params sfx sa) as H. by rewrite Hb in H. }
  set (made := if bool_decide (params ≫= ControlManager.confirm_only ≠ Some true)
               then ([a; b], sb) else ([a], sa)).
  assert (same_bindings s (snd made)) as Hmade.
  { unfold made. case_bool_decide; [|done]. by eapply same_bindings_trans. }
  destruct made as [controls s1]. simpl in Hmade.
  intros Hadd.
  assert (∃ s0 set,
            (same_bindings s1 s0 ∨ was_reset s1 s0) ∧
            enabled_from (truthy (params ≫= ControlManager.simple_persist)) key set s0 s')
    as (s0 & set & Hs0 & Hset).
  { destruct params as [p|]; apply add_controls_step in Hadd; exact Hadd. }
  exists s0, set. split; [|done]. destruct Hs0 as [Hs0|Hs0].
  - left. by eapply same_bindings_trans.
  - right. by eapply was_reset_same_l.
Qed.

Lemma run_listener_step l g s s' :
  ControlManager.run_listener QUARTER l g s = Some s' →
  same_bindings s s' ∨ was_reset s s'.
Proof.
  destruct l as [c|c b time| |c combo trigger_reset]; cbn [ControlManager.run_listener];
    destruct (ControlManager.disabled s); try (intros [= <-]; left; apply same_bindings_refl).
  - destruct (ControlManager.control_objects s !! c) as [control|];
      cbn [mbind option_bind]; [|done].
    destruct (ControlManager.on_up control) as [f|]; cbn [mbind option_bind]; [|done].
    intros [= <-]. by left.
  - set (s1 := match ControlManager.get_opposite_button g b with
               | Some o => _ | None => s end).
    assert (same_bindings s s1) as Hs1.
    { unfold s1. destruct (ControlManager.get_opposite_button g b) as [o|]; [|done].
      by destruct (ControlManager.is_down g o). }
    destruct (ControlManager.control_objects s1 !! c) as [control|];
      cbn [mbind option_bind]; [|done].
    unfold ControlManager.start_loop_timers.
    destruct (ControlManager.on_down control) as [f|]; cbn [mbind option_bind]; [|done].
    intros [= <-]. left. eapply same_bindings_trans; [exact Hs1|]. by repeat split.
  - intros [= <-]. left. by repeat split.
  - destruct (match combo with
              | Some l => existsb (ControlManager.is_up g) l
              | None => false
              end).
    { intros [= <-]. left. apply same_bindings_refl. }
    set (s1 := if truthy trigger_reset then ControlManager.reset true s else s).
    assert (same_bindings s s1 ∨ was_reset s s1) as Hs1.
    { unfold s1. destruct (truthy trigger_reset);
        [right; apply reset_was_reset|left; apply same_bindings_refl]. }
    destruct (ControlManager.control_objects s1 !! c) as [control|];
      cbn [mbind option_bind]; [|done].
    destruct (ControlManager.on_down control) as [f|]; cbn [mbind option_bind]; [|done].
    intros [= <-]. destruct Hs1 as [Hs1|Hs1].
    + left. eapply same_bindings_trans; [exact Hs1|]. by repeat split.
    + right. eapply was_reset_same_r; [exact Hs1|]. by repeat split.
Qed.

(** An event leaves the sets and the bindings as they are, or resets, or
    is a call of [detach_bindings], or enables new controls, maybe after a
    reset. *)
Lemma run_event_step e s s' :
  ControlManager.run_event QUARTER e s = Some s' →
  same_bindings s s' ∨ was_reset s s' ∨
  (∃ key, e = ControlManager.DetachBindings key ∧
          s' = ControlManager.detach_bindings key s) ∨
  (∃ s0 persist key set,
      (same_bindings s s0 ∨ was_reset s s0) ∧ enabled_from persist key set s0 s').
Proof.
  destruct e as [f params sfx|controls params|controls persist| |key|detach_current|b
                |bind g|f time sfx|f sfx]; simpl.
  - destruct (ControlManager.add_simple_controls QUARTER f params sfx s) as [[key s1]|]
      eqn:Hadd; simpl; [|done].
    intros [= <-]. apply add_simple_controls_step in Hadd as (s0 & set & H0 & Hset).
    right; right; right. eexists s0, _, key, set. split; [exact H0|exact Hset].
  - destruct (ControlManager.add_controls QUARTER controls params s) as [[key s1]|]
      eqn:Hadd; simpl; [|done].
    intros [= <-]. apply add_controls_step in Hadd as (s0 & set & H0 & Hset).
    right; right; right. eexists s0, _, key, set. split; [exact H0|exact Hset].
  - destruct (ControlManager.enable_controls controls persist s) as [[key s1]|]
      eqn:Hen; simpl; [|done].
    intros [= <-]. apply enable_controls_spec in Hen as [[set Hset] _].
    right; right; right. eexists s, _, key, set.
    split; [left; apply same_bindings_refl|exact Hset].
  - intros [= <-]. by left.
  - intros [= <-]. right; right; left. by exists key.
  - intros [= <-]. destruct detach_current.
    + right; left. apply reset_was_reset.
    + by left.
  - intros [= <-]. by left.
  - unfold ControlManager.dispatch.
    destruct (ControlManager.signal_binding_objects s !! bind) as [sb|]; simpl; [|done].
    destruct (ControlManager.b_detached sb).
    + intros [= <-]. left. apply same_bindings_refl.
    + intros Hrun. apply run_listener_step in Hrun as [?|?]; auto.
  - intros [= <-]. by left.
  - intros [= <-]. by left.
Qed.

End ControlEvents.

(** ** Key 0 *)

Section ControlProperties.

Variable QUARTER : Z.

Lemma key_zero_step e s s' :
  ControlManager.run_event QUARTER e s = Some s' →
  e ≠ ControlManager.DetachBindings 0 →
  is_Some (ControlManager.signal_bindings s !! 0%nat) →
  is_Some (ControlManager.signal_bindings s' !! 0%nat).
Proof.
  intros Hrun He Hzero.
  assert (∀ s0, was_reset s s0 → is_Some (ControlManager.signal_bindings s0 !! 0%nat))
    as Hreset.
  { intros s0 (Hs & _). rewrite Hs.
    destruct (ControlManager.current_set_key s) as [k|]; [|done].
    case_bool_decide; [|done]. by rewrite lookup_delete_ne. }
  destruct (run_event_step QUARTER e s s' Hrun)
    as [Hsame|[Hres|[(key & -> & ->)|(s0 & persist & key & set & Hs0 & Hen)]]].
  - destruct Hsame as (_ & _ & -> & _). done.
  - by apply Hreset.
  - destruct (detach_bindings_spec key s) as (-> & _).
    rewrite lookup_delete_ne; [done|]. by intros ->.
  - assert (is_Some (ControlManager.signal_bindings s0 !! 0%nat)) as Hzero0.
    { destruct Hs0 as [(_ & _ & -> & _)|Hres]; [done|by apply Hreset]. }
    destruct Hen as (_ & _ & _ & -> & _).
    destruct (decide (key = 0%nat)) as [->|Hne].
    + rewrite lookup_insert_eq. eauto.
    + by rewrite lookup_insert_ne.
Qed.

Lemma key_zero_events es s s' :
  ControlManager.run_events QUARTER es s = Some s' →
  ControlManager.DetachBindings 0 ∉ es →
  is_Some (ControlManager.signal_bindings s !! 0%nat) →
  is_Some (ControlManager.signal_bindings s' !! 0%nat).
Proof.
  revert s. induction es as [|e es IH]; intros s; simpl.
  - by intros [= <-].
  - destruct (ControlManager.run_event QUARTER e s) as [s1|] eqn:He; simpl; [|done].
    intros Hrest [Hne Hnin]%not_elem_of_cons Hzero.
    apply (IH s1); [done..|]. eapply key_zero_step; [exact He| |done]. by intros ->.
Qed.

(** X24: key 0 is never released by a reset.  The first set of a new
    manager gets key 0.  [reset] tests the current key for truth, so with
    the current key 0 it detaches the bindings and leaves the set filed: after
    any run of events without a call of [detach_bindings(0)], [signal_bindings]
    still has key 0, and the next set gets another key. *)
Theorem X24_key_zero_is_never_released controls_heap params_heap controls persist
  key s es s' controls' persist' key' s'' :
  ControlManager.enable_controls controls persist
    (ControlManager.new controls_heap params_heap) = Some (key, s) →
  ControlManager.run_events QUARTER es s = Some s' →
  ControlManager.DetachBindings 0 ∉ es →
  ControlManager.enable_controls controls' persist' s' = Some (key', s'') →
  key = 0%nat ∧
  is_Some (ControlManager.signal_bindings s' !! 0%nat) ∧
  key' ≠ 0%nat.
Proof.
  intros Hfirst Hrun Hes Hnext.
  apply enable_controls_spec in Hfirst as [(set & _ & Hbelow & _ & Hsets & _) _].
  assert (key = 0%nat) as ->.
  { destruct key as [|k]; [done|]. destruct (Hbelow 0%nat) as [x Hx]; [lia|]. done. }
  assert (is_Some (ControlManager.signal_bindings s' !! 0%nat)) as Hzero.
  { eapply key_zero_events; [exact Hrun|exact Hes|].
    rewrite Hsets, lookup_insert_eq. eauto. }
  split; [done|]. split; [done|].
  apply enable_controls_spec in Hnext as [(set' & Hnone & _) _].
  intros ->. rewrite Hnone in Hzero. by destruct Hzero.
Qed.

(** ** Sets that persist *)

Lemma kept_apart_same key set s s' :
  same_bindings s s' → kept_apart key set s → kept_apart key set s'.
Proof.
  intros Hsame (Hset & Hkey & Hb). pose proof Hsame as (Hc & Hk & Hs & Ho).
  unfold kept_apart. rewrite Hs, Hk, Hc. split_and!; [done..|].
  intros bind Hin. destruct (Hb bind Hin) as (Hatt & Hcur & Hother).
  split_and!; [|done..]. by apply (same_bindings_attached s s').
Qed.

Lemma kept_apart_detached key set gone sets' s s' :
  kept_apart key set s →
  detached_only gone s s' →
  (∀ bind, bind ∈ set → bind ∉ gone) →
  ControlManager.signal_bindings s' = sets' →
  sets' !! key = Some set →
  (∀ key' set', sets' !! key' = Some set' →
                ControlManager.signal_bindings s !! key' = Some set') →
  ControlManager.current_set_key s' ≠ Some key →
  (∀ bind, bind ∈ ControlManager.current_signal_bindings s' →
           bind ∈ ControlManager.current_signal_bindings s) →
  kept_apart key set s'.
Proof.
  intros (Hset & Hkey & Hb) [Hlen Hatt] Hgone Hsets Hset' Hsub Hkey' Hcur.
  unfold kept_apart. rewrite Hsets. split_and!; [done..|].
  intros bind Hin. destruct (Hb bind Hin) as (Ha & Hc & Hother). split_and!.
  - apply Hatt. split; [done|]. by apply Hgone.
  - intros Hin'. by apply Hc, Hcur.
  - intros key' set' Hne Hk'. apply (Hother key' set' Hne). by apply Hsub.
Qed.

Lemma kept_apart_was_reset key set s s' :
  was_reset s s' → kept_apart key set s → kept_apart key set s'.
Proof.
  intros (Hs & Hc & Hk & Hd) Hkept. pose proof Hkept as (Hset & Hkey & Hb).
  eapply kept_apart_detached; [exact Hkept|exact Hd| |exact Hs| | | |].
  - intros bind Hin. destruct (Hb bind Hin) as (_ & Hcur & Hother).
    unfold reset_detaches. apply not_elem_of_app. split; [done|].
    destruct (ControlManager.current_set_key s) as [k|]; [|apply not_elem_of_nil].
    case_bool_decide; [|apply not_elem_of_nil].
    destruct (ControlManager.signal_bindings s !! k) as [set'|] eqn:Hk';
      [|apply not_elem_of_nil].
    simpl. apply (Hother k set'); [|done]. by intros ->.
  - destruct (ControlManager.current_set_key s) as [k|]; [|done].
    case_bool_decide; [|done]. rewrite lookup_delete_ne; [done|]. by intros ->.
  - intros key' set'. destruct (ControlManager.current_set_key s) as [k|]; [|done].
    case_bool_decide; [|done]. by intros [_ ?]%lookup_delete_Some.
  - by rewrite Hk.
  - rewrite Hc. intros bind Hin. by apply elem_of_nil in Hin.
Qed.

Lemma kept_apart_detach_bindings key set key' s :
  key' ≠ key → kept_apart key set s →
  kept_apart key set (ControlManager.detach_bindings key' s).
Proof.
  intros Hne Hkept. pose proof Hkept as (Hset & Hkey & Hb).
  destruct (detach_bindings_spec key' s) as (Hs & Hc & Hk & _ & _ & _ & _ & Hd).
  eapply kept_apart_detached; [exact Hkept|exact Hd| |exact Hs| | | |].
  - intros bind Hin. destruct (Hb bind Hin) as (_ & _ & Hother).
    destruct (ControlManager.signal_bindings s !! key') as [set'|] eqn:Hk';
      [|apply not_elem_of_nil].
    simpl. by apply (Hother key' set').
  - by rewrite lookup_delete_ne.
  - intros k set'. by intros [_ ?]%lookup_delete_Some.
  - by rewrite Hk.
  - by rewrite Hc.
Qed.

Lemma kept_apart_enabled key set persist key' set' s s' :
  enabled_from persist key' set' s s' → kept_apart key set s → kept_apart key set s'.
Proof.
  intros (Hnone & _ & Hseq & Hsets & (made & Hobjs & Hlen & Hmade) & Hcur & Hk)
         (Hset & Hkey & Hb).
  assert (key' ≠ key) as Hne by (intros ->; congruence).
  assert (∀ bind, bind ∈ set → bind ∉ set') as Hfresh.
  { intros bind Hin Hin'. destruct (Hb bind Hin) as ((sb & Hsb & _) & _).
    apply lookup_lt_Some in Hsb. rewrite Hseq in Hin'.
    apply elem_of_seq in Hin'. lia. }
  unfold kept_apart. rewrite Hsets, Hk, Hcur. split_and!.
  - by rewrite lookup_insert_ne.
  - destruct persist; [done|]. intros [= ->]. done.
  - intros bind Hin. destruct (Hb bind Hin) as ((sb & Hsb & Hatt) & Hc & Hother).
    split_and!.
    + exists sb. split; [|done]. rewrite Hobjs. by apply lookup_app_l_Some.
    + apply not_elem_of_app. split; [done|]. destruct persist; [apply not_elem_of_nil|].
      by apply Hfresh.
    + intros k set0 Hk0. destruct (decide (k = key')) as [->|Hkk].
      * rewrite lookup_insert_eq. intros [= <-]. by apply Hfresh.
      * rewrite lookup_insert_ne by done. by apply Hother.
Qed.

Lemma kept_apart_step e s s' key set :
  ControlManager.run_event QUARTER e s = Some s' →
  e ≠ ControlManager.DetachBindings key →
  kept_apart key set s → kept_apart key set s'.
Proof.
  intros Hrun He Hkept.
  destruct (run_event_step QUARTER e s s' Hrun)
    as [Hsame|[Hres|[(key' & -> & ->)|(s0 & persist & key' & set' & Hs0 & Hen)]]].
  - by eapply kept_apart_same.
  - by eapply kept_apart_was_reset.
  - apply kept_apart_detach_bindings; [|done]. by intros ->.
  - eapply kept_apart_enabled; [exact Hen|]. destruct Hs0.
    + by eapply kept_apart_same.
    + by eapply kept_apart_was_reset.
Qed.

Lemma kept_apart_events es s s' key set :
  ControlManager.run_events QUARTER es s = Some s' →
  ControlManager.DetachBindings key ∉ es →
  kept_apart key set s → kept_apart key set s'.
Proof.
  revert s. induction es as [|e es IH]; intros s; simpl.
  - by intros [= <-].
  - destruct (ControlManager.run_event QUARTER e s) as [s1|] eqn:He; simpl; [|done].
    intros Hrest [Hne Hnin]%not_elem_of_cons Hkept.
    apply (IH s1); [done..|]. eapply kept_apart_step; [exact He| |done]. by intros ->.
Qed.

(** X25: a set enabled with [persist] outlives every reset.  On a manager
    whose lists name bindings that were made and whose current key, if any,
    is a key of [signal_bindings], the set that [enable_controls] files with
    [persist] stays filed under its key with all its bindings attached,
    whatever controls are added, whatever is reset and whatever listener
    runs afterwards, as long as [detach_bindings] is not called with its
    key. *)
Theorem X25_persistent_sets_outlive_resets controls persist s key s1 es s2 :
  truthy persist = true →
  bindings_made s →
  (∀ k, ControlManager.current_set_key s = Some k →
        is_Some (ControlManager.signal_bindings s !! k)) →
  ControlManager.enable_controls controls persist s = Some (key, s1) →
  ControlManager.run_events QUARTER es s1 = Some s2 →
  ControlManager.DetachBindings key ∉ es →
  ∃ set, ControlManager.signal_bindings s1 !! key = Some set ∧
         ControlManager.signal_bindings s2 !! key = Some set ∧
         ∀ bind, bind ∈ set → attached s1 bind ∧ attached s2 bind.
Proof.
  intros Hpersist [Hmade_cur Hmade_sets] Hcurrent Henable Hrun Hes.
  apply enable_controls_spec in Henable as [(set & Hen) _]. rewrite Hpersist in Hen.
  pose proof Hen as (Hnone & _ & Hseq & Hsets & (made & Hobjs & Hlen & Hmade) & Hcur & Hk).
  assert (kept_apart key set s1) as Hkept.
  { unfold kept_apart. rewrite Hsets, Hk, Hcur, app_nil_r. split_and!.
    - by rewrite lookup_insert_eq.
    - intros Hkey. destruct (Hcurrent key Hkey) as [x Hx]. congruence.
    - intros bind Hin. pose proof Hin as Hrange. rewrite Hseq in Hrange.
      apply elem_of_seq in Hrange. split_and!.
      + destruct (lookup_lt_is_Some_2 made
                    (bind - length (ControlManager.signal_binding_objects s)))
          as [sb Hsb]; [lia|].
        exists sb. split.
        * rewrite Hobjs, lookup_app_r by lia. done.
        * eapply Forall_lookup_1 in Hmade; [|exact Hsb]. done.
      + intros Hin'. apply Hmade_cur in Hin'. lia.
      + intros k set0 Hne. rewrite lookup_insert_ne by done.
        intros Hk0 Hin'. apply (Hmade_sets k set0 bind Hk0) in Hin'. lia. }
  pose proof (kept_apart_events es s1 s2 key set Hrun Hes Hkept) as Hkept2.
  exists set. destruct Hkept as (Hset1 & _ & Hb1). destruct Hkept2 as (Hset2 & _ & Hb2).
  split; [done|]. split; [done|]. intros bind Hin.
  destruct (Hb1 bind Hin) as [? _]. destruct (Hb2 bind Hin) as [? _]. done.
Qed.

(** X27: a disabled manager ignores its signals: whatever listener a
    binding has, running it while [disabled] holds changes nothing, logs
    nothing and reads no control. *)
Theorem X27_disabled_manager_ignores_signals bind g s :
  ControlManager.disabled s = true →
  is_Some (ControlManager.signal_binding_objects s !! bind) →
  ControlManager.dispatch QUARTER bind g s = Some s.
Proof.
  intros Hdisabled [sb Hsb]. unfold ControlManager.dispatch. rewrite Hsb. simpl.
  destruct (ControlManager.b_detached sb); [done|].
  destruct (ControlManager.b_listener sb); simpl; by rewrite Hdisabled.
Qed.

End ControlProperties.

(** ** Controls that reset on press *)

Section ResetOnPress.

Variable QUARTER : Z.





Lemma edits_of_none : ControlManager.edits_of None = [].
Proof. done. Qed.




End ResetOnPress.

(** ** Loop configuration *)

Section LoopConfig.

Variable QUARTER : Z.

Lemma apply_edit_miss c control edit s :
  ControlManager.control_objects s !! c = Some control →
  ControlManager.button control ≠ Some (fst edit) →
  ControlManager.apply_edit QUARTER [c] edit s = Some s.
Proof.
  intros Hc Hb. unfold ControlManager.apply_edit. cbn [ControlManager.find_control].
  rewrite Hc. cbn [mbind option_bind]. by rewrite decide_False.
Qed.

Lemma apply_edits_miss c control edits s :
  ControlManager.control_objects s !! c = Some control →
  Forall (λ edit, ControlManager.button control ≠ Some (fst edit)) edits →
  ControlManager.apply_edits QUARTER [c] edits s = Some s.
Proof.
  intros Hc Hall. induction Hall as [|edit edits Hb _ IH]; [done|].
  cbn [ControlManager.apply_edits]. by rewrite (apply_edit_miss c control edit s Hc Hb).
Qed.

(** The edit of a control without [params]: a [params] object is made for
    it, with the loop time. *)
Lemma apply_edit_hit c b f sfx time s :
  ControlManager.control_objects s !! c
  = Some (ControlManager.MkControl (Some b) None (Some f) None None sfx) →
  ∃ s' p,
    ControlManager.apply_edit QUARTER [c] (b, time) s = Some s' ∧
    ControlManager.control_objects s' !! c
    = Some (ControlManager.MkControl (Some b) None (Some f) None (Some p) sfx) ∧
    ControlManager.params_objects s' !! p
    = Some (ControlManager.ControlParamsOf None
              (Some (default (ControlManager.DEFAULT_LOOP_TIME QUARTER) time))).
Proof.
  intros Hc. unfold ControlManager.apply_edit. cbn [ControlManager.find_control fst snd].
  rewrite Hc. cbn [mbind option_bind ControlManager.button].
  rewrite decide_True by done. cbn [mbind option_bind]. rewrite Hc.
  cbn [mbind option_bind ControlManager.params ControlManager.params_objects
       ControlManager.set_control_objects ControlManager.set_params_objects].
  rewrite lookup_insert_eq. cbn [mbind option_bind].
  eexists _, _. split; [done|]. simpl. by rewrite !lookup_insert_eq.
Qed.

(** X28: a loop configuration makes a control loop.  [add_controls] with a
    vertical loop configuration on an up or down control that has an
    [on_down] callback and no [params] gives the control a [params] object
    with the vertical time, or half of [Phaser.Timer.QUARTER] when the time
    is missing, and files two bindings for it, the looping press and the
    release that stops the timers; but a vertical time of 0 with [vertical]
    set is kept as it is and is no loop time: the control is filed as a
    plain press. *)
Theorem X28_loop_config_makes_a_control_loop c b f sfx lc persist no_initial_reset
  s key s1 :
  b = Button.UP ∨ b = Button.DOWN →
  ControlManager.control_objects s !! c
  = Some (ControlManager.MkControl (Some b) None (Some f) None None sfx) →
  truthy (ControlManager.vertical lc)
  || truthy_number (ControlManager.vertical_time lc) = true →
  ControlManager.add_controls QUARTER [c]
    (Some (ControlManager.MkControlParams (Some lc) persist no_initial_reset)) s
  = Some (key, s1) →
  let time := default (ControlManager.DEFAULT_LOOP_TIME QUARTER)
                      (ControlManager.vertical_time lc) in
  ∃ set,
    ControlManager.signal_bindings s1 !! key = Some set ∧
    (λ bind, ControlManager.b_listener
               <$> ControlManager.signal_binding_objects s1 !! bind) <$> set
    = if decide (time = 0)
      then [Some (ControlManager.DownListener c None None)]
      else [Some (ControlManager.LoopDownListener c (ControlManager.ButtonOf b) time);
            Some ControlManager.LoopUpListener].
Proof.
  intros Hb Hc Hvertical. unfold ControlManager.add_controls.
  set (sr := if _ && _ then ControlManager.reset true s else s).
  assert (ControlManager.control_objects sr !! c
          = Some (ControlManager.MkControl (Some b) None (Some f) None None sfx)) as Hcr.
  { unfold sr. case_match; [|done].
    destruct (reset_spec s) as (_ & _ & _ & _ & _ & -> & _). done. }
  cbn [mbind option_bind ControlManager.persist ControlManager.no_initial_reset].
  unfold ControlManager.apply_control_params. cbn [ControlManager.loop_config].
  unfold ControlManager.edits_of. cbn [mbind option_bind]. rewrite Hvertical.
  set (time := default (ControlManager.DEFAULT_LOOP_TIME QUARTER)
                       (ControlManager.vertical_time lc)).
  set (rest := (if truthy (ControlManager.horizontal lc) || _ then _ else [])
               ++ (if truthy (ControlManager.shoulder lc) || _ then _ else [])).
  assert (∀ control, ControlManager.button control = Some b →
            Forall (λ edit, ControlManager.button control ≠ Some (fst edit)) rest)
    as Hrest.
  { intros control Hbutton. unfold rest. rewrite Hbutton.
    apply Forall_app. split; case_match; repeat constructor;
      destruct Hb as [-> | ->]; simpl; congruence. }
  assert (∃ s2 p,
            ControlManager.apply_edits QUARTER [c]
              ([(Button.UP, ControlManager.vertical_time lc);
                (Button.DOWN, ControlManager.vertical_time lc)] ++ rest) sr = Some s2 ∧
            ControlManager.control_objects s2 !! c
            = Some (ControlManager.MkControl (Some b) None (Some f) None (Some p) sfx) ∧
            ControlManager.params_objects s2 !! p
            = Some (ControlManager.ControlParamsOf None (Some time)))
    as (s2 & p & -> & Hc2 & Hp2).
  { cbn [app ControlManager.apply_edits]. destruct Hb as [-> | ->].
    - destruct (apply_edit_hit c Button.UP f sfx (ControlManager.vertical_time lc) sr Hcr)
        as (s2 & p & -> & Hc2 & Hp2).
      cbn [mbind option_bind].
      rewrite (apply_edit_miss c _ (Button.DOWN, ControlManager.vertical_time lc) s2 Hc2)
        by done.
      cbn [mbind option_bind]. rewrite (apply_edits_miss c _ rest s2 Hc2) by (by apply Hrest).
      by exists s2, p.
    - rewrite (apply_edit_miss c _ (Button.UP, ControlManager.vertical_time lc) sr Hcr)
        by done.
      cbn [mbind option_bind].
      destruct (apply_edit_hit c Button.DOWN f sfx (ControlManager.vertical_time lc) sr Hcr)
        as (s2 & p & -> & Hc2 & Hp2).
      cbn [mbind option_bind]. rewrite (apply_edits_miss c _ rest s2 Hc2) by (by apply Hrest).
      by exists s2, p. }
  cbn [mbind option_bind]. unfold ControlManager.enable_controls.
  cbn [ControlManager.enable_each]. unfold ControlManager.enable_control at 1.
  cbn [fst snd]. rewrite Hc2.
  cbn [mbind option_bind ControlManager.on_up ControlManager.on_down
       ControlManager.params ControlManager.buttons ControlManager.last_button
       ControlManager.button fst snd]. rewrite Hp2.
  cbn [fmap option_fmap option_map mbind option_bind ControlManager.loop_time
       ControlManager.reset_controls ControlManager.signal_add fst snd].
  destruct (decide (time = 0)) as [Hzero|Hzero].
  - rewrite bool_decide_eq_false_2 by (by intros ?).
    unfold ControlManager.register. cbn [mbind option_bind].
    match goal with
    | |- context [ControlManager.make_key ?x] =>
        destruct (make_key_spec x) as (k & -> & _)
    end.
    cbn [mbind option_bind]. intros [= <- <-].
    eexists. split.
    { destruct (truthy persist); simpl; by rewrite lookup_insert_eq. }
    destruct (truthy persist); simpl; by rewrite list_lookup_middle.
  - rewrite bool_decide_eq_true_2 by done.
    unfold ControlManager.register.
    cbn [mbind option_bind ControlManager.signal_binding_objects
         ControlManager.set_signal_binding_objects].
    match goal with
    | |- context [ControlManager.make_key ?x] =>
        destruct (make_key_spec x) as (k & -> & _)
    end.
    cbn [mbind option_bind]. intros [= <- <-].
    eexists. split.
    { destruct (truthy persist); simpl; by rewrite lookup_insert_eq. }
    destruct (truthy persist); simpl;
      rewrite length_app, Nat.add_1_r, <- app_assoc; simpl;
      rewrite (list_lookup_middle _ _ _ (length (ControlManager.signal_binding_objects s2)))
        by done;
      rewrite (lookup_app_r _ _ (S _)) by lia;
      by replace (S (length (ControlManager.signal_binding_objects s2))
                  - length (ControlManager.signal_binding_objects s2))%nat
        with 1%nat by lia.
Qed.

End LoopConfig.

(** ** The battle and the menu *)

Lemma X18_witness :
  BattleAnimationManager.animations
    (default battle_loading
       (BattleAnimationManager.load_animation_resume 0 false None battle_loading))
  = BattleAnimationManager.animations battle_loading ∧
  BattleAnimationManager.load_animation "fire" "garet" true
    (BattleAnimationManager.run_events battle_events
       (default battle_loading
          (BattleAnimationManager.load_animation_resume 0 false None battle_loading)))
  = BattleAnimationManager.run_events battle_events
      (default battle_loading
         (BattleAnimationManager.load_animation_resume 0 false None battle_loading)).
Proof.
  apply (X18_failed_load_is_never_retried 0 None battle_loading
           (default battle_loading
              (BattleAnimationManager.load_animation_resume 0 false None battle_loading))
           (BattleAnimationManager.MkLoad "fire" "isaac" false)
           battle_events "garet" true).
  - by vm_compute.
  - by vm_compute.
Defined.

Lemma X19_witness :
  BattleAnimationManager.animation_available "no_animation" "isaac"
    (BattleAnimationManager.run_events battle_events BattleAnimationManager.new)
  = BattleAnimationManager.NO_ANIMATION ∧
  BattleAnimationManager.load_animation "no_animation" "isaac" false
    (BattleAnimationManager.run_events battle_events BattleAnimationManager.new)
  = BattleAnimationManager.run_events battle_events BattleAnimationManager.new.
Proof.
  apply (X19_no_animation_is_never_available battle_events "isaac" false).
  unfold loads_slash_free, battle_events.
  repeat (apply Forall_cons_2; [by simpl|]). apply Forall_nil_2.
Defined.

Lemma X20_witness :
  ∃ m2 m4,
    BattleAnimationManager.load_animation_resume 0 true (Some "fire_recipe"%string)
      (BattleAnimationManager.load_animation "fire" "isaac" false
         BattleAnimationManager.new) = Some m2 ∧
    BattleAnimationManager.animation_available "fire" "isaac" m2
    = BattleAnimationManager.AVAILABLE ∧
    BattleAnimationManager.play_resume 0 (BattleAnimationManager.play "fire" "isaac" m2)
    = Some m4 ∧
    BattleAnimationManager.animation_available "fire" "isaac" m4
    = BattleAnimationManager.NOT_AVAILABLE.
Proof.
  destruct (X20_an_animation_is_played_once "fire" "isaac" false "fire_recipe"%string
              BattleAnimationManager.new)
    as (m2 & m4 & Hload & Hav & _ & Hplay & _ & Hnot & _).
  - apply not_elem_of_empty.
  - done.
  - exists m2, m4. split_and!; [exact Hload|exact Hav|exact Hplay|exact Hnot].
Defined.

Lemma X21_witness :
  BattleAnimationManager.log (BattleAnimationManager.destroy battle_loaded)
  = BattleAnimationManager.log battle_loaded
    ++ [BattleAnimationManager.RemoveTextureAtlas "quake_battle_animation";
        BattleAnimationManager.RemoveJSON "quake_battle_recipe"].
Proof.
  destruct (X21_destroy_unloads_what_is_filed battle_loaded
              [("quake"%string, "garet"%string,
                BattleAnimationManager.MkAnimation 0 "quake_recipe"%string true)])
    as (Hlog & _).
  - by vm_compute.
  - apply Forall_cons_2; [by simpl|apply Forall_nil_2].
  - exact Hlog.
Defined.

Lemma menu_controls_live : controls_live menu_new [0%nat; 1%nat].
Proof.
  intros c Hc. apply list_elem_of_In in Hc. simpl in Hc.
  destruct Hc as [<-|[<-|[]]].
  - eexists. split; [by vm_compute|]. intros p Hp. by vm_compute in Hp.
  - eexists. split; [by vm_compute|]. intros p Hp. vm_compute in Hp.
    injection Hp as <-. vm_compute. eauto.
Qed.

Lemma menu_events_keep_key_0 : ControlManager.DetachBindings 0 ∉ menu_events.
Proof.
  intros Hin. apply list_elem_of_In in Hin. simpl in Hin.
  by destruct Hin as [?|[?|[?|[?|[]]]]].
Qed.

Lemma X23_witness :
  is_Some (ControlManager.enable_controls [0%nat; 1%nat] None menu_new) ∧
  ∃ set, enabled_from false (fst menu_first) set menu_new (snd menu_first).
Proof.
  split.
  - apply (X23_enable_controls_files_a_new_set [0%nat; 1%nat] None menu_new).
    apply menu_controls_live.
  - apply (X23_enable_controls_files_a_new_set [0%nat] None menu_new).
    by vm_compute.
Defined.

Lemma X24_witness :
  fst menu_first = 0%nat ∧
  is_Some (ControlManager.signal_bindings menu_later !! 0%nat) ∧
  fst menu_next ≠ 0%nat.
Proof.
  apply (X24_key_zero_is_never_released 250 menu_controls menu_params [0%nat] None
           (fst menu_first) (snd menu_first) menu_events menu_later
           [0%nat] (Some true) (fst menu_next) (snd menu_next)).
  - by vm_compute.
  - by vm_compute.
  - apply menu_events_keep_key_0.
  - by vm_compute.
Defined.

Lemma X25_witness :
  ∃ set,
    ControlManager.signal_bindings (snd menu_persistent) !! fst menu_persistent
    = Some set ∧
    ControlManager.signal_bindings menu_persistent_later !! fst menu_persistent
    = Some set ∧
    ∀ bind, bind ∈ set →
            attached (snd menu_persistent) bind ∧ attached menu_persistent_later bind.
Proof.
  apply (X25_persistent_sets_outlive_resets 250 [0%nat] (Some true) menu_new
           (fst menu_persistent) (snd menu_persistent) menu_events
           menu_persistent_later).
  - done.
  - split.
    + intros bind Hin. by apply elem_of_nil in Hin.
    + intros key set bind Hset.
      change (ControlManager.signal_bindings menu_new) with (∅ : gmap nat (list nat))
        in Hset.
      by rewrite lookup_empty in Hset.
  - intros k Hk. done.
  - by vm_compute.
  - by vm_compute.
  - apply menu_events_keep_key_0.
Defined.


Lemma X27_witness :
  ControlManager.dispatch 250 0 all_down
    (ControlManager.set_disabled true (snd menu_first))
  = Some (ControlManager.set_disabled true (snd menu_first)).
Proof.
  apply (X27_disabled_manager_ignores_signals 250 0 all_down
           (ControlManager.set_disabled true (snd menu_first))).
  - done.
  - vm_compute. eauto.
Defined.

Lemma X28_witness :
  ∃ set,
    ControlManager.signal_bindings (snd list_enabled) !! fst list_enabled = Some set ∧
    (λ bind, ControlManager.b_listener
               <$> ControlManager.signal_binding_objects (snd list_enabled) !! bind)
      <$> set
    = [Some (ControlManager.LoopDownListener 0%nat (ControlManager.ButtonOf Button.DOWN)
               125);
       Some ControlManager.LoopUpListener].
Proof.
  destruct (X28_loop_config_makes_a_control_loop 250 0%nat Button.DOWN 5%nat None
              list_loop_config None None list_new (fst list_enabled) (snd list_enabled))
    as (set & Hset & Hlisteners).
  - by right.
  - by vm_compute.
  - done.
  - by vm_compute.
  - exists set. split; [exact Hset|]. etrans; [exact Hlisteners|]. by vm_compute.
Defined.
